(** * Gala (Git Author Line Analyzer): the file-attribution pipeline

    A shallow embedding of the TypeScript sources

      - processor.ts : [processWithPool]
      - files.ts     : [parseGitignore]
      - git.ts       : [getAuthorsFromFile]
      - output.ts    : [displayGeneralContributions], [displayUserContributions]
      - cli.ts       : [CONCURRENCY_LIMIT]

    followed by the properties of the pipeline proved about it. *)

From Stdlib Require Import ZArith NArith QArith Qround Qminmax Lia Sorted Permutation.
From stdpp Require Import strings list.

Local Open Scope Z_scope.

(** ** JavaScript strings and values *)

Module JS.

(** A JavaScript string is a sequence of UTF-16 code units. *)
Definition JsString : Type := list N.

(** An ASCII literal of the source, as a JavaScript string. *)
Definition lit (s : string) : JsString :=
  map Ascii.N_of_ascii (String.list_ascii_of_string s).
Arguments lit : simpl never.

(** [WhiteSpace] and [LineTerminator] code units of ECMAScript, the ones
    [String.prototype.trim] removes. *)
Definition is_white_space (c : N) : bool :=
  ((9 <=? c) && (c <=? 13)            (* TAB LF VT FF CR *)
   || (c =? 32) || (c =? 160)         (* SP, NBSP *)
   || (c =? 5760)                     (* U+1680 *)
   || ((8192 <=? c) && (c <=? 8202))  (* U+2000 .. U+200A *)
   || (c =? 8232) || (c =? 8233)      (* LS, PS *)
   || (c =? 8239) || (c =? 8287)      (* U+202F, U+205F *)
   || (c =? 12288) || (c =? 65279))%N (* U+3000, U+FEFF *).

Fixpoint trimStart (s : JsString) : JsString :=
  match s with
  | [] => []
  | c :: r => if is_white_space c then trimStart r else s
  end.

Definition trimEnd (s : JsString) : JsString := rev (trimStart (rev s)).

(** [s.trim()] *)
Definition trim (s : JsString) : JsString := trimEnd (trimStart s).

(** [a === b] on strings: the same code units. *)
Fixpoint strict_eq (a b : JsString) : bool :=
  match a, b with
  | [], [] => true
  | x :: a', y :: b' => (x =? y)%N && strict_eq a' b'
  | _, _ => false
  end.

Definition JsString_eq_dec : forall a b : JsString, {a = b} + {a <> b} :=
  List.list_eq_dec N.eq_dec.

(** [s.startsWith(p)] *)
Fixpoint startsWith (p s : JsString) : bool :=
  match p, s with
  | [], _ => true
  | x :: p', y :: s' => (x =? y)%N && startsWith p' s'
  | _ :: _, [] => false
  end.

(** [s.endsWith(p)] *)
Definition endsWith (p s : JsString) : bool := startsWith (rev p) (rev s).

(** [s.includes(c)] for a one-unit string [c]. *)
Definition includes (c : N) (s : JsString) : bool := existsb (N.eqb c) s.

(** [s.slice(0, -1)] *)
Definition slice_0_m1 (s : JsString) : JsString := removelast s.

(** [s.slice(1)] *)
Definition slice_1 (s : JsString) : JsString := tail s.

(** [s.substring(n)] *)
Definition substring (n : nat) (s : JsString) : JsString := drop n s.

Definition LF : N := 10%N.
Definition SLASH : N := 47%N.

(** [s.split("\n")]: never empty, the empty string gives one empty piece. *)
Fixpoint split_lines (s : JsString) : list JsString :=
  match s with
  | [] => [[]]
  | c :: r =>
      if (c =? LF)%N then [] :: split_lines r
      else match split_lines r with
           | l :: ls => (c :: l) :: ls
           | [] => [[c]]
           end
  end.

(** [lines.join("\n")] *)
Fixpoint join_lines (ls : list JsString) : JsString :=
  match ls with
  | [] => []
  | [l] => l
  | l :: ls' => l ++ LF :: join_lines ls'
  end.

(** Truthiness of a string: non-empty. *)
Definition truthy_string (s : JsString) : bool :=
  match s with [] => false | _ => true end.


(** The values a worker can produce. Numbers are the integers and NaN;
    arrays and objects carry their contents. *)
#[local] Unset Elimination Schemes.
Inductive JsValue : Type :=
  | JUndefined
  | JNull
  | JBool (b : bool)
  | JNum (n : Z)
  | JNaN
  | JStr (s : JsString)
  | JArr (elems : list JsValue)
  | JObj (fields : list (JsString * JsValue)).
#[local] Set Elimination Schemes.

(** [Boolean(v)]: [undefined], [null], [false], [0], [NaN] and the empty
    string are falsy, everything else (every array and object) is truthy. *)
Definition Boolean (v : JsValue) : bool :=
  match v with
  | JUndefined | JNull | JNaN => false
  | JBool b => b
  | JNum n => negb (n =? 0)
  | JStr s => truthy_string s
  | JArr _ | JObj _ => true
  end.

End JS.

Import JS.

(** ** files.ts: the ignore-rule translation *)

Module Files.

(** What reading [join(dir, ".gitignore")] can give. *)
Inductive gitignore_file : Type :=
  | Missing                       (* [exists()] is false *)
  | Unreadable                    (* [exists()] or [text()] throws *)
  | Text (content : JsString).

(** The body of the [for] loop over the lines: [acc] is
    [gitignorePatterns], a [continue] leaves it as it is. *)
Definition parse_line (acc : list JsString) (line : JsString) : list JsString :=
  let line := trim line in
  if negb (truthy_string line) || startsWith (lit "#") line then acc
  else
    let pattern := line in
    if startsWith (lit "!") pattern then acc
    else
      let pattern :=
        if endsWith (lit "/") pattern
        then slice_0_m1 pattern ++ lit "/**" else pattern in
      let pattern :=
        if negb (startsWith (lit "/") pattern) && negb (includes SLASH pattern)
        then lit "**/" ++ pattern else pattern in
      let pattern :=
        if startsWith (lit "/") pattern then slice_1 pattern else pattern in
      acc ++ [pattern].

Definition parseGitignore (file : gitignore_file) : list JsString :=
  match file with
  | Missing => []
  | Unreadable => []       (* the [catch] logs a note; nothing was pushed *)
  | Text gitignoreContent =>
      fold_left parse_line (split_lines gitignoreContent) []
  end.

(** The translation in the words of the specification: what one rule (a
    trimmed line) becomes. *)
Definition strip_leading_slash (r : JsString) : JsString :=
  match r with
  | c :: r' => if (c =? SLASH)%N then r' else r
  | [] => []
  end.

Definition has_trailing_slash (rule : JsString) : bool :=
  match last rule with
  | Some c => (c =? SLASH)%N
  | None => false
  end.

Definition translate_rule (rule : JsString) : option JsString :=
  match rule with
  | [] => None                                   (* blank *)
  | c :: _ =>
      if (c =? 35)%N then None                   (* # comment *)
      else if (c =? 33)%N then None              (* ! negation *)
      else
        Some (strip_leading_slash
                (if has_trailing_slash rule
                 then removelast rule ++ lit "/**"
                 else if includes SLASH rule then rule
                      else lit "**/" ++ rule))
  end.

End Files.

(** ** git.ts: the authorship extractor *)

Module Git.

(** What running [git blame -M -C -w --line-porcelain <path>] can do
    inside the [try]: spawning the process or reading its standard output
    throws, or the process exits and its whole standard output was read.
    The exit code is awaited and never looked at. *)
Inductive blame_run : Type :=
  | Throws
  | Exited (stdout : JsString) (exitCode : Z).

(** [string[] | number] *)
Inductive extraction : Type :=
  | Authors (authors : list JsString)
  | Count (n : nat).

(** [undefined] and the empty string are falsy. *)
Definition truthy_filter (filterUser : option JsString) : bool :=
  match filterUser with
  | Some f => truthy_string f
  | None => false
  end.

(** The loop over [output.split("\n")]: [authors.push(line.substring(7))]
    for the lines that start with ["author "]. *)
Definition push_author (authors : list JsString) (line : JsString) : list JsString :=
  if startsWith (lit "author ") line
  then authors ++ [substring 7 line]
  else authors.

Definition collect_authors (output : JsString) : list JsString :=
  fold_left push_author (split_lines output) [].

(** The body of the [try]: [None] when it throws. *)
Definition try_body (run : blame_run) (filterUser : option JsString)
  : option extraction :=
  match run with
  | Throws => None
  | Exited output _ =>
      let authors := collect_authors output in
      match filterUser with
      | Some f =>
          if truthy_string f
          then Some (Count (length (List.filter (fun author => strict_eq author f) authors)))
          else Some (Authors authors)
      | None => Some (Authors authors)
      end
  end.

Definition getAuthorsFromFile (run : blame_run) (filterUser : option JsString)
  : extraction :=
  match try_body run filterUser with
  | Some r => r
  | None => if truthy_filter filterUser then Count 0 else Authors []
  end.

(** The per-line identities in the specification's words: for each line of
    the oracle's output that introduces an author, the rest of that line. *)
Definition identity_of_line (line : JsString) : option JsString :=
  if startsWith (lit "author ") line then Some (drop 7 line) else None.

Definition line_identities (output : JsString) : list JsString :=
  omap identity_of_line (split_lines output).

(** One line record of the line-porcelain format for a source line last
    touched by [author]: the commit header, the author and committer
    fields, the summary, the file name, and the TAB-prefixed content. *)
Definition porcelain_record (author content : JsString) : list JsString :=
  [ lit "49790775624c422f67057f7bb936f35df920e391 1 1 1";
    lit "author " ++ author;
    lit "author-mail <dev@example.org>";
    lit "author-time 1700000000";
    lit "author-tz +0000";
    lit "committer " ++ author;
    lit "committer-mail <dev@example.org>";
    lit "committer-time 1700000000";
    lit "committer-tz +0000";
    lit "summary author of the first version";
    lit "filename src/cli.ts";
    9%N :: content ].

(** The oracle's output for a file whose lines were written by [authors],
    in line order. *)
Definition porcelain (authors : list JsString) : JsString :=
  join_lines (flat_map (fun a => porcelain_record a (lit "const x = 1;")) authors ++ [[]]).

End Git.

(** ** processor.ts: the bounded-concurrency scheduler *)

Module Processor.

(** How the promise returned by [processor(item)] settles. Workers are
    [async] functions, as both workers of cli.ts are: a worker that raises
    gives a rejected promise (for a worker whose call itself can throw see
    [call] below). [Rejected message] is a rejection with a
    value [err] for which the template [`${err.message}`] gives [message]:
    the message of an [Error], or [undefined] for a string or a number.
    [RejectedNullish] is a rejection with [undefined] or [null]: reading
    [err.message] throws there. *)
Inductive settled : Type :=
  | Fulfilled (result : JsValue)
  | Rejected (message : JsString)
  | RejectedNullish.

(** The variables the closures of one call share, and what the call has
    done to the outside: [results], [_completed], [runningCount],
    [nextIndex]; the operations in flight, each with the [currentIndex] its
    handlers captured and the way its promise will settle; the value the
    returned promise was resolved with, if it was; the number of
    [onProgress] calls and the lines written by [console.error]. *)
Record pool : Type := Pool {
  results : list (option JsValue);
  _completed : nat;
  runningCount : Z;
  nextIndex : nat;
  pending : list (nat * settled);
  resolved : option (list JsValue);
  progress : nat;
  console : list JsString
}.

(** [results[i] = v]: writing past the end extends the array with holes. *)
Definition array_set (i : nat) (v : JsValue) (a : list (option JsValue))
  : list (option JsValue) :=
  if (i <? length a)%nat then <[i := Some v]> a
  else a ++ replicate (i - length a) None ++ [Some v].

(** [results.filter(Boolean)]: holes are skipped, falsy elements dropped. *)
Definition filter_Boolean (a : list (option JsValue)) : list JsValue :=
  omap (fun slot =>
          match slot with
          | Some v => if Boolean v then Some v else None
          | None => None
          end) a.

(** [resolve(v)]: a promise keeps the first value it is resolved with. *)
Definition resolve (v : list JsValue) (st : pool) : pool :=
  match resolved st with
  | Some _ => st
  | None =>
      Pool (results st) (_completed st) (runningCount st) (nextIndex st)
           (pending st) (Some v) (progress st) (console st)
  end.

Section Run.

Context {T : Type}.
Variable items : list T.
(** The limit when it is an integer, as a pool size is; for any other
    number see [processWithPool_number] below. *)
Variable concurrencyLimit : Z.
(** The worker: how the promise it returns for an item settles. *)
Variable processor : T -> settled.
(** Whether the optional [onProgress] callback was passed. *)
Variable onProgress : bool.

Definition processNext (st : pool) : pool :=
  if (length items <=? nextIndex st)%nat then
    if runningCount st =? 0 then resolve (filter_Boolean (results st)) st
    else st
  else
    let currentIndex := nextIndex st in
    match items !! currentIndex with
    | Some item =>
        Pool (results st) (_completed st) (runningCount st + 1)
             (S currentIndex)
             (pending st ++ [(currentIndex, processor item)])
             (resolved st) (progress st) (console st)
    | None => st   (* not reached: currentIndex < items.length here *)
    end.

(** The [then] handler. *)
Definition on_fulfilled (currentIndex : nat) (result : JsValue) (st : pool) : pool :=
  Pool (array_set currentIndex result (results st)) (S (_completed st))
       (runningCount st) (nextIndex st) (pending st) (resolved st)
       (if onProgress then S (progress st) else progress st) (console st).

(** The [catch] handler, for a rejection value that has a message. *)
Definition on_rejected (message : JsString) (st : pool) : pool :=
  Pool (results st) (_completed st) (runningCount st) (nextIndex st)
       (pending st) (resolved st) (progress st)
       (console st ++ [lit "Error processing item: " ++ message]).

(** The [finally] handler. *)
Definition on_finally (st : pool) : pool :=
  processNext
    (Pool (results st) (_completed st) (runningCount st - 1) (nextIndex st)
          (pending st) (resolved st) (progress st) (console st)).

(** The operation at position [p] of the in-flight list settles and its
    handlers run. The handlers of one operation touch [results] only at
    its own index, so running them in one step loses no interleaving. For
    a rejection with [undefined] or [null] the [catch] handler throws
    before it writes anything; the [finally] handler runs all the same,
    and the rejection of the chain is left to the runtime. *)
Definition settle_at (p : nat) (st : pool) : pool :=
  match pending st !! p with
  | None => st
  | Some (currentIndex, outcome) =>
      let st :=
        Pool (results st) (_completed st) (runningCount st) (nextIndex st)
             (delete p (pending st)) (resolved st) (progress st) (console st) in
      on_finally
        match outcome with
        | Fulfilled result => on_fulfilled currentIndex result st
        | Rejected message => on_rejected message st
        | RejectedNullish => st
        end
  end.

(** One completion: [pick] chooses which in-flight operation settles
    next. Nothing happens when none is in flight. *)
Definition settle_pick (st : pool) (pick : nat) : pool :=
  settle_at (pick mod length (pending st)) st.

(** The variables as they are initialised: [new Array(items.length)] is
    all holes. *)
Definition initial : pool :=
  Pool (replicate (length items) None) 0 0 0 [] None 0 [].

(** [Math.min(concurrencyLimit, items.length)], as the number of rounds of
    the loop [for (let i = 0; i < initialBatch; i++)]: none when it is
    zero or less. *)
Definition initialBatch : nat :=
  Z.to_nat (Z.min concurrencyLimit (Z.of_nat (length items))).

(** The state the executor leaves: [processNext] called [initialBatch]
    times, one after the other. *)
Definition start : pool :=
  Nat.iter initialBatch processNext initial.

(** A run of [processWithPool]: the completion order is the sequence of
    [picks]. The field [resolved] of the state reached is the value of the
    returned promise, [None] while it is still pending. *)
Definition processWithPool (picks : list nat) : pool :=
  fold_left settle_pick picks start.

(** What item by item is expected: the slot of the results array, and the
    element of the collection the promise resolves with. *)
Definition slot_of (o : settled) : option JsValue :=
  match o with
  | Fulfilled v => Some v
  | Rejected _ | RejectedNullish => None
  end.

Definition kept_of (o : settled) : option JsValue :=
  match o with
  | Fulfilled v => if Boolean v then Some v else None
  | Rejected _ | RejectedNullish => None
  end.

Definition expected_slots : list (option JsValue) :=
  map (fun item => slot_of (processor item)) items.

Definition expected_collection : list JsValue :=
  omap (fun item => kept_of (processor item)) items.

(** The item at index [k] has been dispatched and its operation has
    settled. *)
Definition settled_at (st : pool) (k : nat) : Prop :=
  (k < nextIndex st)%nat /\ k ∉ (pending st).*1.

(** What holds of the shared variables between two completions, whatever
    was dispatched and settled so far. *)
Record consistent (st : pool) : Prop := Consistent {
  results_length : length (results st) = length items;
  nextIndex_le : (nextIndex st <= length items)%nat;
  runningCount_pending : runningCount st = Z.of_nat (length (pending st));
  pending_NoDup : NoDup (pending st).*1;
  pending_dispatched :
    forall k o, (k, o) ∈ pending st ->
      (k < nextIndex st)%nat /\
      exists item, items !! k = Some item /\ o = processor item;
  results_slots :
    forall k item, items !! k = Some item ->
      results st !! k
      = Some (if bool_decide (settled_at st k)
              then slot_of (processor item) else None);
  rejections_logged :
    forall k item message, items !! k = Some item ->
      settled_at st k -> processor item = Rejected message ->
      (lit "Error processing item: " ++ message) ∈ console st
}.

(** What holds in addition once the executor has returned. *)
Record steady (st : pool) : Prop := Steady {
  steady_consistent : consistent st;
  pending_le : (length (pending st) <= initialBatch)%nat;
  pending_full :
    (nextIndex st < length items)%nat -> length (pending st) = initialBatch;
  resolved_when :
    resolved st
    = match pending st with
      | [] => if (0 <? initialBatch)%nat
              then Some (filter_Boolean (results st)) else None
      | _ :: _ => None
      end
}.

(** The worker that raises where [processor] fulfils with a falsy value,
    and does as [processor] does elsewhere. *)
Definition falsy_as_failure (item : T) : settled :=
  match processor item with
  | Fulfilled v => if Boolean v then Fulfilled v else Rejected (lit "falsy")
  | Rejected message => Rejected message
  | RejectedNullish => RejectedNullish
  end.

End Run.

(** [concurrencyLimit: number]: the type admits every number, integer or
    not. A finite number is taken as a rational, which every finite double
    is. *)
Inductive JsNumber : Type :=
  | Finite (q : Q)
  | PlusInfinity
  | MinusInfinity
  | NaN.



(** The number of rounds of [for (let i = 0; i < initialBatch; i++)] for
    [initialBatch = Math.min(concurrencyLimit, n)]: [i] goes up from 0
    while it is below [initialBatch], so the rounds are as many as the
    least integer that is not below it, none when that is negative. *)
Definition rounds (concurrencyLimit : JsNumber) (n : nat) : nat :=
  match concurrencyLimit with
  | Finite q => Z.to_nat (Qceiling (Qmin q (inject_Z (Z.of_nat n))))
  | PlusInfinity => n
  | MinusInfinity | NaN => 0
  end.

Section AnyLimit.

Context {T : Type}.
Variable items : list T.
Variable concurrencyLimit : JsNumber.
Variable processor : T -> settled.
Variable onProgress : bool.



End AnyLimit.

(** A call of a worker that is not an [async] function can also throw
    before it returns a promise. *)
Inductive call : Type :=
  | Returns (promise : settled)
  | Throws (message : JsString).

(** An exception that reaches the runtime: what a call of the worker threw
    inside a [finally] handler, or the [TypeError] of the [catch] handler
    that read the message of [undefined] or [null]. It rejects the promise
    of the chain, which no handler takes. *)
Inductive unhandled : Type :=
  | Thrown (message : JsString)
  | MessageOfNullish.

(** The shared variables together with the two ways an exception leaves
    the pool: [rejected] is the exception that left the executor, with
    which [new Promise] rejects the returned promise; [reported] are the
    rejections left to the runtime, in the order they happened. *)
Record attempt : Type := Attempt {
  shared : pool;
  rejected : option JsString;
  reported : list unhandled
}.

Section Calls.

Context {T : Type}.
Variable items : list T.
Variable concurrencyLimit : Z.
Variable worker : T -> call.
Variable onProgress : bool.

(** [processNext] with a worker whose call can throw: the exception, if
    any, leaves [processNext] after [nextIndex++] and [runningCount++].
    [resolve] does nothing to a promise that was rejected. *)
Definition processNext_call (wasRejected : bool) (st : pool)
  : pool * option JsString :=
  if (length items <=? nextIndex st)%nat then
    (if (runningCount st =? 0) && negb wasRejected
     then resolve (filter_Boolean (results st)) st else st, None)
  else
    let currentIndex := nextIndex st in
    match items !! currentIndex with
    | Some item =>
        match worker item with
        | Returns promise =>
            (Pool (results st) (_completed st) (runningCount st + 1)
                  (S currentIndex) (pending st ++ [(currentIndex, promise)])
                  (resolved st) (progress st) (console st), None)
        | Throws message =>
            (Pool (results st) (_completed st) (runningCount st + 1)
                  (S currentIndex) (pending st)
                  (resolved st) (progress st) (console st), Some message)
        end
    | None => (st, None)
    end.

(** The loop of the executor: an exception ends it. *)
Fixpoint executor (rounds : nat) (st : pool) : pool * option JsString :=
  match rounds with
  | O => (st, None)
  | S rounds' =>
      match processNext_call false st with
      | (st', Some message) => (st', Some message)
      | (st', None) => executor rounds' st'
      end
  end.

Definition start_calls : attempt :=
  let (st, exception) := executor (initialBatch items concurrencyLimit) (initial items) in
  Attempt st exception [].

(** One completion: the handlers run as in [settle_at]; an exception of
    [processNext] in the [finally] handler, or else the one of the [catch]
    handler, is left to the runtime. *)
Definition settle_call (a : attempt) (pick : nat) : attempt :=
  let st := shared a in
  let p := (pick mod length (pending st))%nat in
  match pending st !! p with
  | None => a
  | Some (currentIndex, outcome) =>
      let st :=
        Pool (results st) (_completed st) (runningCount st) (nextIndex st)
             (delete p (pending st)) (resolved st) (progress st) (console st) in
      let st :=
        match outcome with
        | Fulfilled result => on_fulfilled onProgress currentIndex result st
        | Rejected message => on_rejected message st
        | RejectedNullish => st
        end in
      let st :=
        Pool (results st) (_completed st) (runningCount st - 1) (nextIndex st)
             (pending st) (resolved st) (progress st) (console st) in
      let (st', exception) :=
        processNext_call (bool_decide (rejected a <> None)) st in
      Attempt st' (rejected a)
        (reported a
         ++ match exception, outcome with
            | Some message, _ => [Thrown message]
            | None, RejectedNullish => [MessageOfNullish]
            | None, _ => []
            end)
  end.

(** A run of [processWithPool] with a worker whose call can throw. *)
Definition processWithPool_calls (picks : list nat) : attempt :=
  fold_left settle_call picks start_calls.

End Calls.

(** Workers of the examples: a file name is mapped to a result. *)
Definition sample_files : list JsString :=
  [lit "a.txt"; lit "b.txt"; lit "c.txt"].

(** Every file gives an object, as the workers of cli.ts do. *)
Definition sample_worker (file : JsString) : settled :=
  Fulfilled (JObj [(lit "file", JStr file); (lit "count", JNum 1)]).

(** The worker raises on [a.txt]. *)
Definition failing_worker (file : JsString) : settled :=
  if strict_eq file (lit "a.txt") then Rejected (lit "spawn failed")
  else sample_worker file.


(** The worker raises on [a.txt] and gives the number of matching lines
    for the other files, zero for [b.txt]. *)
Definition failing_counter (file : JsString) : settled :=
  if strict_eq file (lit "a.txt") then Rejected (lit "spawn failed")
  else if strict_eq file (lit "b.txt") then Fulfilled (JNum 0)
       else Fulfilled (JNum 3).

(** The worker gives the number of matching lines, zero for [b.txt]. *)
Definition counting_worker (file : JsString) : settled :=
  if strict_eq file (lit "b.txt") then Fulfilled (JNum 0)
  else Fulfilled (JNum 3).

End Processor.

(** ** output.ts: the aggregation and the sorted views *)

Module Output.

(** A [Record<string, number>] used as a map: the own properties in the
    order they were created. *)
Definition JsRecord : Type := list (JsString * Z).

(** Both records are object literals, so they inherit from
    [Object.prototype]: its accessor [__proto__] and its functions. *)
Definition PROTO : JsString := lit "__proto__".

Definition prototype_functions : list JsString :=
  [ lit "constructor"; lit "hasOwnProperty"; lit "isPrototypeOf";
    lit "propertyIsEnumerable"; lit "toLocaleString"; lit "toString";
    lit "valueOf"; lit "__defineGetter__"; lit "__defineSetter__";
    lit "__lookupGetter__"; lit "__lookupSetter__" ].

Definition inherits_function (k : JsString) : bool :=
  existsb (strict_eq k) prototype_functions.

(** The names under which a read of a fresh object literal finds
    something. *)
Definition inherited (k : JsString) : bool :=
  strict_eq k PROTO || inherits_function k.

Section Properties.

Context {V : Type}.

(** The own property [k] of [o], [None] when there is none. *)
Fixpoint get (k : JsString) (o : list (JsString * V)) : option V :=
  match o with
  | [] => None
  | (k', v') :: r => if strict_eq k' k then Some v' else get k r
  end.

(** The own property [k] is given the value [v]: an existing property
    keeps its place, a new one is added last. *)
Fixpoint store (k : JsString) (v : V) (o : list (JsString * V))
  : list (JsString * V) :=
  match o with
  | [] => [(k, v)]
  | (k', v') :: r => if strict_eq k' k then (k', v) :: r else (k', v') :: store k v r
  end.

(** [o[k] = v] for a number or a string [v]. The inherited functions are
    writable, so the assignment gives [o] an own property; for [__proto__]
    it calls the setter of [Object.prototype], which ignores a value that
    is neither an object nor [null]: nothing is stored. *)
Definition set (k : JsString) (v : V) (o : list (JsString * V))
  : list (JsString * V) :=
  if strict_eq k PROTO then o else store k v o.

End Properties.

(** What a property of [authorCounts] holds: a number or, under an
    inherited name, a string. [Text ones] is the text of the inherited
    value (the source text of the function, which depends on the engine,
    or [[object Object]] for [__proto__]) followed by [ones] digits [1]. *)
Inductive held : Type :=
  | Count (n : Z)
  | Text (ones : nat).

Definition JsObject : Type := list (JsString * held).

(** [(authorCounts[author] || 0) + 1]. The read finds the own property,
    or else what the object inherits under the name, or else [undefined].
    A number [n] gives [n + 1] (also for 0); a string, never empty here,
    is truthy and [+ 1] appends the digit; an inherited function or
    [Object.prototype] itself is truthy and [+ 1] turns it into its text
    followed by the digit; [undefined] gives [0 + 1]. *)
Definition next_value (author : JsString) (own : option held) : held :=
  match own with
  | Some (Count n) => Count (n + 1)
  | Some (Text ones) => Text (S ones)
  | None => if inherited author then Text 1 else Count 1
  end.

(** The body of the loop over [allAuthors]. *)
Definition count_author (authorCounts : JsObject) (author : JsString) : JsObject :=
  if truthy_string (trim author)
  then set author (next_value author (get author authorCounts)) authorCounts
  else authorCounts.

(** The object [authorCounts] after the loop. *)
Definition authorCounts_object (allAuthors : list JsString) : JsObject :=
  fold_left count_author allAuthors [].

(** The properties of an object that hold a number. *)
Definition counts (o : JsObject) : JsRecord :=
  omap (fun e => match snd e with
                 | Count n => Some (fst e, n)
                 | Text _ => None
                 end) o.

(** [authorCounts] as the [Record<string, number>] it is declared to be:
    its properties that hold a number. These are all its properties
    unless an author is named after a function of [Object.prototype]. *)
Definition authorCounts (allAuthors : list JsString) : JsRecord :=
  counts (authorCounts_object allAuthors).

(** An object that holds numbers under the names that are not inherited
    and strings under the inherited ones, as the loop keeps it. *)
Definition is_count (h : held) : bool :=
  match h with Count _ => true | Text _ => false end.

Definition kinded (o : JsObject) : Prop :=
  forall k h, (k, h) ∈ o -> is_count h = negb (inherited k).

(** What the loop body does to the properties that hold a number. *)
Definition count_number (numbers : JsRecord) (author : JsString) : JsRecord :=
  if truthy_string (trim author) && negb (inherited author)
  then store author (default 0 (get author numbers) + 1) numbers
  else numbers.

(** A property key is an array index when it is the canonical decimal
    form of an integer from 0 to 2^32 - 2. *)
Fixpoint decimal_value (acc : N) (s : JsString) : option N :=
  match s with
  | [] => Some acc
  | c :: r =>
      if ((48 <=? c) && (c <=? 57))%N
      then decimal_value (acc * 10 + (c - 48))%N r
      else None
  end.

Definition array_index (k : JsString) : option N :=
  match k with
  | [] => None
  | c :: r =>
      if (c =? 48)%N then match r with [] => Some 0%N | _ => None end
      else match decimal_value 0%N k with
           | Some n => if (n <=? 4294967294)%N then Some n else None
           | None => None
           end
  end.

Fixpoint insert_index (i : N) (e : JsString * Z) (l : list (N * (JsString * Z)))
  : list (N * (JsString * Z)) :=
  match l with
  | [] => [(i, e)]
  | (j, e') :: r =>
      if (i <=? j)%N then (i, e) :: l else (j, e') :: insert_index i e r
  end.

Fixpoint index_entries (o : JsRecord) : list (N * (JsString * Z)) :=
  match o with
  | [] => []
  | e :: r =>
      match array_index (fst e) with
      | Some i => insert_index i e (index_entries r)
      | None => index_entries r
      end
  end.

Definition is_array_index (k : JsString) : bool :=
  match array_index k with Some _ => true | None => false end.

(** [Object.entries(o)]: array-index keys in ascending numeric order, then
    the other keys in creation order. *)
Definition Object_entries (o : JsRecord) : list (JsString * Z) :=
  map snd (index_entries o)
  ++ List.filter (fun e => negb (is_array_index (fst e))) o.

(** [Array.prototype.sort(compare)]: a stable sort, [x] stays before [y]
    unless [compare(x, y) > 0]. *)
Section Sort.
Context {A : Type}.
Variable compare : A -> A -> Z.

Fixpoint sort_insert (x : A) (l : list A) : list A :=
  match l with
  | [] => [x]
  | y :: r => if compare x y <=? 0 then x :: l else y :: sort_insert x r
  end.

Fixpoint Array_sort (l : list A) : list A :=
  match l with
  | [] => []
  | x :: r => sort_insert x (Array_sort r)
  end.
End Sort.

(** [([, a], [, b]) => b - a] *)
Definition by_count (x y : JsString * Z) : Z := snd y - snd x.

(** [sortedFiles] of [displayUserContributions]. *)
Definition sortedFiles (userFileContributions : JsRecord) : list (JsString * Z) :=
  Array_sort by_count (Object_entries userFileContributions).

(** [sortedAuthors] of [displayGeneralContributions], for the properties
    that hold a number: with a string among the values [b - a] is [NaN]
    and the order is left to the engine. *)
Definition sortedAuthors (allAuthors : list JsString) : list (JsString * Z) :=
  Array_sort by_count (Object_entries (authorCounts allAuthors)).

(** What [displayGeneralContributions] puts on the screen when the
    properties of [authorCounts] hold numbers: the first 20 rows of the
    table and the three numbers of the summary. *)
Record general_view : Type := GeneralView {
  displayAuthors : list (JsString * Z);
  totalLines : nat;
  uniqueAuthors : nat;
  filesProcessed : nat
}.

Definition displayGeneralContributions (allAuthors : list JsString) (filesCount : nat)
  : general_view :=
  let sorted := sortedAuthors allAuthors in
  GeneralView (take 20 sorted) (length allAuthors) (length sorted) filesCount.

(** What [displayUserContributions] puts on the screen: the first 20 rows
    of the table and the three numbers of the summary. *)
Record user_view : Type := UserView {
  displayFiles : list (JsString * Z);
  totalUserLines : Z;
  filesContributed : nat;
  userFilesProcessed : nat
}.

Definition displayUserContributions (userFileContributions : JsRecord)
    (filesCount : nat) : user_view :=
  let sorted := sortedFiles userFileContributions in
  UserView (take 20 sorted)
    (fold_left (fun sum e => sum + snd e) (Object_entries userFileContributions) 0)
    (length sorted) filesCount.


End Output.

(** ** cli.ts *)

Module Cli.


(** General mode: each worker does [allAuthors.push(...authors)] when its
    file's record arrives, so [allAuthors] is the records concatenated in
    the order they were folded in; the tally is built from it. *)
Definition general_tally (records : list (list JsString)) : Output.JsRecord :=
  Output.authorCounts (concat records).

(** The object behind the tally. *)
Definition general_tally_object (records : list (list JsString)) : Output.JsObject :=
  Output.authorCounts_object (concat records).

End Cli.

(** ** remote.ts: remote repositories *)

Module Remote.

(** [remotePatterns.some((pattern) => pattern.test(input))] for the five
    expressions [/^https?:\/\//], [/^git@/], [/^ssh:\/\//], [/^git:\/\//]
    and [/\.git$/]. *)
Definition remotePatterns : list (JsString -> bool) :=
  [ (fun s => startsWith (lit "http://") s || startsWith (lit "https://") s);
    startsWith (lit "git@");
    startsWith (lit "ssh://");
    startsWith (lit "git://");
    endsWith (lit ".git") ].

Definition isRemoteUrl (input : JsString) : bool :=
  existsb (fun pattern => pattern input) remotePatterns.

(** [s.split("/")] *)
Fixpoint split_on (sep : N) (s : JsString) : list JsString :=
  match s with
  | [] => [[]]
  | c :: r =>
      if (c =? sep)%N then [] :: split_on sep r
      else match split_on sep r with
           | l :: ls => (c :: l) :: ls
           | [] => [[c]]
           end
  end.

(** [s.replace(/\.git$/, "")] *)
Definition strip_git_suffix (s : JsString) : JsString :=
  if endsWith (lit ".git") s then take (length s - 4) s else s.

(** The class [[a-zA-Z0-9-_]]. *)
Definition name_char (c : N) : bool :=
  (((97 <=? c) && (c <=? 122)) || ((65 <=? c) && (c <=? 90))
   || ((48 <=? c) && (c <=? 57)) || (c =? 45) || (c =? 95))%N.

(** [s.replace(/[^a-zA-Z0-9-_]/g, "_")]: without the [u] flag the
    expression works on single code units. *)
Definition sanitize (s : JsString) : JsString :=
  map (fun c => if name_char c then c else 95%N) s.

(** [repoName] of [generateTempDir]: [pop()] gives the last piece, and an
    empty name is replaced by ["repo"]. *)
Definition repoName (repoUrl : JsString) : JsString :=
  match last (split_on SLASH repoUrl) with
  | Some piece =>
      let name := sanitize (strip_git_suffix piece) in
      if truthy_string name then name else lit "repo"
  | None => lit "repo"
  end.

(** The decimal digits of a non-negative integer, as a template literal
    prints it. *)
Fixpoint uint_units (d : Decimal.uint) : JsString :=
  match d with
  | Decimal.Nil => []
  | Decimal.D0 d => 48%N :: uint_units d
  | Decimal.D1 d => 49%N :: uint_units d
  | Decimal.D2 d => 50%N :: uint_units d
  | Decimal.D3 d => 51%N :: uint_units d
  | Decimal.D4 d => 52%N :: uint_units d
  | Decimal.D5 d => 53%N :: uint_units d
  | Decimal.D6 d => 54%N :: uint_units d
  | Decimal.D7 d => 55%N :: uint_units d
  | Decimal.D8 d => 56%N :: uint_units d
  | Decimal.D9 d => 57%N :: uint_units d
  end.

(** An integer in a template literal: a time value is an integer of
    magnitude at most 8.64e15, which prints as its decimal digits, with a
    sign when it is negative. *)
Definition number_toString (n : Z) : JsString :=
  if n <? 0 then 45%N :: uint_units (N.to_uint (Z.to_N (- n)))
  else uint_units (N.to_uint (Z.to_N n)).

(** The last component of the path [generateTempDir] returns,
    [`gala_${repoName}_${timestamp}`], for the value [timestamp] of
    [Date.now()]; the function joins it to [tmpdir()]. *)
Definition tempDirName (repoUrl : JsString) (timestamp : Z) : JsString :=
  lit "gala_" ++ repoName repoUrl ++ lit "_" ++ number_toString timestamp.

(** [generateTempDir], with [join(tmpdir(), _)] of node:path and the clock
    taken from outside. *)
Definition generateTempDir (join_tmpdir : JsString -> JsString) (timestamp : Z)
    (repoUrl : JsString) : JsString :=
  join_tmpdir (tempDirName repoUrl timestamp).

End Remote.

(** ** files.ts: the built-in patterns and the discovery of files *)

Module Discovery.

Definition excludePatterns : list JsString :=
  [ lit "**/*-lock.*";
    lit "**/*.lock";
    lit "**/*.gif";
    lit "**/*.png";
    lit "**/*.jpg";
    lit "**/*.jpeg";
    lit "**/*.webp";
    lit "**/*.ico";
    lit "**/*.tiff";
    lit "**/*.tif";
    lit "**/*.bmp";
    lit "**/*.svg";
    lit "**/*.woff";
    lit "**/*.woff2";
    lit "**/*.ttf";
    lit "**/*.otf";
    lit "**/*.eot";
    lit "**/*.mp4";
    lit "**/*.avi";
    lit "**/*.mov";
    lit "**/*.wmv";
    lit "**/*.flv";
    lit "**/*.webm";
    lit "**/*.mp3";
    lit "**/*.wav";
    lit "**/*.flac";
    lit "**/*.aac";
    lit "**/*.ogg";
    lit "**/*.zip";
    lit "**/*.tar";
    lit "**/*.tgz";
    lit "**/*.rar";
    lit "**/*.7z";
    lit "**/*.gz";
    lit "**/*.bz2";
    lit "**/*.xz";
    lit "**/*.exe";
    lit "**/*.dll";
    lit "**/*.so";
    lit "**/*.dylib";
    lit "**/*.bin";
    lit "**/*.deb";
    lit "**/*.rpm";
    lit "**/*.dmg";
    lit "**/*.pkg";
    lit "**/*.msi";
    lit "**/*.db";
    lit "**/*.sqlite";
    lit "**/*.sqlite3";
    lit "**/*.mdb";
    lit "**/*.pdf";
    lit "**/*.doc";
    lit "**/*.docx";
    lit "**/*.xls";
    lit "**/*.xlsx";
    lit "**/*.ppt";
    lit "**/*.pptx";
    lit "**/*.o";
    lit "**/*.obj";
    lit "**/*.class";
    lit "**/*.pyc";
    lit "**/*.pyo";
    lit "**/*.pyd";
    lit "**/*.a";
    lit "**/*.lib";
    lit "**/*.jar";
    lit "**/*.war";
    lit "**/*.ear";
    lit "**/*.min.js";
    lit "**/*.min.css";
    lit "**/*.min.html";
    lit "**/.DS_Store";
    lit "**/Thumbs.db";
    lit "**/desktop.ini";
    lit "**/.directory";
    lit "**/.vscode/**";
    lit "**/.zed/**";
    lit "**/.idea/**";
    lit "**/.vs/**";
    lit "**/nbproject/**";
    lit "**/*.swp";
    lit "**/*.swo";
    lit "**/*~";
    lit "**/node_modules/**";
    lit "**/vendor/**";
    lit "**/bower_components/**";
    lit "**/.npm/**";
    lit "**/.yarn/**";
    lit "**/.cache/**";
    lit "**/.tmp/**";
    lit "**/.temp/**";
    lit "**/__pycache__/**";
    lit "**/.pytest_cache/**";
    lit "**/coverage/**";
    lit "**/.nyc_output/**";
    lit "**/.git/**";
    lit "**/.hg/**";
    lit "**/.svn/**";
    lit "**/*.log";
    lit "**/*.logs";
    lit "**/logs/**";
    lit "**/*.pem";
    lit "**/*.key";
    lit "**/*.p12";
    lit "**/*.pfx";
    lit "**/*.crt";
    lit "**/*.cer";
    lit "**/*.bak";
    lit "**/*.backup";
    lit "**/*.orig" ].

(** A text with every line feed preceded by a carriage return, as an
    ignore file saved with Windows line ends. *)
Definition to_crlf (content : JsString) : JsString :=
  flat_map (fun c => if (c =? LF)%N then [13%N; LF] else [c]) content.

Section FindFiles.

(** [new Glob(pattern).match(file)] of Bun. *)
Variable glob_match : JsString -> JsString -> bool.
(** The entries [new Glob("**/*").scan(targetDir)] yields, relative to
    [targetDir], in the order it yields them. *)
Variable scan : list JsString.
(** [join(targetDir, file)] of node:path. *)
Variable join_target : JsString -> JsString.

(** What [existsSync(fullPath) && statSync(fullPath).isFile()] meets. *)
Inductive entry_kind : Type :=
  | Vanished          (* [existsSync] is false *)
  | StatThrows        (* [statSync] throws; the empty [catch] takes it *)
  | RegularFile
  | OtherKind.        (* a directory, a device, ... *)

Variable stat : JsString -> entry_kind.

(** [allExcludePatterns.some(...)] *)
Definition shouldExclude (allExcludePatterns : list JsString) (file : JsString) : bool :=
  existsb (fun pattern => glob_match pattern file) allExcludePatterns.

(** The body of the [for await] loop: [files] is the array being built. *)
Definition visit (allExcludePatterns : list JsString) (files : list JsString)
    (file : JsString) : list JsString :=
  if negb (shouldExclude allExcludePatterns file) then
    let fullPath := join_target file in
    match stat fullPath with
    | RegularFile => files ++ [fullPath]
    | Vanished | StatThrows | OtherKind => files
    end
  else files.

(** Whether an entry of the scan ends up in the result: no pattern
    matches it and it is a regular file. *)
Definition is_regular (k : entry_kind) : bool :=
  match k with
  | RegularFile => true
  | Vanished | StatThrows | OtherKind => false
  end.

Definition kept (allExcludePatterns : list JsString) (file : JsString) : bool :=
  negb (shouldExclude allExcludePatterns file)
  && is_regular (stat (join_target file)).

Definition findFiles (gitignore : Files.gitignore_file) : list JsString :=
  let gitignorePatterns := Files.parseGitignore gitignore in
  let allExcludePatterns := excludePatterns ++ gitignorePatterns in
  fold_left (visit allExcludePatterns) scan [].

End FindFiles.

End Discovery.

(** ** cli.ts: the command line *)

Module Args.

(** The fields of [RemoteOptions] that [parseArgs] sets. *)
Record RemoteOptions : Type := Options {
  branch : option JsString;
  tag : option JsString
}.

(** [target], [user] and [options] while the loop runs; [None] is
    [undefined]. *)
Record parsing : Type := Parsing {
  target : option JsString;
  user : option JsString;
  options : RemoteOptions
}.

(** [!user] *)
Definition falsy (v : option JsString) : bool :=
  match v with
  | Some s => negb (truthy_string s)
  | None => true
  end.

(** The last [else if] of the loop body, for an argument that was not
    taken as [--branch] or [--tag] with a value. *)
Definition positional (arg : JsString) (st : parsing) : parsing :=
  if negb (startsWith (lit "-") arg) then
    match target st with
    | Some t =>
        if strict_eq t (lit ".") then Parsing (Some arg) (user st) (options st)
        else if falsy (user st) then Parsing (target st) (Some arg) (options st)
        else st
    | None =>
        if falsy (user st) then Parsing (target st) (Some arg) (options st)
        else st
    end
  else st.

(** The [for] loop, on the arguments from index [i] on: [i + 1 <
    args.length] holds when an argument follows, and [i++] then skips it. *)
Fixpoint parse_loop (args : list JsString) (st : parsing) : parsing :=
  match args with
  | [] => st
  | arg :: rest =>
      match rest with
      | value :: rest' =>
          if strict_eq arg (lit "--branch") then
            parse_loop rest'
              (Parsing (target st) (user st) (Options (Some value) (tag (options st))))
          else if strict_eq arg (lit "--tag") then
            parse_loop rest'
              (Parsing (target st) (user st) (Options (branch (options st)) (Some value)))
          else parse_loop rest (positional arg st)
      | [] => parse_loop rest (positional arg st)
      end
  end.

(** What [parseArgs] returns. *)
Record parsed : Type := Parsed {
  parsed_target : JsString;
  parsed_user : option JsString;
  parsed_options : RemoteOptions
}.

(** [parseArgs], on [process.argv.slice(2)]. *)
Definition parseArgs (args : list JsString) : parsed :=
  let st := parse_loop args (Parsing None None (Options None None)) in
  let target := if falsy (target st) then lit "." else default [] (target st) in
  Parsed target (user st) (options st).

End Args.

(** ** cli.ts: the two modes of processing *)

Module Pipeline.

Section Traced.

Context {T : Type}.
Variable items : list T.
Variable concurrencyLimit : Z.
Variable processor : T -> Processor.settled.
Variable onProgress : bool.

(** A run of the scheduler that also records, for each completion, the
    index of the item whose operation settled. *)
Definition settle_traced (s : Processor.pool * list nat) (pick : nat)
  : Processor.pool * list nat :=
  let st := fst s in
  match Processor.pending st !! (pick mod length (Processor.pending st))%nat with
  | Some (k, _) =>
      (Processor.settle_pick items processor onProgress st pick, snd s ++ [k])
  | None => s
  end.

Definition run_traced (picks : list nat) : Processor.pool * list nat :=
  fold_left settle_traced picks
    (Processor.start items concurrencyLimit processor, []).

(** The console line the [catch] handler writes for item [k], if its
    worker raises. *)
Definition error_line (k : nat) : option JsString :=
  match items !! k with
  | Some item =>
      match processor item with
      | Processor.Rejected message => Some (lit "Error processing item: " ++ message)
      | Processor.Fulfilled _ | Processor.RejectedNullish => None
      end
  | None => None
  end.


(** Whether the worker of item [k] fulfils. *)
Definition fulfils (k : nat) : bool :=
  match items !! k with
  | Some item =>
      match processor item with
      | Processor.Fulfilled _ => true
      | Processor.Rejected _ | Processor.RejectedNullish => false
      end
  | None => false
  end.

End Traced.

(** [l.reduce((sum, x) => sum + h(x), 0)] *)
Definition sum_by {A : Type} (h : A -> Z) (l : list A) : Z :=
  fold_left (fun sum x => sum + h x) l 0.

Section Modes.

(** What [git blame] does for each file. *)
Variable blame : JsString -> Git.blame_run.
(** [relative(targetDir, file)] of node:path. *)
Variable relative : JsString -> JsString.

(** [result as string[]] *)
Definition authors_of (file : JsString) : list JsString :=
  match Git.getAuthorsFromFile (blame file) None with
  | Git.Authors authors => authors
  | Git.Count _ => []          (* not reached without a filter *)
  end.

(** The worker of the general mode: its promise is fulfilled with the
    array of the file's authors, after [allAuthors.push(...authors)]. *)
Definition general_processor (file : JsString) : Processor.settled :=
  Processor.Fulfilled (JArr (map JStr (authors_of file))).

(** [allAuthors] after the run: each worker pushed its authors when its
    operation completed. *)
Definition allAuthors (files : list JsString) (trace : list nat) : list JsString :=
  flat_map (fun k => match files !! k with
                     | Some file => authors_of file
                     | None => []
                     end) trace.

(** [result as number], in the mode chosen by a truthy [targetUser]. *)
Definition count_of (targetUser : JsString) (file : JsString) : Z :=
  match Git.getAuthorsFromFile (blame file) (Some targetUser) with
  | Git.Count n => Z.of_nat n
  | Git.Authors _ => 0         (* not reached with a truthy filter *)
  end.

(** The worker of the single-author mode: fulfilled with [{ file, count }],
    after the count was stored when it is positive. *)
Definition user_processor (targetUser : JsString) (file : JsString)
  : Processor.settled :=
  Processor.Fulfilled
    (JObj [(lit "file", JStr file); (lit "count", JNum (count_of targetUser file))]).

Definition store_count (targetUser : JsString) (files : list JsString)
    (userFileContributions : Output.JsRecord) (k : nat) : Output.JsRecord :=
  match files !! k with
  | Some file =>
      let count := count_of targetUser file in
      if 0 <? count
      then Output.set (relative file) count userFileContributions
      else userFileContributions
  | None => userFileContributions
  end.

(** [userFileContributions] after the run. *)
Definition userFileContributions (targetUser : JsString) (files : list JsString)
    (trace : list nat) : Output.JsRecord :=
  fold_left (store_count targetUser files) trace [].

End Modes.

(** The oracle of the examples: [a.txt] has the lines of X, X, Y, [b.txt]
    those of Y, Y, and for any other file the oracle fails. *)
Definition sample_blame (file : JsString) : Git.blame_run :=
  if strict_eq file (lit "a.txt")
  then Git.Exited (Git.porcelain [lit "X"; lit "X"; lit "Y"]) 0
  else if strict_eq file (lit "b.txt")
       then Git.Exited (Git.porcelain [lit "Y"; lit "Y"]) 0
       else Git.Throws.

End Pipeline.

(** ** The claims of the specification that the code does not meet, as
    the specification states them *)

Module Stated.

(** Scheduler order preservation: whatever the items, the worker and the
    completion order, once the promise is resolved its value has one
    result per item, the i-th being the i-th item's. *)
Definition order_preservation : Prop :=
  forall (items : list JsString) (limit : Z)
         (processor : JsString -> Processor.settled)
         (picks : list nat) (rs : list JsValue),
    Processor.resolved (Processor.processWithPool items limit processor true picks)
      = Some rs ->
    length rs = length items /\
    forall i item v, items !! i = Some item -> rs !! i = Some v ->
                     processor item = Processor.Fulfilled v.

(** Scheduler fault isolation: when the worker of item [k] raises, the
    final collection holds the results of all the other items whose
    worker fulfilled, each with its value, in the order of the items. *)
Definition fault_isolation : Prop :=
  forall (items : list JsString) (limit : Z)
         (processor : JsString -> Processor.settled) (picks : list nat)
         (k : nat) (item_k : JsString) (message : JsString),
    1 <= limit -> (length items <= length picks)%nat ->
    items !! k = Some item_k ->
    processor item_k = Processor.Rejected message ->
    Processor.resolved (Processor.processWithPool items limit processor true picks)
    = Some (omap (fun item => Processor.slot_of (processor item)) items).



End Stated.

(** * Properties *)

(** ** Strings *)

Section StringFacts.

Lemma strict_eq_spec (a b : JsString) : strict_eq a b = true <-> a = b.
Proof.
  revert b; induction a as [|x a IH]; intros [|y b]; simpl; try (split; congruence).
  rewrite andb_true_iff, N.eqb_eq, IH. split.
  - intros [-> ->]; reflexivity.
  - intros [= -> ->]; auto.
Qed.

Lemma strict_eq_refl (a : JsString) : strict_eq a a = true.
Proof. apply strict_eq_spec; reflexivity. Qed.

Lemma strict_eq_neq (a b : JsString) : a <> b -> strict_eq a b = false.
Proof.
  intros Hne. destruct (strict_eq a b) eqn:E; [|reflexivity].
  apply strict_eq_spec in E. contradiction.
Qed.

Lemma split_lines_nonempty (s : JsString) : split_lines s <> [].
Proof.
  induction s as [|c r IH]; simpl; [discriminate|].
  destruct (c =? LF)%N; [discriminate|].
  destruct (split_lines r); [contradiction|discriminate].
Qed.

Lemma split_lines_app (a b : JsString) :
  split_lines (a ++ LF :: b) = split_lines a ++ split_lines b.
Proof.
  induction a as [|c a IH]; simpl.
  - reflexivity.
  - rewrite IH. destruct (c =? LF)%N; [reflexivity|].
    pose proof (split_lines_nonempty a) as Hne.
    destruct (split_lines a); [contradiction|reflexivity].
Qed.

Lemma split_lines_single (s : JsString) :
  includes LF s = false -> split_lines s = [s].
Proof.
  unfold includes. induction s as [|c r IH]; cbn [existsb split_lines]; [reflexivity|].
  intros H. apply orb_false_iff in H as [Hc Hr].
  rewrite N.eqb_sym in Hc. rewrite Hc, (IH Hr). reflexivity.
Qed.

Lemma startsWith_one (c : N) (s : JsString) :
  startsWith [c] s = match s with x :: _ => (c =? x)%N | [] => false end.
Proof. destruct s; simpl; [reflexivity|]. apply andb_true_r. Qed.

Lemma endsWith_one (c : N) (s : JsString) :
  endsWith [c] s = match last s with Some x => (c =? x)%N | None => false end.
Proof.
  unfold endsWith. change (rev [c]) with [c]. rewrite startsWith_one.
  destruct s as [|y s] using rev_ind; [reflexivity|].
  rewrite rev_unit, last_snoc. reflexivity.
Qed.

Lemma includes_app (c : N) (a b : JsString) :
  includes c (a ++ b) = includes c a || includes c b.
Proof. unfold includes. apply existsb_app. Qed.

Lemma trimStart_nil_iff (s : JsString) :
  trimStart s = [] <-> forallb is_white_space s = true.
Proof.
  induction s as [|c r IH]; simpl; [tauto|].
  destruct (is_white_space c); simpl; [exact IH|]. split; discriminate.
Qed.

Lemma trim_nil_iff (s : JsString) :
  trim s = [] <-> forallb is_white_space s = true.
Proof.
  unfold trim, trimEnd. rewrite <- trimStart_nil_iff. split.
  - intros H. apply (f_equal (@rev N)) in H. rewrite rev_involutive in H.
    simpl in H. apply trimStart_nil_iff in H.
    rewrite forallb_forall in H.
    induction s as [|c r IH]; simpl; [reflexivity|].
    destruct (is_white_space c) eqn:Ec.
    + apply IH. simpl in H. rewrite Ec in H. exact H.
    + simpl in H. rewrite Ec in H. specialize (H c).
      rewrite H in Ec; [discriminate|]. apply in_rev. rewrite rev_involutive.
      left; reflexivity.
  - intros ->. reflexivity.
Qed.

End StringFacts.

(** One step of [omap] on a non-empty list. *)
Ltac omap_step :=
  change (omap ?f (?x :: ?r))
    with (match f x with Some y => y :: omap f r | None => omap f r end).

(** ** The ignore-rule translation *)

Section FilesFacts.
Import Files.

Lemma has_trailing_slash_endsWith (s : JsString) :
  endsWith (lit "/") s = has_trailing_slash s.
Proof.
  change (lit "/") with [SLASH]. rewrite endsWith_one. unfold has_trailing_slash.
  destruct (last s); [apply N.eqb_sym|reflexivity].
Qed.

Lemma strip_leading_slash_startsWith (p : JsString) :
  (if startsWith (lit "/") p then slice_1 p else p) = strip_leading_slash p.
Proof.
  change (lit "/") with [SLASH]. rewrite startsWith_one.
  destruct p as [|c p]; cbn [slice_1 tail strip_leading_slash]; [reflexivity|].
  rewrite (N.eqb_sym SLASH c). reflexivity.
Qed.

Lemma parse_line_translate (acc : list JsString) (line : JsString) :
  parse_line acc line = acc ++ option_list (translate_rule (trim line)).
Proof.
  unfold parse_line. generalize (trim line) as rule. intros rule.
  rewrite strip_leading_slash_startsWith.
  destruct rule as [|c r].
  { simpl. rewrite app_nil_r. reflexivity. }
  change (translate_rule (c :: r)) with
    (if (c =? 35)%N then None else if (c =? 33)%N then None else
       Some (strip_leading_slash
               (if has_trailing_slash (c :: r)
                then removelast (c :: r) ++ lit "/**"
                else if includes SLASH (c :: r) then c :: r
                     else lit "**/" ++ c :: r))).
  change (lit "#") with [35%N]. change (lit "!") with [33%N].
  rewrite !startsWith_one, has_trailing_slash_endsWith.
  cbn [truthy_string negb orb].
  rewrite (N.eqb_sym 35 c), (N.eqb_sym 33 c).
  destruct (c =? 35)%N; [simpl; rewrite app_nil_r; reflexivity|].
  destruct (c =? 33)%N; [simpl; rewrite app_nil_r; reflexivity|].
  remember (c :: r) as rule eqn:Er.
  cbn [option_list]. f_equal. f_equal. f_equal.
  unfold slice_0_m1.
  destruct (has_trailing_slash rule) eqn:Ets.
  - assert (Hinc : includes SLASH (removelast rule ++ lit "/**") = true).
    { rewrite includes_app. apply orb_true_r. }
    rewrite Hinc, andb_false_r. reflexivity.
  - destruct (includes SLASH rule) eqn:Einc.
    + rewrite andb_false_r. reflexivity.
    + assert (Hs : startsWith (lit "/") rule = false).
      { change (lit "/") with [SLASH]. rewrite startsWith_one.
        subst rule. unfold includes in Einc. simpl in Einc.
        apply orb_false_iff in Einc as [Hc _]. exact Hc. }
      rewrite Hs. reflexivity.
Qed.

Lemma fold_parse_line (ls : list JsString) (acc : list JsString) :
  fold_left parse_line ls acc
  = acc ++ omap (fun line => translate_rule (trim line)) ls.
Proof.
  revert acc; induction ls as [|l ls IH]; intros acc; simpl.
  - rewrite app_nil_r; reflexivity.
  - rewrite IH, parse_line_translate.
    destruct (translate_rule (trim l)); simpl.
    + rewrite <- app_assoc. reflexivity.
    + rewrite app_nil_r. reflexivity.
Qed.

End FilesFacts.

(** C5: the translation of ignore rules. Reading the lines of the ignore
    file in order, [parseGitignore] emits for each line what
    [translate_rule] gives for the trimmed line: nothing for a blank line,
    a [#] line or a [!] line; otherwise the rule with a trailing [/]
    replaced by [/**], or prefixed with [**/] when it has no [/], and with
    one leading [/] removed. The patterns come out in the order of their
    source lines, each line independently of the others. *)
Theorem parseGitignore_translation :
  (forall content : JsString,
      Files.parseGitignore (Files.Text content)
      = omap (fun line => Files.translate_rule (trim line)) (split_lines content))
  /\ (forall before after : JsString,
         Files.parseGitignore (Files.Text (before ++ LF :: after))
         = Files.parseGitignore (Files.Text before)
           ++ Files.parseGitignore (Files.Text after))
  /\ Files.parseGitignore
       (Files.Text (lit "# build output" ++ LF :: LF :: lit "!keep.log" ++ LF ::
                    lit "build/" ++ LF :: lit "  *.log " ++ LF :: lit "/dist" ++ LF ::
                    lit "/tmp/" ++ LF :: lit "src/gen" ++ [LF]))
     = [lit "build/**"; lit "**/*.log"; lit "dist"; lit "tmp/**"; lit "src/gen"]
  /\ Files.translate_rule [] = None
  /\ (forall r : JsString, Files.translate_rule (lit "#" ++ r) = None)
  /\ (forall r : JsString, Files.translate_rule (lit "!" ++ r) = None)
  /\ (forall (c : N) (r : JsString),
         c <> 35%N -> c <> 33%N ->
         (forall r' : JsString,
             c :: r = r' ++ [SLASH] ->
             Files.translate_rule (c :: r)
             = Some (Files.strip_leading_slash (r' ++ lit "/**")))
         /\ (includes SLASH (c :: r) = false ->
             Files.translate_rule (c :: r) = Some (lit "**/" ++ c :: r))
         /\ (Files.has_trailing_slash (c :: r) = false ->
             includes SLASH (c :: r) = true ->
             Files.translate_rule (c :: r)
             = Some (Files.strip_leading_slash (c :: r)))).
Proof.
  assert (A : forall content : JsString,
             Files.parseGitignore (Files.Text content)
             = omap (fun line => Files.translate_rule (trim line)) (split_lines content)).
  { intros content. unfold Files.parseGitignore. apply fold_parse_line. }
  split; [exact A|]. split.
  - intros before after. rewrite !A, split_lines_app. apply omap_app.
  - split; [vm_compute; reflexivity|].
    split; [reflexivity|]. split; [reflexivity|]. split; [reflexivity|].
    intros c r Hc1 Hc2.
    apply N.eqb_neq in Hc1, Hc2.
    assert (E : forall body : JsString,
               (if (c =? 35)%N then None
                else if (c =? 33)%N then None else Some body) = Some body).
    { intros body. rewrite Hc1, Hc2. reflexivity. }
    split; [|split].
    + intros r' Hr'. unfold Files.translate_rule. rewrite E. f_equal. f_equal.
      unfold Files.has_trailing_slash. rewrite Hr', last_snoc, N.eqb_refl.
      rewrite removelast_last. reflexivity.
    + intros Hinc. unfold Files.translate_rule. rewrite E. f_equal.
      assert (Hts : Files.has_trailing_slash (c :: r) = false).
      { unfold Files.has_trailing_slash.
        destruct (last (c :: r)) as [x|] eqn:El; [|reflexivity].
        destruct (x =? SLASH)%N eqn:Ex; [|reflexivity].
        apply N.eqb_eq in Ex. subst x. apply last_Some in El as [l' El].
        rewrite El, includes_app in Hinc. apply orb_false_iff in Hinc as [_ Hinc].
        discriminate. }
      rewrite Hts, Hinc. reflexivity.
    + intros Hts Hinc. unfold Files.translate_rule. rewrite E, Hts, Hinc.
      reflexivity.
Qed.

Lemma parseGitignore_translation_witness :
  Files.translate_rule (lit "build/") = Some (lit "build/**")
  /\ Files.translate_rule (lit "*.log") = Some (lit "**/*.log")
  /\ Files.translate_rule (lit "/src/gen") = Some (lit "src/gen").
Proof.
  destruct parseGitignore_translation as (_ & _ & _ & _ & _ & _ & K).
  split; [|split].
  - destruct (K 98%N (lit "uild/")) as (K1 & _ & _); [lia|lia|].
    exact (K1 (lit "build") eq_refl).
  - destruct (K 42%N (lit ".log")) as (_ & K2 & _); [lia|lia|].
    exact (K2 eq_refl).
  - destruct (K 47%N (lit "src/gen")) as (_ & _ & K3); [lia|lia|].
    exact (K3 eq_refl eq_refl).
Defined.

(** ** The authorship extractor *)

Section GitFacts.
Import Git.

Lemma fold_push_author (ls : list JsString) (acc : list JsString) :
  fold_left push_author ls acc = acc ++ omap identity_of_line ls.
Proof.
  revert acc; induction ls as [|l ls IH]; intros acc; simpl.
  - rewrite app_nil_r; reflexivity.
  - rewrite IH. unfold push_author, identity_of_line, substring.
    destruct (startsWith (lit "author ") l).
    + rewrite <- app_assoc. reflexivity.
    + reflexivity.
Qed.

Lemma collect_authors_identities (output : JsString) :
  collect_authors output = line_identities output.
Proof. unfold collect_authors. apply fold_push_author. Qed.

Lemma filter_strict_eq_count (f : JsString) (l : list JsString) :
  length (List.filter (fun author => strict_eq author f) l)
  = count_occ JsString_eq_dec l f.
Proof.
  induction l as [|a l IH]; simpl; [reflexivity|].
  destruct (JsString_eq_dec a f) as [->|Hne].
  - rewrite strict_eq_refl. simpl. rewrite IH. reflexivity.
  - rewrite (strict_eq_neq _ _ Hne). exact IH.
Qed.

Lemma split_join_lines (ls : list JsString) :
  ls <> [] ->
  Forall (fun l => includes LF l = false) ls ->
  split_lines (join_lines ls) = ls.
Proof.
  induction ls as [|l ls IH]; intros Hne Hall; [contradiction|].
  apply Forall_cons in Hall as [Hl Hall].
  destruct ls as [|l2 ls].
  - simpl. apply split_lines_single, Hl.
  - change (join_lines (l :: l2 :: ls)) with (l ++ LF :: join_lines (l2 :: ls)).
    rewrite split_lines_app, (split_lines_single _ Hl), IH; [reflexivity|discriminate|exact Hall].
Qed.

Lemma porcelain_record_identity (a content : JsString) :
  omap identity_of_line (porcelain_record a content) = [a].
Proof. reflexivity. Qed.

Lemma porcelain_record_no_LF (a content : JsString) :
  includes LF a = false -> includes LF content = false ->
  Forall (fun l => includes LF l = false) (porcelain_record a content).
Proof.
  intros Ha Hc. unfold porcelain_record.
  repeat (apply Forall_cons; split);
    try (rewrite includes_app, Ha); try reflexivity; try exact Hc.
  apply Forall_nil_2.
Qed.

Lemma porcelain_identities (authors : list JsString) :
  Forall (fun a => includes LF a = false) authors ->
  line_identities (porcelain authors) = authors.
Proof.
  intros Hall. unfold line_identities, porcelain.
  rewrite split_join_lines.
  - rewrite omap_app. simpl. rewrite app_nil_r.
    induction authors as [|a authors IH]; [reflexivity|].
    apply Forall_cons in Hall as [_ Hall].
    change (flat_map ?f (a :: authors)) with (f a ++ flat_map f authors).
    rewrite omap_app, (IH Hall). reflexivity.
  - destruct (flat_map _ authors); discriminate.
  - apply Forall_app; split; [|repeat constructor].
    induction Hall as [|a authors Ha Hall IH]; [constructor|].
    change (flat_map ?f (a :: authors)) with (f a ++ flat_map f authors).
    apply Forall_app; split; [|exact IH].
    apply porcelain_record_no_LF; [exact Ha|reflexivity].
Qed.

End GitFacts.

(** C6: the single-author filter. On any output of the blame oracle,
    with a filter the extractor returns the number of per-line identities
    that are exactly the filter string, and without one the identities in
    line order; the identities of the oracle's output for a file whose
    lines were written by [authors] are [authors]. On the lines written by
    A, B, A, A, C the filter A gives 3, a filter differing from A in case
    or by a trailing blank gives 0, and no filter gives the five
    identities. *)
Theorem getAuthorsFromFile_filter :
  (forall (stdout : JsString) (exitCode : Z) (c : N) (f : JsString),
      Git.getAuthorsFromFile (Git.Exited stdout exitCode) (Some (c :: f))
      = Git.Count (count_occ JsString_eq_dec (Git.line_identities stdout) (c :: f)))
  /\ (forall (stdout : JsString) (exitCode : Z),
         Git.getAuthorsFromFile (Git.Exited stdout exitCode) None
         = Git.Authors (Git.line_identities stdout))
  /\ (forall authors : list JsString,
         Forall (fun a => includes LF a = false) authors ->
         Git.line_identities (Git.porcelain authors) = authors)
  /\ (let sample := Git.porcelain [lit "A"; lit "B"; lit "A"; lit "A"; lit "C"] in
      Git.getAuthorsFromFile (Git.Exited sample 0) (Some (lit "A")) = Git.Count 3
      /\ Git.getAuthorsFromFile (Git.Exited sample 0) (Some (lit "a")) = Git.Count 0
      /\ Git.getAuthorsFromFile (Git.Exited sample 0) (Some (lit "A ")) = Git.Count 0
      /\ Git.getAuthorsFromFile (Git.Exited sample 0) None
         = Git.Authors [lit "A"; lit "B"; lit "A"; lit "A"; lit "C"]).
Proof.
  split; [|split; [|split]].
  - intros stdout exitCode c f. unfold Git.getAuthorsFromFile, Git.try_body.
    cbn [truthy_string]. rewrite collect_authors_identities, filter_strict_eq_count.
    reflexivity.
  - intros stdout exitCode. unfold Git.getAuthorsFromFile, Git.try_body.
    rewrite collect_authors_identities. reflexivity.
  - apply porcelain_identities.
  - repeat split; vm_compute; reflexivity.
Qed.

Lemma getAuthorsFromFile_filter_witness :
  Git.line_identities (Git.porcelain [lit "A"; lit "B"; lit "A"; lit "A"; lit "C"])
  = [lit "A"; lit "B"; lit "A"; lit "A"; lit "C"].
Proof.
  destruct getAuthorsFromFile_filter as (_ & _ & K & _).
  apply K. repeat (apply Forall_cons_2; [reflexivity|]). apply Forall_nil_2.
Defined.

(** C7: a failing blame oracle. When spawning the oracle or reading its
    output throws, the body of the extractor has no result, and the
    extractor still returns one: zero with a filter, the empty sequence
    without; it is the result for an oracle that printed nothing, whatever
    its exit code, so the result for a file with zero lines. *)
Theorem getAuthorsFromFile_failure (filterUser : option JsString) :
  Git.try_body Git.Throws filterUser = None
  /\ Git.getAuthorsFromFile Git.Throws filterUser
     = (if Git.truthy_filter filterUser then Git.Count 0 else Git.Authors [])
  /\ (forall exitCode : Z,
         Git.getAuthorsFromFile Git.Throws filterUser
         = Git.getAuthorsFromFile (Git.Exited [] exitCode) filterUser).
Proof.
  split; [reflexivity|]. split; [reflexivity|].
  intros exitCode. destruct filterUser as [[|c f]|]; reflexivity.
Qed.

(** The empty string is falsy: passed as the filter it selects nothing and
    the extractor answers as it does without a filter, as cli.ts does when
    it chooses the mode. *)
Lemma getAuthorsFromFile_empty_filter (run : Git.blame_run) :
  Git.getAuthorsFromFile run (Some []) = Git.getAuthorsFromFile run None.
Proof. destruct run; reflexivity. Qed.

(** ** The scheduler *)

Section ListFacts.

Lemma fst_delete_Permutation {A : Type} (l : list (nat * A)) (p k0 : nat) (o0 : A) :
  l !! p = Some (k0, o0) -> l.*1 ≡ₚ k0 :: (delete p l).*1.
Proof.
  intros Hp. rewrite (delete_Permutation l p (k0, o0) Hp) at 1. reflexivity.
Qed.

Lemma elem_of_fst_delete {A : Type} (l : list (nat * A)) (p k0 : nat) (o0 : A) (k : nat) :
  NoDup l.*1 -> l !! p = Some (k0, o0) ->
  k ∈ (delete p l).*1 <-> k ∈ l.*1 /\ k <> k0.
Proof.
  intros Hnd Hp. pose proof (fst_delete_Permutation l p k0 o0 Hp) as HP.
  rewrite HP in Hnd. apply NoDup_cons in Hnd as [Hnot _].
  rewrite HP, elem_of_cons. split.
  - intros H. split; [right; exact H|]. intros ->. contradiction.
  - intros [[->|H] Hne]; [contradiction|exact H].
Qed.

Lemma NoDup_fst_delete {A : Type} (l : list (nat * A)) (p : nat) :
  NoDup l.*1 -> NoDup (delete p l).*1.
Proof.
  intros Hnd. rewrite list_fmap_delete.
  eapply sublist_NoDup; [exact Hnd|apply sublist_delete].
Qed.

Lemma if_bool_decide_ext {A : Type} (P Q : Prop) `{!Decision P, !Decision Q} (x y : A) :
  (P <-> Q) ->
  (if bool_decide P then x else y) = (if bool_decide Q then x else y).
Proof. intros H. rewrite (bool_decide_ext P Q H). reflexivity. Qed.

End ListFacts.

Section PoolFacts.
Import Processor.

Context {T : Type}.
Variable items : list T.
Variable concurrencyLimit : Z.
Variable processor : T -> settled.
Variable onProgress : bool.

#[local] Abbreviation processNext := (processNext items processor).
#[local] Abbreviation on_finally := (on_finally items processor).
#[local] Abbreviation settle_at := (settle_at items processor onProgress).
#[local] Abbreviation settle_pick := (settle_pick items processor onProgress).
#[local] Abbreviation start := (start items concurrencyLimit processor).
#[local] Abbreviation processWithPool := (processWithPool items concurrencyLimit processor onProgress).
#[local] Abbreviation consistent := (consistent items processor).
#[local] Abbreviation steady := (steady items concurrencyLimit processor).
#[local] Abbreviation initialBatch := (initialBatch items concurrencyLimit).

Lemma array_set_lt (i : nat) (v : JsValue) (a : list (option JsValue)) :
  (i < length a)%nat -> array_set i v a = <[i := Some v]> a.
Proof.
  intros Hi. unfold array_set.
  destruct (i <? length a)%nat eqn:E; [reflexivity|].
  apply Nat.ltb_ge in E. lia.
Qed.

Lemma resolve_fields (v : list JsValue) (st : pool) :
  results (resolve v st) = results st
  /\ runningCount (resolve v st) = runningCount st
  /\ nextIndex (resolve v st) = nextIndex st
  /\ pending (resolve v st) = pending st
  /\ console (resolve v st) = console st.
Proof. unfold resolve. destruct (resolved st); auto 6. Qed.

Lemma consistent_resolve (v : list JsValue) (st : pool) :
  consistent st -> consistent (resolve v st).
Proof.
  intros [H1 H2 H3 H4 H5 H6 H7].
  destruct (resolve_fields v st) as (E1 & E2 & E3 & E4 & E5).
  constructor; unfold settled_at; rewrite ?E1, ?E2, ?E3, ?E4, ?E5; assumption.
Qed.

Lemma consistent_processNext (st : pool) :
  consistent st -> consistent (processNext st).
Proof.
  intros Hc. unfold Processor.processNext.
  destruct (length items <=? nextIndex st)%nat eqn:Eguard.
  { destruct (runningCount st =? 0); [apply consistent_resolve|]; exact Hc. }
  apply Nat.leb_gt in Eguard.
  destruct (items !! nextIndex st) as [item|] eqn:Eitem; [|exact Hc].
  destruct Hc as [H1 H2 H3 H4 H5 H6 H7].
  assert (Hdisp : forall k,
             settled_at
               (Pool (results st) (_completed st) (runningCount st + 1)
                  (S (nextIndex st))
                  (pending st ++ [(nextIndex st, processor item)])
                  (resolved st) (progress st) (console st)) k
             <-> settled_at st k).
  { intros k. unfold settled_at; simpl. rewrite fmap_app, elem_of_app. simpl.
    rewrite list_elem_of_singleton. split.
    - intros [Hlt Hnot]. split; [|tauto].
      destruct (decide (k = nextIndex st)); [tauto|lia].
    - intros [Hlt Hnot]. split; [lia|]. intros [Hin| ->]; [tauto|lia]. }
  assert (Hfresh : nextIndex st ∉ (pending st).*1).
  { intros Hin. apply list_elem_of_fmap in Hin as ([k o] & Heq & Hin).
    apply H5 in Hin as [Hlt _]. simpl in Heq. lia. }
  constructor; simpl.
  - exact H1.
  - lia.
  - rewrite length_app. simpl. lia.
  - rewrite fmap_app. apply NoDup_app. split; [exact H4|]. split.
    + intros x Hx Hx'. simpl in Hx'. apply list_elem_of_singleton in Hx'. subst x.
      contradiction.
    + simpl. apply NoDup_singleton.
  - intros k o Hin. apply elem_of_app in Hin as [Hin|Hin].
    + apply H5 in Hin as [Hlt Hex]. split; [lia|exact Hex].
    + apply list_elem_of_singleton in Hin. injection Hin as -> ->.
      split; [lia|]. exists item. split; [exact Eitem|reflexivity].
  - intros k item' Hk. rewrite (H6 k item' Hk). f_equal.
    apply if_bool_decide_ext. symmetry. exact (Hdisp k).
  - intros k item' message Hk Hset Hrej. apply Hdisp in Hset.
    exact (H7 k item' message Hk Hset Hrej).
Qed.

Lemma consistent_settle_at (p : nat) (st : pool) :
  consistent st -> consistent (settle_at p st).
Proof.
  intros Hc. unfold Processor.settle_at.
  destruct (pending st !! p) as [[k0 o0]|] eqn:Hp; [|exact Hc].
  unfold Processor.on_finally. apply consistent_processNext.
  destruct Hc as [H1 H2 H3 H4 H5 H6 H7].
  assert (Hin0 : (k0, o0) ∈ pending st) by (eapply list_elem_of_lookup_2; eauto).
  destruct (H5 k0 o0 Hin0) as (Hlt0 & item0 & Hitem0 & Ho0).
  assert (Hlen : (length (delete p (pending st)) = length (pending st) - 1)%nat).
  { rewrite length_delete; [reflexivity|]. rewrite Hp. eauto. }
  assert (Hpos : (0 < length (pending st))%nat).
  { apply lookup_lt_Some in Hp. lia. }
  assert (Hset : forall k,
             settled_at
               (Pool (results st) (_completed st) (runningCount st) (nextIndex st)
                  (delete p (pending st)) (resolved st) (progress st) (console st)) k
             <-> settled_at st k \/ k = k0).
  { intros k. unfold settled_at; simpl.
    rewrite (elem_of_fst_delete _ p k0 o0 k H4 Hp). split.
    - intros [Hlt Hnot]. destruct (decide (k = k0)); [tauto|]. tauto.
    - intros [[Hlt Hnot]| ->]; [tauto|]. split; [exact Hlt0|]. tauto. }
  assert (Hk0 : ~ settled_at st k0).
  { intros [_ Hnot]. apply Hnot. apply list_elem_of_fmap. exists (k0, o0). auto. }
  destruct o0 as [result|message|]; constructor; simpl.
  - rewrite array_set_lt by lia. rewrite length_insert. exact H1.
  - exact H2.
  - lia.
  - apply NoDup_fst_delete, H4.
  - intros k o Hin. apply list_elem_of_delete_inv in Hin. apply H5, Hin.
  - intros k item Hk. rewrite array_set_lt by lia.
    destruct (decide (k = k0)) as [->|Hne].
    + rewrite list_lookup_insert_eq by lia.
      rewrite bool_decide_eq_true_2; [|apply Hset; auto].
      assert (item = item0) by congruence. subst item.
      rewrite <- Ho0. reflexivity.
    + rewrite list_lookup_insert_ne by auto. rewrite (H6 k item Hk). f_equal.
      apply if_bool_decide_ext. rewrite (Hset k). tauto.
  - intros k item message Hk Hs Hrej.
    apply Hset in Hs as [Hs| ->]; [exact (H7 k item message Hk Hs Hrej)|].
    assert (item = item0) by congruence. subst item. congruence.
  - exact H1.
  - exact H2.
  - lia.
  - apply NoDup_fst_delete, H4.
  - intros k o Hin. apply list_elem_of_delete_inv in Hin. apply H5, Hin.
  - intros k item Hk. rewrite (H6 k item Hk). f_equal.
    destruct (decide (k = k0)) as [->|Hne].
    + rewrite bool_decide_eq_false_2 by exact Hk0.
      rewrite bool_decide_eq_true_2; [|apply Hset; auto].
      assert (item = item0) by congruence. subst item.
      rewrite <- Ho0. reflexivity.
    + apply if_bool_decide_ext. rewrite (Hset k). tauto.
  - intros k item message' Hk Hs Hrej. apply elem_of_app.
    apply Hset in Hs as [Hs| ->]; [left; exact (H7 k item message' Hk Hs Hrej)|].
    right.
    assert (item = item0) by congruence. subst item.
    assert (message' = message) by congruence. subst message'.
    apply list_elem_of_singleton. reflexivity.
  - exact H1.
  - exact H2.
  - lia.
  - apply NoDup_fst_delete, H4.
  - intros k o Hin. apply list_elem_of_delete_inv in Hin. apply H5, Hin.
  - intros k item Hk. rewrite (H6 k item Hk). f_equal.
    destruct (decide (k = k0)) as [->|Hne].
    + rewrite bool_decide_eq_false_2 by exact Hk0.
      rewrite bool_decide_eq_true_2; [|apply Hset; auto].
      assert (item = item0) by congruence. subst item.
      rewrite <- Ho0. reflexivity.
    + apply if_bool_decide_ext. rewrite (Hset k). tauto.
  - intros k item message' Hk Hs Hrej.
    apply Hset in Hs as [Hs| ->]; [exact (H7 k item message' Hk Hs Hrej)|].
    assert (item = item0) by congruence. subst item. congruence.
Qed.

Lemma executor_iter (j : nat) :
  (j <= length items)%nat ->
  let st := Nat.iter j processNext (initial items) in
  consistent st /\ nextIndex st = j /\ length (pending st) = j
  /\ resolved st = None.
Proof.
  induction j as [|j IH]; intros Hj; cbn zeta.
  - simpl. split; [|auto]. unfold initial.
    constructor; cbn [results runningCount nextIndex pending console].
    + apply length_replicate.
    + lia.
    + reflexivity.
    + apply NoDup_nil_2.
    + intros k o Hin. apply elem_of_nil in Hin. contradiction.
    + intros k item Hk. apply lookup_lt_Some in Hk.
      rewrite lookup_replicate_2 by lia.
      rewrite bool_decide_eq_false_2; [reflexivity|].
      unfold settled_at; cbn [nextIndex]. lia.
    + intros k item message _ [Hlt _]. cbn [nextIndex] in Hlt. lia.
  - destruct IH as (Hc & Hn & Hp & Hr); [lia|].
    change (Nat.iter (S j) ?f ?x) with (f (Nat.iter j f x)).
    split; [apply consistent_processNext, Hc|].
    revert Hc Hn Hp Hr. generalize (Nat.iter j processNext (initial items)).
    intros st Hc Hn Hp Hr. unfold Processor.processNext.
    destruct (length items <=? nextIndex st)%nat eqn:Eguard.
    { apply Nat.leb_le in Eguard. lia. }
    destruct (items !! nextIndex st) as [item|] eqn:Eitem.
    + simpl. rewrite length_app. simpl. split; [lia|]. split; [lia|exact Hr].
    + apply lookup_ge_None in Eitem. lia.
Qed.

Lemma initialBatch_le : (initialBatch <= length items)%nat.
Proof. unfold Processor.initialBatch. lia. Qed.

Lemma steady_start : steady start.
Proof.
  pose proof initialBatch_le as Hb.
  destruct (executor_iter initialBatch Hb) as (Hc & Hn & Hp & Hr).
  unfold Processor.start. fold initialBatch.
  constructor; try assumption.
  - lia.
  - intros _. exact Hp.
  - rewrite Hr. destruct (pending _) as [|x l]; [|reflexivity].
    simpl in Hp. rewrite <- Hp. reflexivity.
Qed.

(** What one completion does to the counters. *)
Lemma settle_at_counters (p k0 : nat) (o0 : settled) (st : pool) :
  consistent st -> pending st !! p = Some (k0, o0) ->
  let st' := settle_at p st in
  if (nextIndex st <? length items)%nat
  then nextIndex st' = S (nextIndex st)
       /\ length (pending st') = length (pending st)
       /\ resolved st' = resolved st
  else nextIndex st' = nextIndex st
       /\ S (length (pending st')) = length (pending st)
       /\ resolved st'
          = match resolved st with
            | Some r => Some r
            | None => if (length (pending st) =? 1)%nat
                      then Some (filter_Boolean (results st')) else None
            end.
Proof.
  intros Hc Hp. cbn zeta. unfold Processor.settle_at. rewrite Hp.
  assert (Hlen : S (length (delete p (pending st))) = length (pending st)).
  { rewrite length_delete by (rewrite Hp; eauto).
    apply lookup_lt_Some in Hp. lia. }
  pose proof (runningCount_pending _ _ _ Hc) as Hrun.
  unfold Processor.on_finally, Processor.processNext.
  destruct o0 as [result|message|]; simpl;
    (destruct (nextIndex st <? length items)%nat eqn:Enext;
     [ apply Nat.ltb_lt in Enext;
       destruct (length items <=? nextIndex st)%nat eqn:Eguard;
       [apply Nat.leb_le in Eguard; lia|];
       destruct (items !! nextIndex st) as [item|] eqn:Eitem;
       [simpl; rewrite length_app; simpl; split; [reflexivity|split; [lia|reflexivity]]
       |apply lookup_ge_None in Eitem; lia]
     | apply Nat.ltb_ge in Enext;
       destruct (length items <=? nextIndex st)%nat eqn:Eguard;
       [|apply Nat.leb_gt in Eguard; lia];
       destruct (runningCount st - 1 =? 0) eqn:Erun;
       [ apply Z.eqb_eq in Erun;
         assert (E1 : (length (pending st) =? 1)%nat = true) by (apply Nat.eqb_eq; lia);
         rewrite E1; unfold resolve; simpl;
         destruct (resolved st); simpl; auto
       | apply Z.eqb_neq in Erun;
         assert (E1 : (length (pending st) =? 1)%nat = false) by (apply Nat.eqb_neq; lia);
         rewrite E1; simpl; destruct (resolved st); auto ] ]).
Qed.

Lemma settle_pick_idle (st : pool) (pick : nat) :
  pending st = [] -> settle_pick st pick = st.
Proof.
  intros Hp. unfold Processor.settle_pick, Processor.settle_at.
  rewrite Hp. reflexivity.
Qed.

Lemma settle_pick_lookup (st : pool) (pick : nat) :
  pending st <> [] ->
  exists k0 o0, pending st !! (pick mod length (pending st))%nat = Some (k0, o0).
Proof.
  intros Hne.
  assert (Hlt : (pick mod length (pending st) < length (pending st))%nat).
  { apply Nat.mod_upper_bound. destruct (pending st); [contradiction|discriminate]. }
  apply lookup_lt_is_Some_2 in Hlt as [[k0 o0] H]. eauto.
Qed.

Lemma steady_settle_pick (st : pool) (pick : nat) :
  steady st -> steady (settle_pick st pick).
Proof.
  intros Hs.
  destruct (decide (pending st = [])) as [Hidle|Hbusy].
  { rewrite settle_pick_idle by exact Hidle. exact Hs. }
  destruct (settle_pick_lookup st pick Hbusy) as (k0 & o0 & Hp).
  destruct Hs as [Hc Hle Hfull Hres].
  pose proof (settle_at_counters _ k0 o0 st Hc Hp) as Hcnt. cbn zeta in Hcnt.
  pose proof (consistent_settle_at (pick mod length (pending st)) st Hc) as Hc'.
  unfold Processor.settle_pick.
  set (st' := settle_at (pick mod length (pending st)) st) in *.
  assert (Hpos : (0 < length (pending st))%nat).
  { destruct (pending st); [contradiction|simpl; lia]. }
  assert (HresN : resolved st = None).
  { rewrite Hres. destruct (pending st); [contradiction|reflexivity]. }
  destruct (nextIndex st <? length items)%nat eqn:Enext.
  - apply Nat.ltb_lt in Enext. destruct Hcnt as (Hn & Hl & Hr).
    constructor; [exact Hc'|lia|intros _; rewrite Hl; auto|].
    rewrite Hr, HresN. destruct (pending st') eqn:E; [simpl in Hl; lia|reflexivity].
  - apply Nat.ltb_ge in Enext. destruct Hcnt as (Hn & Hl & Hr).
    constructor; [exact Hc'|lia|intros ?; lia|].
    rewrite Hr, HresN.
    assert (Hb : (0 <? initialBatch)%nat = true) by (apply Nat.ltb_lt; lia).
    rewrite Hb.
    destruct (pending st') eqn:E; simpl in Hl.
    + assert (E1 : (length (pending st) =? 1)%nat = true) by (apply Nat.eqb_eq; lia).
      rewrite E1. reflexivity.
    + assert (E1 : (length (pending st) =? 1)%nat = false) by (apply Nat.eqb_neq; lia).
      rewrite E1. reflexivity.
Qed.

Lemma processWithPool_snoc (picks : list nat) (pick : nat) :
  processWithPool (picks ++ [pick]) = settle_pick (processWithPool picks) pick.
Proof. unfold Processor.processWithPool. apply fold_left_app. Qed.

Lemma steady_run (picks : list nat) : steady (processWithPool picks).
Proof.
  induction picks as [|pick picks IH] using rev_ind.
  - apply steady_start.
  - rewrite processWithPool_snoc. apply steady_settle_pick, IH.
Qed.

(** Every completion counts: after the picks made so far, either nothing
    is in flight any more or each pick settled one operation. *)
Lemma run_settles (picks : list nat) :
  let st := processWithPool picks in
  pending st = [] \/
  nextIndex st = (length picks + length (pending st))%nat.
Proof.
  induction picks as [|pick picks IH] using rev_ind; cbn zeta.
  - right. unfold Processor.processWithPool. cbn [fold_left length].
    destruct (executor_iter initialBatch initialBatch_le) as (_ & Hn & Hp & _).
    unfold Processor.start. fold initialBatch. rewrite Hn, Hp. reflexivity.
  - rewrite processWithPool_snoc. cbn zeta in IH.
    pose proof (steady_run picks) as [Hc _ _ _].
    destruct (decide (pending (processWithPool picks) = [])) as [Hidle|Hbusy].
    { left. rewrite settle_pick_idle by exact Hidle. exact Hidle. }
    destruct IH as [IH|IH]; [contradiction|]. right.
    destruct (settle_pick_lookup _ pick Hbusy) as (k0 & o0 & Hp).
    pose proof (settle_at_counters _ k0 o0 _ Hc Hp) as Hcnt. cbn zeta in Hcnt.
    unfold Processor.settle_pick. rewrite length_app. cbn [length].
    destruct (nextIndex (processWithPool picks) <? length items)%nat;
      destruct Hcnt as (Hn & Hl & _); lia.
Qed.

Lemma filter_Boolean_expected :
  filter_Boolean (expected_slots items processor)
  = expected_collection items processor.
Proof.
  unfold filter_Boolean, expected_slots, expected_collection.
  induction items as [|item l IH]; [reflexivity|].
  cbn [map].
  omap_step.
  rewrite IH. unfold kept_of, slot_of.
  destruct (processor item) as [v|m|]; [destruct (Boolean v)| |]; reflexivity.
Qed.

(** The run to its end: with a first batch to start and one pick for each
    item, nothing is in flight, every item was dispatched, every slot holds
    what its worker gave, and the promise is resolved with the truthy
    results in the order of the items. *)
Lemma run_to_end (picks : list nat) :
  (0 < initialBatch)%nat ->
  (length items <= length picks)%nat ->
  let st := processWithPool picks in
  pending st = []
  /\ nextIndex st = length items
  /\ results st = expected_slots items processor
  /\ resolved st = Some (expected_collection items processor).
Proof.
  intros Hb Hlen. cbn zeta.
  pose proof (steady_run picks) as [Hc Hle Hfull Hres].
  pose proof (run_settles picks) as Hrun. cbn zeta in Hrun.
  set (st := processWithPool picks) in *.
  pose proof (nextIndex_le _ _ _ Hc) as Hnext.
  assert (Hidle : pending st = []).
  { destruct Hrun as [H|H]; [exact H|].
    destruct (pending st) as [|x l] eqn:E; [reflexivity|]. simpl in H. lia. }
  assert (HN : nextIndex st = length items).
  { destruct (decide (nextIndex st < length items)%nat) as [Hlt|Hge]; [|lia].
    apply Hfull in Hlt. rewrite Hidle in Hlt. simpl in Hlt. lia. }
  assert (Hslots : results st = expected_slots items processor).
  { apply list_eq. intros k. unfold expected_slots. rewrite list_lookup_fmap.
    destruct (items !! k) as [item|] eqn:Ek; simpl.
    - rewrite (results_slots _ _ _ Hc k item Ek).
      rewrite bool_decide_eq_true_2; [reflexivity|].
      unfold settled_at. rewrite Hidle, HN. split.
      + apply lookup_lt_Some in Ek. exact Ek.
      + simpl. apply not_elem_of_nil.
    - apply lookup_ge_None. rewrite (results_length _ _ _ Hc).
      apply lookup_ge_None in Ek. exact Ek. }
  split; [exact Hidle|]. split; [exact HN|]. split; [exact Hslots|].
  rewrite Hres, Hidle.
  assert (E : (0 <? initialBatch)%nat = true) by (apply Nat.ltb_lt; exact Hb).
  rewrite E, Hslots, filter_Boolean_expected. reflexivity.
Qed.

(** With a limit of zero or less the executor starts nothing, and nothing
    ever happens. *)
Lemma processWithPool_no_batch (picks : list nat) :
  concurrencyLimit <= 0 -> processWithPool picks = initial items.
Proof.
  intros Hlim.
  assert (Hstart : start = initial items).
  { unfold Processor.start, Processor.initialBatch.
    replace (Z.to_nat (Z.min concurrencyLimit (Z.of_nat (length items)))) with O by lia.
    reflexivity. }
  induction picks as [|pick picks IH] using rev_ind.
  - exact Hstart.
  - rewrite processWithPool_snoc, IH. apply settle_pick_idle. reflexivity.
Qed.

Lemma initialBatch_pos :
  1 <= concurrencyLimit -> items <> [] -> (0 < initialBatch)%nat.
Proof.
  intros Hl Hi. unfold Processor.initialBatch.
  destruct items; [contradiction|]. simpl length. lia.
Qed.

End PoolFacts.

(** C1, as the code has it: for a non-empty list of items and a limit of
    at least one, whatever the order in which the operations complete, the
    promise is resolved with the truthy results of the workers that
    fulfilled, in the order of their items; a rejected or falsy result is
    left out and the later ones move up. When every worker fulfils with a
    truthy value there is one result per item and the i-th result is the
    i-th item's. *)
Theorem processWithPool_order {T : Type} (items : list T) (concurrencyLimit : Z)
    (processor : T -> Processor.settled) (onProgress : bool) (picks : list nat) :
  items <> [] -> 1 <= concurrencyLimit ->
  (length items <= length picks)%nat ->
  Processor.resolved
    (Processor.processWithPool items concurrencyLimit processor onProgress picks)
  = Some (Processor.expected_collection items processor)
  /\ Processor.expected_collection items processor
       `sublist_of` omap (fun item => Processor.slot_of (processor item)) items
  /\ ((forall item, item ∈ items ->
         exists v, processor item = Processor.Fulfilled v /\ Boolean v = true) ->
      length (Processor.expected_collection items processor) = length items
      /\ forall i item, items !! i = Some item ->
           exists v, Processor.expected_collection items processor !! i = Some v
                     /\ processor item = Processor.Fulfilled v).
Proof.
  intros Hne Hlim Hlen.
  pose proof (initialBatch_pos items concurrencyLimit Hlim Hne) as Hb.
  destruct (run_to_end items concurrencyLimit processor onProgress picks Hb Hlen)
    as (_ & _ & _ & Hres).
  split; [exact Hres|]. clear. split.
  - unfold Processor.expected_collection.
    induction items as [|item l IH]; [constructor|].
    omap_step.
    unfold Processor.kept_of at 1, Processor.slot_of at 1.
    destruct (processor item) as [v|m|]; [|exact IH|exact IH].
    destruct (Boolean v); [apply sublist_skip, IH|apply sublist_cons, IH].
  - intros Hall.
    assert (E : Some <$> Processor.expected_collection items processor
                = map (fun item => Processor.slot_of (processor item)) items).
    { unfold Processor.expected_collection.
      induction items as [|item l IH]; [reflexivity|].
      destruct (Hall item) as (v & Hv & Hb); [left|].
      omap_step.
      cbn [map]. rewrite Hv. cbn [Processor.kept_of Processor.slot_of].
      rewrite Hb. rewrite fmap_cons. f_equal. apply IH.
      intros x Hx. apply Hall. right. exact Hx. }
    split.
    + apply (f_equal length) in E. rewrite length_fmap, length_map in E. exact E.
    + intros i item Hi.
      assert (Hin : item ∈ items) by (eapply list_elem_of_lookup_2; exact Hi).
      destruct (Hall item Hin) as (v & Hv & _). exists v. split; [|exact Hv].
      apply (f_equal (fun l => l !! i)) in E.
      rewrite list_lookup_fmap in E.
      change (map ?f items) with (f <$> items) in E. rewrite list_lookup_fmap, Hi in E.
      simpl in E. rewrite Hv in E. simpl in E.
      destruct (Processor.expected_collection items processor !! i); simpl in E; congruence.
Qed.

Lemma processWithPool_order_witness :
  Processor.resolved
    (Processor.processWithPool Processor.sample_files 2 Processor.sample_worker
       true [1; 0; 0]%nat)
  = Some (Processor.expected_collection Processor.sample_files Processor.sample_worker).
Proof.
  refine (proj1 (processWithPool_order Processor.sample_files 2
                   Processor.sample_worker true [1; 0; 0]%nat _ _ _)).
  - discriminate.
  - lia.
  - vm_compute. lia.
Defined.

(** C1, as stated, fails: when the worker raises on the first of three
    files, the promise is resolved with two results, and the first of them
    is the second file's. *)
Lemma order_preservation_counterexample :
  Processor.resolved
    (Processor.processWithPool Processor.sample_files 2 Processor.failing_worker
       true [1; 0; 0]%nat)
  = Some [JObj [(lit "file", JStr (lit "b.txt")); (lit "count", JNum 1)];
          JObj [(lit "file", JStr (lit "c.txt")); (lit "count", JNum 1)]]
  /\ ~ Stated.order_preservation.
Proof.
  assert (E : Processor.resolved
                (Processor.processWithPool Processor.sample_files 2
                   Processor.failing_worker true [1; 0; 0]%nat)
              = Some [JObj [(lit "file", JStr (lit "b.txt")); (lit "count", JNum 1)];
                      JObj [(lit "file", JStr (lit "c.txt")); (lit "count", JNum 1)]]).
  { vm_compute. reflexivity. }
  split; [exact E|].
  intros H. destruct (H _ _ _ _ _ E) as [Hlen _]. discriminate Hlen.
Qed.

(** A worker that returns a promise for every item never throws in the
    call: the run with calls is the run of [processWithPool]. *)
Section CallFacts.

Import Processor.

Context {T : Type}.
Variable items : list T.
Variable concurrencyLimit : Z.
Variable processor : T -> settled.
Variable onProgress : bool.

#[local] Abbreviation returning := (fun item : T => Returns (processor item)).

Lemma processNext_call_returns (st : pool) :
  processNext_call items returning false st = (processNext items processor st, None).
Proof.
  unfold processNext_call, processNext. rewrite andb_true_r.
  destruct (length items <=? nextIndex st)%nat; [reflexivity|].
  destruct (items !! nextIndex st); reflexivity.
Qed.

Lemma executor_returns (rounds : nat) (st : pool) :
  executor items returning rounds st
  = (Nat.iter rounds (processNext items processor) st, None).
Proof.
  revert st. induction rounds as [|r IH]; intros st; [reflexivity|].
  cbn [executor]. rewrite processNext_call_returns, IH, Nat.iter_succ_r. reflexivity.
Qed.

Lemma settle_call_returns (a : attempt) (pick : nat) :
  rejected a = None ->
  shared (settle_call items returning onProgress a pick)
  = settle_pick items processor onProgress (shared a) pick
  /\ rejected (settle_call items returning onProgress a pick) = None.
Proof.
  intros Hr. unfold settle_call, settle_pick, settle_at. cbn zeta.
  destruct (pending (shared a) !! (pick mod length (pending (shared a)))%nat)
    as [[k0 o0]|]; [|split; [reflexivity|exact Hr]].
  rewrite Hr. rewrite bool_decide_eq_false_2 by (intros H; apply H; reflexivity).
  rewrite processNext_call_returns. cbn [shared rejected].
  split; [|reflexivity]. unfold on_finally.
  destruct o0; reflexivity.
Qed.

Lemma processWithPool_calls_returns (picks : list nat) :
  shared (processWithPool_calls items concurrencyLimit returning onProgress picks)
  = processWithPool items concurrencyLimit processor onProgress picks
  /\ rejected (processWithPool_calls items concurrencyLimit returning onProgress picks)
     = None.
Proof.
  induction picks as [|pick picks IH] using rev_ind.
  - unfold processWithPool_calls, start_calls. cbn [fold_left].
    rewrite executor_returns. split; reflexivity.
  - destruct IH as [IH1 IH2].
    unfold processWithPool_calls in *. rewrite fold_left_app. cbn [fold_left].
    destruct (settle_call_returns _ pick IH2) as [E1 E2].
    rewrite E1, E2, IH1, processWithPool_snoc. split; reflexivity.
Qed.

(** A call that throws on the first item leaves the executor at once. *)
Lemma processWithPool_calls_throws (worker : T -> call) (first : T) (rest : list T)
    (message : JsString) (picks : list nat) :
  items = first :: rest -> 1 <= concurrencyLimit ->
  worker first = Throws message ->
  processWithPool_calls items concurrencyLimit worker onProgress picks
  = Attempt (Pool (replicate (length items) None) 0 1 1 [] None 0 []) (Some message) [].
Proof.
  intros -> Hlim Hw.
  assert (Hstart : start_calls (first :: rest) concurrencyLimit worker
                   = Attempt (Pool (replicate (length (first :: rest)) None) 0 1 1 []
                                None 0 []) (Some message) []).
  { unfold start_calls, initialBatch.
    destruct (Z.to_nat (Z.min concurrencyLimit (Z.of_nat (length (first :: rest)))))
      as [|r] eqn:E; [cbn [length] in E; lia|].
    cbn [executor]. unfold processNext_call, initial.
    cbn [nextIndex length Nat.leb lookup list_lookup]. rewrite Hw. reflexivity. }
  unfold processWithPool_calls. rewrite Hstart.
  induction picks as [|pick picks IH] using rev_ind; [reflexivity|].
  rewrite fold_left_app, IH. reflexivity.
Qed.

End CallFacts.

Lemma omap_delete_None {A B : Type} (f : A -> option B) (l : list A) (k : nat) (x : A) :
  l !! k = Some x -> f x = None -> omap f (delete k l) = omap f l.
Proof.
  revert k. induction l as [|y l IH]; intros k Hk Hx; [discriminate|].
  destruct k as [|k].
  - injection Hk as ->. cbn [delete list_delete]. omap_step. rewrite Hx. reflexivity.
  - change (delete (S k) (y :: l)) with (y :: delete k l).
    omap_step. omap_step. rewrite (IH k Hk Hx). reflexivity.
Qed.

(** C2, as the code has it: fault isolation. Let the worker return a
    promise for every item, and let the promise for item [k] reject. With
    a limit of at least one and whatever the completion order: the run
    goes to its end, every item is dispatched and the promise is resolved
    with the truthy values of the results array, which is the collection
    the other items give without item [k]; the error, when it has a
    message, is written to the console; slot [k] of the results array
    stays a hole; every item whose worker fulfils has its value in its own
    slot, and when the value is truthy it is in the collection. When the
    workers of all other items fulfil, slot [k] is the only hole, and when
    their values are truthy the resolved collection is the results array
    without slot [k]. The run is the one of a worker whose calls all
    return; a call that throws instead on the first item leaves the
    executor: the returned promise is rejected, no other item is started
    and nothing happens afterwards. *)
Theorem processWithPool_fault_isolation {T : Type} (items : list T)
    (concurrencyLimit : Z) (processor : T -> Processor.settled)
    (onProgress : bool) (picks : list nat)
    (k : nat) (item_k : T) :
  1 <= concurrencyLimit ->
  (length items <= length picks)%nat ->
  items !! k = Some item_k ->
  (forall v, processor item_k <> Processor.Fulfilled v) ->
  let st := Processor.processWithPool items concurrencyLimit processor
              onProgress picks in
  Processor.pending st = []
  /\ Processor.nextIndex st = length items
  /\ Processor.resolved st = Some (Processor.filter_Boolean (Processor.results st))
  /\ Processor.resolved st
     = Some (Processor.expected_collection (delete k items) processor)
  /\ (forall message, processor item_k = Processor.Rejected message ->
        (lit "Error processing item: " ++ message) ∈ Processor.console st)
  /\ Processor.results st !! k = Some None
  /\ (forall i item v, items !! i = Some item ->
        processor item = Processor.Fulfilled v ->
        Processor.results st !! i = Some (Some v)
        /\ (Boolean v = true ->
            exists rs, Processor.resolved st = Some rs /\ v ∈ rs))
  /\ ((forall i item, i <> k -> items !! i = Some item ->
         exists v, processor item = Processor.Fulfilled v) ->
      forall i, (i < length items)%nat ->
        (Processor.results st !! i = Some None <-> i = k))
  /\ ((forall i item, i <> k -> items !! i = Some item ->
         exists v, processor item = Processor.Fulfilled v /\ Boolean v = true) ->
      exists rs, Processor.resolved st = Some rs
                 /\ Some <$> rs = delete k (Processor.results st))
  /\ (let a := Processor.processWithPool_calls items concurrencyLimit
                 (fun item => Processor.Returns (processor item)) onProgress picks in
      Processor.shared a = st /\ Processor.rejected a = None)
  /\ (forall (worker : T -> Processor.call) (message : JsString),
        k = 0%nat -> worker item_k = Processor.Throws message ->
        let a := Processor.processWithPool_calls items concurrencyLimit worker
                   onProgress picks in
        Processor.rejected a = Some message
        /\ Processor.resolved (Processor.shared a) = None
        /\ Processor.pending (Processor.shared a) = []
        /\ Processor.nextIndex (Processor.shared a) = 1%nat).
Proof.
  intros Hlim Hlen Hk Hrej st.
  assert (Hne : items <> []) by (intros ->; discriminate).
  assert (Hslot_k : Processor.slot_of (processor item_k) = None).
  { destruct (processor item_k) as [v| |]; [destruct (Hrej v eq_refl)| |]; reflexivity. }
  assert (Hkept_k : Processor.kept_of (processor item_k) = None).
  { destruct (processor item_k) as [v| |]; [destruct (Hrej v eq_refl)| |]; reflexivity. }
  pose proof (initialBatch_pos items concurrencyLimit Hlim Hne) as Hb.
  destruct (run_to_end items concurrencyLimit processor onProgress picks Hb Hlen)
    as (Hidle & HN & Hslots & Hres).
  pose proof (steady_run items concurrencyLimit processor onProgress picks)
    as [Hc _ _ _].
  fold st in Hidle, HN, Hslots, Hres, Hc.
  assert (Hslot : forall i item, items !! i = Some item ->
             Processor.results st !! i = Some (Processor.slot_of (processor item))).
  { intros i item Hi. rewrite Hslots. unfold Processor.expected_slots.
    change (map ?f items) with (f <$> items). rewrite list_lookup_fmap, Hi.
    reflexivity. }
  split; [exact Hidle|]. split; [exact HN|]. split.
  { rewrite Hres, Hslots, filter_Boolean_expected. reflexivity. }
  split.
  { rewrite Hres. unfold Processor.expected_collection.
    rewrite (omap_delete_None _ items k item_k Hk Hkept_k). reflexivity. }
  split.
  { intros message Hmsg.
    apply (Processor.rejections_logged _ _ _ Hc k item_k message Hk); [|exact Hmsg].
    unfold Processor.settled_at. rewrite Hidle, HN. split.
    - apply lookup_lt_Some in Hk. exact Hk.
    - apply not_elem_of_nil. }
  split.
  { rewrite (Hslot k item_k Hk), Hslot_k. reflexivity. }
  split.
  { intros i item v Hi Hv. split.
    - rewrite (Hslot i item Hi), Hv. reflexivity.
    - intros Hbv. exists (Processor.expected_collection items processor).
      split; [exact Hres|]. unfold Processor.expected_collection.
      apply list_elem_of_omap. exists item.
      split; [eapply list_elem_of_lookup_2; exact Hi|].
      rewrite Hv. cbn [Processor.kept_of]. rewrite Hbv. reflexivity. }
  split.
  { intros Hothers i Hi. split.
    - intros Hhole. destruct (decide (i = k)) as [|Hik]; [assumption|].
      apply lookup_lt_is_Some_2 in Hi as [item Hitem].
      destruct (Hothers i item Hik Hitem) as [v Hv].
      rewrite (Hslot i item Hitem), Hv in Hhole. discriminate.
    - intros ->. rewrite (Hslot k item_k Hk), Hslot_k. reflexivity. }
  split.
  { intros Hothers. exists (Processor.expected_collection items processor).
    split; [exact Hres|]. rewrite Hslots.
    unfold Processor.expected_collection, Processor.expected_slots.
    clear -Hk Hslot_k Hkept_k Hothers.
    revert k Hk Hothers. induction items as [|item l IH]; intros k Hk Hothers.
    - discriminate.
    - omap_step.
      cbn [map]. destruct k as [|k].
      + injection Hk as ->. rewrite Hkept_k, Hslot_k. cbn [delete list_delete].
        clear IH.
        assert (Hall : forall i item, l !! i = Some item ->
                   exists v, processor item = Processor.Fulfilled v /\ Boolean v = true).
        { intros i item Hi. apply (Hothers (S i) item); [lia|exact Hi]. }
        clear Hothers. induction l as [|x l IH]; [reflexivity|].
        omap_step.
        destruct (Hall 0%nat x eq_refl) as (v & Hv & Hbv).
        cbn [map]. rewrite Hv. cbn [Processor.kept_of Processor.slot_of].
        rewrite Hbv, fmap_cons. f_equal. apply IH.
        intros i item Hi. apply (Hall (S i) item Hi).
      + destruct (Hothers 0%nat item) as (v & Hv & Hbv); [lia|reflexivity|].
        rewrite Hv. cbn [Processor.kept_of Processor.slot_of delete list_delete].
        rewrite Hbv, fmap_cons. f_equal. apply (IH k Hk).
        intros i item' Hi Hitem'. apply (Hothers (S i) item'); [lia|exact Hitem']. }
  split.
  { cbn zeta. apply processWithPool_calls_returns. }
  intros worker message -> Hw a. unfold a.
  assert (Hitems : exists rest, items = item_k :: rest).
  { clear -Hk. destruct items as [|x rest]; [discriminate|].
    injection Hk as ->. exists rest. reflexivity. }
  destruct Hitems as [rest Hitems].
  rewrite (processWithPool_calls_throws items concurrencyLimit onProgress
             worker item_k rest message picks Hitems Hlim Hw).
  repeat split.
Qed.

Lemma processWithPool_fault_isolation_witness :
  let st := Processor.processWithPool Processor.sample_files 2
              Processor.failing_worker true [1; 0; 0]%nat in
  Processor.results st !! 0%nat = Some None
  /\ (forall i, (i < 3)%nat ->
        (Processor.results st !! i = Some None <-> i = 0%nat))
  /\ exists rs, Processor.resolved st = Some rs
                /\ Some <$> rs = delete 0%nat (Processor.results st).
Proof.
  destruct (processWithPool_fault_isolation Processor.sample_files 2
              Processor.failing_worker true [1; 0; 0]%nat
              0%nat (lit "a.txt"))
    as (_ & _ & _ & _ & _ & Hhole & _ & Honly & Hrest & _).
  - lia.
  - vm_compute. lia.
  - reflexivity.
  - intros v. discriminate.
  - split; [exact Hhole|]. split.
    + apply Honly. intros i item Hi Hitem.
      destruct i as [|[|[|i]]]; [contradiction| | |discriminate Hitem];
        injection Hitem as <-; eexists; reflexivity.
    + apply Hrest. intros i item Hi Hitem.
      destruct i as [|[|[|i]]]; [contradiction| | |discriminate Hitem];
        injection Hitem as <-; eexists; split; reflexivity.
Defined.

(** C2, as stated, fails: when the worker raises on the first of three
    files and gives 0 for the second and 3 for the third, the promise is
    resolved with 3 alone: the result 0 of the second file, whose worker
    did not fail, is not in the final collection. *)
Lemma fault_isolation_counterexample :
  Processor.resolved
    (Processor.processWithPool Processor.sample_files 2 Processor.failing_counter
       true [1; 0; 0]%nat)
  = Some [JNum 3]
  /\ omap (fun item => Processor.slot_of (Processor.failing_counter item))
       Processor.sample_files
     = [JNum 0; JNum 3]
  /\ ~ Stated.fault_isolation.
Proof.
  assert (E : Processor.resolved
                (Processor.processWithPool Processor.sample_files 2
                   Processor.failing_counter true [1; 0; 0]%nat)
              = Some [JNum 3]) by (vm_compute; reflexivity).
  split; [exact E|]. split; [vm_compute; reflexivity|].
  intros H.
  specialize (H Processor.sample_files 2 Processor.failing_counter [1; 0; 0]%nat
                0%nat (lit "a.txt") (lit "spawn failed")).
  rewrite E in H.
  assert (Hfalse : Some [JNum 3] = Some [JNum 0; JNum 3]).
  { rewrite H; [vm_compute; reflexivity|lia|vm_compute; lia|reflexivity|reflexivity]. }
  discriminate Hfalse.
Qed.

(** C3 fails on the empty list: with no item the executor never calls
    [processNext], so whatever the limit and however long one waits, nothing
    is in flight, every item (there is none) has been dispatched, and the
    promise is still pending. *)
Theorem processWithPool_empty_never_resolves {T : Type} (concurrencyLimit : Z)
    (processor : T -> Processor.settled) (onProgress : bool) (picks : list nat) :
  let st := Processor.processWithPool [] concurrencyLimit processor
              onProgress picks in
  Processor.pending st = []
  /\ Processor.nextIndex st = 0%nat
  /\ Processor.resolved st = None.
Proof.
  intros st.
  pose proof (steady_run [] concurrencyLimit processor onProgress picks)
    as [Hc Hle _ Hres].
  fold st in Hc, Hle, Hres.
  assert (Hb : Processor.initialBatch (@nil T) concurrencyLimit = 0%nat).
  { unfold Processor.initialBatch. simpl. lia. }
  rewrite Hb in Hle, Hres.
  assert (Hidle : Processor.pending st = []).
  { destruct (Processor.pending st); [reflexivity|simpl in Hle; lia]. }
  split; [exact Hidle|]. split.
  - pose proof (Processor.nextIndex_le _ _ _ Hc) as H. simpl in H. lia.
  - rewrite Hres, Hidle. reflexivity.
Qed.

(** For a list that is not empty, and a limit of at least one, the run
    does end: one completion per item resolves the promise. *)
Lemma processWithPool_resolves_nonempty {T : Type} (items : list T)
    (concurrencyLimit : Z) (processor : T -> Processor.settled)
    (onProgress : bool) (picks : list nat) :
  items <> [] -> 1 <= concurrencyLimit ->
  (length items <= length picks)%nat ->
  let st := Processor.processWithPool items concurrencyLimit processor
              onProgress picks in
  Processor.pending st = []
  /\ Processor.nextIndex st = length items
  /\ Processor.resolved st = Some (Processor.filter_Boolean (Processor.results st)).
Proof.
  intros Hne Hlim Hlen st.
  pose proof (initialBatch_pos items concurrencyLimit Hlim Hne) as Hb.
  destruct (run_to_end items concurrencyLimit processor onProgress picks Hb Hlen)
    as (Hidle & HN & Hslots & Hres).
  fold st in Hidle, HN, Hslots, Hres.
  split; [exact Hidle|]. split; [exact HN|].
  rewrite Hres, Hslots, filter_Boolean_expected. reflexivity.
Qed.

(** The rounds of the start loop, for any number as the limit. *)
Section NumberFacts.

Import Processor.







End NumberFacts.






Lemma expected_collection_falsy_as_failure {T : Type} (items : list T)
    (processor : T -> Processor.settled) :
  Processor.expected_collection items (Processor.falsy_as_failure processor)
  = Processor.expected_collection items processor.
Proof.
  unfold Processor.expected_collection.
  induction items as [|item l IH]; [reflexivity|].
  omap_step.
  rewrite IH. unfold Processor.falsy_as_failure at 1.
  destruct (processor item) as [v|m|]; [|reflexivity|reflexivity].
  cbn [Processor.kept_of]. destruct (Boolean v) eqn:Ev; [|reflexivity].
  cbn [Processor.kept_of]. rewrite Ev. reflexivity.
Qed.

(** C10: falsy results. For a non-empty list of items and a limit of at
    least one, whatever the completion order, the promise is resolved with
    a collection [rs] such that: a value is in [rs] exactly when it is
    truthy and the worker of some item fulfilled with it, so every element
    of [rs] is truthy; a worker that fulfils with a falsy value has that
    value in its slot of the results array and not in [rs]; and [rs] is
    also what the promise is resolved with when the worker raises on each
    item where it gave a falsy value. *)
Theorem processWithPool_falsy_dropped {T : Type} (items : list T)
    (concurrencyLimit : Z) (processor : T -> Processor.settled)
    (onProgress : bool) (picks : list nat) :
  items <> [] -> 1 <= concurrencyLimit ->
  (length items <= length picks)%nat ->
  let st := Processor.processWithPool items concurrencyLimit processor
              onProgress picks in
  exists rs : list JsValue,
    Processor.resolved st = Some rs
    /\ (forall v, v ∈ rs <->
          Boolean v = true
          /\ exists item, item ∈ items /\ processor item = Processor.Fulfilled v)
    /\ (forall i item v, items !! i = Some item ->
          processor item = Processor.Fulfilled v -> Boolean v = false ->
          Processor.results st !! i = Some (Some v) /\ v ∉ rs)
    /\ Processor.resolved
         (Processor.processWithPool items concurrencyLimit
            (Processor.falsy_as_failure processor) onProgress picks)
       = Some rs.
Proof.
  intros Hne Hlim Hlen st.
  pose proof (initialBatch_pos items concurrencyLimit Hlim Hne) as Hb.
  destruct (run_to_end items concurrencyLimit processor onProgress picks Hb Hlen)
    as (_ & _ & Hslots & Hres).
  destruct (run_to_end items concurrencyLimit (Processor.falsy_as_failure processor)
              onProgress picks Hb Hlen) as (_ & _ & _ & Hres').
  fold st in Hslots, Hres.
  exists (Processor.expected_collection items processor).
  assert (Hmem : forall v,
             v ∈ Processor.expected_collection items processor <->
             Boolean v = true
             /\ exists item, item ∈ items /\ processor item = Processor.Fulfilled v).
  { intros v. unfold Processor.expected_collection. rewrite list_elem_of_omap.
    split.
    - intros (item & Hin & Hkept). unfold Processor.kept_of in Hkept.
      destruct (processor item) as [w|m|] eqn:Hw; [|discriminate|discriminate].
      destruct (Boolean w) eqn:Ew; [|discriminate].
      injection Hkept as <-. split; [exact Ew|]. exists item. auto.
    - intros (Ev & item & Hin & Hv). exists item. split; [exact Hin|].
      unfold Processor.kept_of. rewrite Hv, Ev. reflexivity. }
  split; [exact Hres|]. split; [exact Hmem|]. split.
  - intros i item v Hi Hv Hfalsy. split.
    + rewrite Hslots. unfold Processor.expected_slots.
      change (map ?f items) with (f <$> items). rewrite list_lookup_fmap, Hi.
      simpl. rewrite Hv. reflexivity.
    + intros Hin. apply Hmem in Hin as [Htrue _]. congruence.
  - rewrite Hres', expected_collection_falsy_as_failure. reflexivity.
Qed.

Lemma processWithPool_falsy_dropped_witness :
  exists rs : list JsValue,
    Processor.resolved
      (Processor.processWithPool Processor.sample_files 2
         Processor.counting_worker true [0; 1; 0]%nat) = Some rs
    /\ JNum 0 ∉ rs.
Proof.
  destruct (processWithPool_falsy_dropped Processor.sample_files 2
              Processor.counting_worker true [0; 1; 0]%nat)
    as (rs & Hres & _ & Hfalsy & _).
  - discriminate.
  - lia.
  - vm_compute. lia.
  - exists rs. split; [exact Hres|].
    apply (Hfalsy 1%nat (lit "b.txt") (JNum 0)); reflexivity.
Defined.

(** ** The aggregation *)

Section OutputFacts.
Import Output.

Section OwnProperties.

Context {V : Type}.
Implicit Types (o : list (JsString * V)) (v : V).

Lemma get_store_eq (k : JsString) v o : get k (store k v o) = Some v.
Proof.
  induction o as [|[k' v'] o IH]; simpl.
  - rewrite strict_eq_refl. reflexivity.
  - destruct (strict_eq k' k) eqn:E; simpl; rewrite E; [reflexivity|exact IH].
Qed.

Lemma get_store_ne (k k2 : JsString) v o :
  k <> k2 -> get k2 (store k v o) = get k2 o.
Proof.
  intros Hne. induction o as [|[k' v'] o IH]; simpl.
  - rewrite strict_eq_neq by exact Hne. reflexivity.
  - destruct (strict_eq k' k) eqn:E; simpl.
    + apply strict_eq_spec in E. subst k'.
      rewrite (strict_eq_neq k k2 Hne). reflexivity.
    + rewrite IH. reflexivity.
Qed.

Lemma keys_store (k : JsString) v o :
  (store k v o).*1 = if get k o is Some _ then o.*1 else o.*1 ++ [k].
Proof.
  induction o as [|[k' v'] o IH]; [reflexivity|].
  cbn [store get]. destruct (strict_eq k' k) eqn:E; [reflexivity|].
  rewrite !fmap_cons, IH. destruct (get k o); reflexivity.
Qed.

Lemma elem_of_store (k : JsString) v o (e : JsString * V) :
  e ∈ store k v o -> e = (k, v) \/ e ∈ o.
Proof.
  induction o as [|[k' v'] o IH]; cbn [store].
  - intros H. apply list_elem_of_singleton in H. left. exact H.
  - destruct (strict_eq k' k) eqn:E.
    + apply strict_eq_spec in E. subst k'. rewrite !elem_of_cons. intros [->|H]; auto.
    + rewrite !elem_of_cons. intros [->|H]; [auto|].
      destruct (IH H); auto.
Qed.

(** An assignment to [__proto__] changes nothing; any other assignment
    defines the property. *)
Lemma set_PROTO v o : set PROTO v o = o.
Proof. unfold set. rewrite strict_eq_refl. reflexivity. Qed.

Lemma set_store (k : JsString) v o : k <> PROTO -> set k v o = store k v o.
Proof. intros H. unfold set. rewrite (strict_eq_neq _ _ H). reflexivity. Qed.

Lemma get_set_eq (k : JsString) v o : k <> PROTO -> get k (set k v o) = Some v.
Proof. intros H. rewrite set_store by exact H. apply get_store_eq. Qed.

Lemma get_set_ne (k k2 : JsString) v o :
  k <> k2 -> get k2 (set k v o) = get k2 o.
Proof.
  intros Hne. unfold set. destruct (strict_eq k PROTO); [reflexivity|].
  apply get_store_ne, Hne.
Qed.

Lemma keys_set (k : JsString) v o :
  (set k v o).*1
  = if strict_eq k PROTO then o.*1
    else if get k o is Some _ then o.*1 else o.*1 ++ [k].
Proof. unfold set. destruct (strict_eq k PROTO); [reflexivity|apply keys_store]. Qed.

Lemma get_None_keys (k : JsString) o : get k o = None -> k ∉ o.*1.
Proof.
  induction o as [|[k' v'] o IH]; simpl; intros H.
  - apply not_elem_of_nil.
  - destruct (strict_eq k' k) eqn:E; [discriminate|].
    apply not_elem_of_cons. split; [|exact (IH H)].
    intros ->. rewrite strict_eq_refl in E. discriminate.
Qed.

Lemma get_Some_elem (k : JsString) v o : get k o = Some v -> (k, v) ∈ o.
Proof.
  induction o as [|[k' v'] o IH]; [discriminate|]. cbn [get].
  destruct (strict_eq k' k) eqn:E.
  - apply strict_eq_spec in E. subst k'. intros [= ->]. left.
  - intros H. right. exact (IH H).
Qed.

Lemma get_Some_elem_of (k : JsString) v o :
  NoDup o.*1 -> (k, v) ∈ o <-> get k o = Some v.
Proof.
  induction o as [|[k' v'] o IH]; intros Hnd.
  - simpl. split; [intros H; apply elem_of_nil in H; contradiction|discriminate].
  - rewrite fmap_cons in Hnd. apply NoDup_cons in Hnd as [Hnot Hnd].
    cbn [get]. rewrite elem_of_cons. destruct (strict_eq k' k) eqn:E.
    + apply strict_eq_spec in E. subst k'. split.
      * intros [[= ->]|Hin]; [reflexivity|].
        exfalso. apply Hnot. apply list_elem_of_fmap. exists (k, v). auto.
      * intros [= ->]. left. reflexivity.
    + rewrite <- (IH Hnd). split.
      * intros [[= -> ->]|Hin]; [|exact Hin].
        rewrite strict_eq_refl in E. discriminate.
      * intros Hin. right. exact Hin.
Qed.

Lemma keys_NoDup_store (k : JsString) v o : NoDup o.*1 -> NoDup (store k v o).*1.
Proof.
  intros Hnd. rewrite keys_store. destruct (get k o) eqn:E; [exact Hnd|].
  apply NoDup_app. split; [exact Hnd|]. split; [|apply NoDup_singleton].
  intros x Hx Hx'. apply list_elem_of_singleton in Hx'. subst x.
  exact (get_None_keys k o E Hx).
Qed.

End OwnProperties.

(** What the properties that hold a number are for one identity after
    the numeric step has gone through [l], starting from [acc]. *)
Lemma get_fold_count_number (l : list JsString) (acc : JsRecord) (a : JsString) :
  get a (fold_left count_number l acc)
  = if truthy_string (trim a) && negb (inherited a)
    then match count_occ JsString_eq_dec l a with
         | O => get a acc
         | S n => Some (default 0 (get a acc) + Z.of_nat (S n))
         end
    else get a acc.
Proof.
  revert acc; induction l as [|b l IH]; intros acc.
  - simpl. destruct (truthy_string (trim a) && negb (inherited a)); reflexivity.
  - cbn [fold_left]. rewrite IH. cbn [count_occ].
    destruct (JsString_eq_dec b a) as [->|Hne].
    + destruct (truthy_string (trim a) && negb (inherited a)) eqn:Ea.
      * assert (Hget : get a (count_number acc a)
                       = Some (default 0 (get a acc) + 1)).
        { unfold count_number. rewrite Ea. apply get_store_eq. }
        rewrite Hget. cbn [default].
        destruct (count_occ JsString_eq_dec l a); apply (f_equal Some); unfold id; lia.
      * unfold count_number. rewrite Ea. reflexivity.
    + assert (Hget : get a (count_number acc b) = get a acc).
      { unfold count_number.
        destruct (truthy_string (trim b) && negb (inherited b)); [|reflexivity].
        apply get_store_ne, Hne. }
      rewrite Hget. reflexivity.
Qed.

Lemma keys_NoDup_fold (l : list JsString) (acc : JsRecord) :
  NoDup acc.*1 -> NoDup (fold_left count_number l acc).*1.
Proof.
  revert acc; induction l as [|b l IH]; intros acc Hnd; [exact Hnd|].
  cbn [fold_left]. apply IH. unfold count_number.
  destruct (truthy_string (trim b) && negb (inherited b)); [|exact Hnd].
  apply keys_NoDup_store, Hnd.
Qed.

Lemma kinded_count_author (o : JsObject) (a : JsString) :
  kinded o -> kinded (count_author o a).
Proof.
  intros Hk. unfold count_author.
  destruct (truthy_string (trim a)); [|exact Hk].
  unfold set. destruct (strict_eq a PROTO); [exact Hk|].
  intros k h Hin. apply elem_of_store in Hin as [[= Ek Eh]|Hin]; [|exact (Hk k h Hin)].
  subst k h.
  destruct (get a o) as [[n|ones]|] eqn:E; cbn [next_value].
  - apply get_Some_elem in E. exact (Hk _ _ E).
  - apply get_Some_elem in E. exact (Hk _ _ E).
  - destruct (inherited a); reflexivity.
Qed.

Lemma counts_store_Count (o : JsObject) (a : JsString) (v : Z) :
  kinded o -> inherited a = false ->
  counts (store a (Count v) o) = store a v (counts o).
Proof.
  intros Hk Ha. induction o as [|[k' h'] o IH]; [reflexivity|].
  assert (Hk' : kinded o) by (intros k h Hin; apply Hk; right; exact Hin).
  cbn [store]. destruct (strict_eq k' a) eqn:E.
  - apply strict_eq_spec in E. subst k'.
    pose proof (Hk a h' ltac:(left)) as Hh. rewrite Ha in Hh.
    destruct h' as [n|ones]; [|discriminate Hh].
    unfold counts. omap_step. omap_step. cbn [snd fst store].
    rewrite strict_eq_refl. reflexivity.
  - unfold counts in *. omap_step. omap_step. cbn [snd fst].
    destruct h' as [n|ones].
    + cbn [store]. rewrite E, (IH Hk'). reflexivity.
    + exact (IH Hk').
Qed.

Lemma counts_store_Text (o : JsObject) (a : JsString) (ones : nat) :
  kinded o -> inherited a = true ->
  counts (store a (Text ones) o) = counts o.
Proof.
  intros Hk Ha. induction o as [|[k' h'] o IH]; [reflexivity|].
  assert (Hk' : kinded o) by (intros k h Hin; apply Hk; right; exact Hin).
  cbn [store]. destruct (strict_eq k' a) eqn:E.
  - apply strict_eq_spec in E. subst k'.
    pose proof (Hk a h' ltac:(left)) as Hh. rewrite Ha in Hh.
    destruct h' as [n|ones']; [discriminate Hh|].
    unfold counts. omap_step. omap_step. reflexivity.
  - unfold counts in *. omap_step. omap_step. rewrite (IH Hk'). reflexivity.
Qed.

Lemma get_counts (o : JsObject) (a : JsString) :
  kinded o -> inherited a = false ->
  get a (counts o) = match get a o with
                     | Some (Count n) => Some n
                     | Some (Text _) | None => None
                     end.
Proof.
  intros Hk Ha. induction o as [|[k' h'] o IH]; [reflexivity|].
  assert (Hk' : kinded o) by (intros k h Hin; apply Hk; right; exact Hin).
  unfold counts in *. omap_step. cbn [snd fst get].
  destruct (strict_eq k' a) eqn:E.
  - apply strict_eq_spec in E. subst k'.
    pose proof (Hk a h' ltac:(left)) as Hh. rewrite Ha in Hh.
    destruct h' as [n|ones]; [|discriminate Hh].
    cbn [get]. rewrite strict_eq_refl. reflexivity.
  - destruct h' as [n|ones]; [cbn [get]; rewrite E|]; exact (IH Hk').
Qed.

Lemma inherited_PROTO : inherited PROTO = true.
Proof. reflexivity. Qed.

(** The numeric step is what the loop body does to the numbers. *)
Lemma counts_count_author (o : JsObject) (a : JsString) :
  kinded o -> counts (count_author o a) = count_number (counts o) a.
Proof.
  intros Hk. unfold count_author, count_number.
  destruct (truthy_string (trim a)); [|reflexivity]. cbn [andb].
  destruct (inherited a) eqn:Ha; cbn [negb].
  - unfold set. destruct (strict_eq a PROTO); [reflexivity|].
    destruct (get a o) as [[n|ones]|] eqn:E; cbn [next_value].
    + apply get_Some_elem in E. apply Hk in E. rewrite Ha in E. discriminate E.
    + apply counts_store_Text; assumption.
    + rewrite Ha. apply counts_store_Text; assumption.
  - assert (Hne : a <> PROTO) by (intros ->; rewrite inherited_PROTO in Ha; discriminate).
    rewrite set_store by exact Hne.
    rewrite (get_counts o a Hk Ha).
    destruct (get a o) as [[n|ones]|] eqn:E; cbn [next_value default].
    + apply counts_store_Count; assumption.
    + apply get_Some_elem in E. apply Hk in E. rewrite Ha in E. discriminate E.
    + rewrite Ha. apply counts_store_Count; assumption.
Qed.

Lemma fold_count_author_counts (l : list JsString) (acc : JsObject) :
  kinded acc ->
  counts (fold_left count_author l acc) = fold_left count_number l (counts acc).
Proof.
  revert acc; induction l as [|b l IH]; intros acc Hk; [reflexivity|].
  cbn [fold_left]. rewrite (IH _ (kinded_count_author acc b Hk)).
  rewrite (counts_count_author acc b Hk). reflexivity.
Qed.

Lemma authorCounts_fold (l : list JsString) :
  authorCounts l = fold_left count_number l [].
Proof.
  unfold authorCounts, authorCounts_object.
  apply (fold_count_author_counts l []).
  intros k h Hin. apply elem_of_nil in Hin. contradiction.
Qed.

Lemma concat_Permutation (r1 r2 : list (list JsString)) :
  Permutation r1 r2 -> Permutation (concat r1) (concat r2).
Proof.
  induction 1 as [|x l l' _ IH|x y l|l l' l'' _ IH1 _ IH2]; simpl.
  - constructor.
  - apply Permutation_app_head, IH.
  - rewrite !app_assoc. apply Permutation_app_tail, Permutation_app_comm.
  - etransitivity; eassumption.
Qed.

Lemma authorCounts_NoDup (l : list JsString) : NoDup (authorCounts l).*1.
Proof. rewrite authorCounts_fold. apply keys_NoDup_fold. apply NoDup_nil_2. Qed.

Lemma get_authorCounts (l : list JsString) (a : JsString) :
  get a (authorCounts l)
  = if truthy_string (trim a) && negb (inherited a)
    then match count_occ JsString_eq_dec l a with
         | O => None
         | S n => Some (Z.of_nat (S n))
         end
    else None.
Proof.
  rewrite authorCounts_fold, get_fold_count_number. cbn [get default].
  destruct (truthy_string (trim a) && negb (inherited a)); [|reflexivity].
  destruct (count_occ JsString_eq_dec l a); [reflexivity|].
  apply (f_equal Some). unfold id. lia.
Qed.

(** What the object holds for one identity after the loop has gone
    through [l], starting from [acc]. *)
Lemma get_fold_count_author (l : list JsString) (acc : JsObject) (a : JsString) :
  get a (fold_left count_author l acc)
  = if truthy_string (trim a) && negb (strict_eq a PROTO)
    then Nat.iter (count_occ JsString_eq_dec l a)
           (fun own => Some (next_value a own)) (get a acc)
    else get a acc.
Proof.
  revert acc; induction l as [|b l IH]; intros acc.
  - simpl. destruct (truthy_string (trim a) && negb (strict_eq a PROTO)); reflexivity.
  - cbn [fold_left]. rewrite IH. cbn [count_occ].
    destruct (JsString_eq_dec b a) as [->|Hne].
    + unfold count_author. destruct (truthy_string (trim a)) eqn:Ea; [|reflexivity].
      cbn [andb]. destruct (strict_eq a PROTO) eqn:Ep; cbn [negb].
      * unfold set. rewrite Ep. reflexivity.
      * rewrite Nat.iter_succ_r. f_equal. apply get_set_eq.
        intros ->. rewrite strict_eq_refl in Ep. discriminate.
    + assert (Hget : get a (count_author acc b) = get a acc).
      { unfold count_author. destruct (truthy_string (trim b)); [|reflexivity].
        apply get_set_ne, Hne. }
      rewrite Hget. reflexivity.
Qed.

Lemma iter_next_value (a : JsString) (n : nat) :
  Nat.iter (S n) (fun own => Some (next_value a own)) None
  = Some (if inherited a then Text (S n) else Count (Z.of_nat (S n))).
Proof.
  induction n as [|n IH].
  - cbn [Nat.iter nat_rect next_value]. destruct (inherited a); reflexivity.
  - rewrite Nat.iter_succ, IH. destruct (inherited a); cbn [next_value]; [reflexivity|].
    do 2 f_equal. lia.
Qed.

Lemma get_authorCounts_object (l : list JsString) (a : JsString) :
  get a (authorCounts_object l)
  = if truthy_string (trim a) && negb (strict_eq a PROTO)
    then match count_occ JsString_eq_dec l a with
         | O => None
         | S n => Some (if inherited a then Text (S n) else Count (Z.of_nat (S n)))
         end
    else None.
Proof.
  unfold authorCounts_object. rewrite get_fold_count_author. cbn [get].
  destruct (truthy_string (trim a) && negb (strict_eq a PROTO)); [|reflexivity].
  destruct (count_occ JsString_eq_dec l a) as [|n]; [reflexivity|].
  apply iter_next_value.
Qed.

Lemma authorCounts_object_NoDup (l : list JsString) : NoDup (authorCounts_object l).*1.
Proof.
  unfold authorCounts_object.
  assert (H : forall acc : JsObject, NoDup acc.*1 -> NoDup (fold_left count_author l acc).*1).
  { induction l as [|b l IH]; intros acc Hnd; [exact Hnd|].
    cbn [fold_left]. apply IH. unfold count_author.
    destruct (truthy_string (trim b)); [|exact Hnd].
    unfold set. destruct (strict_eq b PROTO); [exact Hnd|].
    apply keys_NoDup_store, Hnd. }
  apply H, NoDup_nil_2.
Qed.

(** The functions of [Object.prototype] have names without white space,
    other than [__proto__]. *)
Lemma inherits_function_name (a : JsString) :
  inherits_function a = true ->
  truthy_string (trim a) = true /\ strict_eq a PROTO = false /\ inherited a = true.
Proof.
  intros H. unfold inherited. rewrite H, orb_true_r.
  unfold inherits_function in H. apply existsb_exists in H as (name & Hin & E).
  apply strict_eq_spec in E. subst name.
  unfold prototype_functions in Hin.
  repeat (destruct Hin as [<-|Hin]; [repeat split; vm_compute; reflexivity|]).
  destruct Hin.
Qed.

(** Without an author named after a function of [Object.prototype] every
    property holds a number. *)
Lemma fold_count_author_numbers (l : list JsString) (acc : JsObject) :
  Forall (fun a => inherits_function a = false) l ->
  Forall (fun e => is_count (snd e) = true) acc ->
  Forall (fun e => is_count (snd e) = true) (fold_left count_author l acc).
Proof.
  revert acc; induction l as [|b l IH]; intros acc Hl Hacc; [exact Hacc|].
  apply Forall_cons in Hl as [Hb Hl]. cbn [fold_left]. apply IH; [exact Hl|].
  unfold count_author. destruct (truthy_string (trim b)); [|exact Hacc].
  unfold set. destruct (strict_eq b PROTO) eqn:Ep; [exact Hacc|].
  apply Forall_forall. intros e He.
  apply elem_of_store in He as [->|He]; [|rewrite Forall_forall in Hacc; exact (Hacc e He)].
  cbn [snd]. destruct (get b acc) as [[n|ones]|] eqn:E; cbn [next_value].
  - reflexivity.
  - apply get_Some_elem in E. rewrite Forall_forall in Hacc.
    apply Hacc in E. discriminate E.
  - unfold inherited. rewrite Ep, Hb. reflexivity.
Qed.

Lemma counts_numbers (o : JsObject) :
  Forall (fun e => is_count (snd e) = true) o ->
  o = (fun e : JsString * Z => (fst e, Count (snd e))) <$> counts o.
Proof.
  induction 1 as [|[k h] o Hh _ IH]; [reflexivity|].
  unfold counts in *. omap_step. cbn [snd fst] in *.
  destruct h as [n|ones]; [|discriminate Hh].
  rewrite fmap_cons. cbn [fst snd]. f_equal. exact IH.
Qed.

Lemma authorCounts_object_numbers (l : list JsString) :
  Forall (fun a => inherits_function a = false) l ->
  authorCounts_object l
  = (fun e : JsString * Z => (fst e, Count (snd e))) <$> authorCounts l.
Proof.
  intros Hl. unfold authorCounts. apply counts_numbers.
  apply fold_count_author_numbers; [exact Hl|constructor].
Qed.

End OutputFacts.

(** ** The general tally *)

(** C8 fails on an identity named after a property of [Object.prototype].
    Folding the same per-file records in any order does give the same
    object: the same value under every name, each name once, so the same
    properties. Under a name that [Object.prototype] does not define the
    object holds the number of lines whose identity is that very string,
    for an identity with a character that is not white space; an identity
    with none is not in it. But the identity [__proto__] is never in the
    object, however many lines it has, and under the name of an inherited
    function ([constructor], [toString], ...) the object holds a string,
    not a count, so that the record of numbers has no entry for it. When
    no author has such a name, the object is the record of numbers. *)
Theorem general_tally_prototype_names (records : list (list JsString)) :
  let object := Cli.general_tally_object records in
  let occurrences := count_occ JsString_eq_dec (concat records) in
  (forall shuffled : list (list JsString),
      Permutation records shuffled ->
      (forall author : JsString,
          Output.get author (Cli.general_tally_object shuffled)
          = Output.get author object)
      /\ Permutation (Cli.general_tally_object shuffled) object
      /\ Permutation (Cli.general_tally shuffled) (Cli.general_tally records))
  /\ NoDup object.*1
  /\ (forall author : JsString,
        Output.inherited author = false ->
        Output.get author object
        = if truthy_string (trim author)
          then match occurrences author with
               | O => None
               | S n => Some (Output.Count (Z.of_nat (S n)))
               end
          else None)
  /\ (forall author : JsString,
        forallb is_white_space author = true -> Output.get author object = None)
  /\ (Output.get Output.PROTO object = None
      /\ Output.get Output.PROTO (Cli.general_tally records) = None)
  /\ (forall (author : JsString) (n : nat),
        Output.inherits_function author = true -> occurrences author = S n ->
        Output.get author object = Some (Output.Text (S n))
        /\ Output.get author (Cli.general_tally records) = None)
  /\ (Forall (fun author => Output.inherits_function author = false) (concat records) ->
      object
      = (fun e : JsString * Z => (fst e, Output.Count (snd e)))
          <$> Cli.general_tally records).
Proof.
  intros object occurrences. unfold object, occurrences, Cli.general_tally_object,
    Cli.general_tally.
  split.
  { intros shuffled Hperm. apply concat_Permutation in Hperm.
    assert (Hget : forall author : JsString,
               Output.get author (Output.authorCounts_object (concat shuffled))
               = Output.get author (Output.authorCounts_object (concat records))).
    { intros author. rewrite !get_authorCounts_object.
      rewrite (proj1 (Permutation_count_occ JsString_eq_dec _ _) Hperm author).
      reflexivity. }
    assert (Hnum : forall author : JsString,
               Output.get author (Output.authorCounts (concat shuffled))
               = Output.get author (Output.authorCounts (concat records))).
    { intros author. rewrite !get_authorCounts.
      rewrite (proj1 (Permutation_count_occ JsString_eq_dec _ _) Hperm author).
      reflexivity. }
    split; [exact Hget|]. split.
    - apply NoDup_Permutation.
      + eapply NoDup_fmap_1, authorCounts_object_NoDup.
      + eapply NoDup_fmap_1, authorCounts_object_NoDup.
      + intros [k v]. rewrite !get_Some_elem_of by apply authorCounts_object_NoDup.
        rewrite Hget. reflexivity.
    - apply NoDup_Permutation.
      + eapply NoDup_fmap_1, authorCounts_NoDup.
      + eapply NoDup_fmap_1, authorCounts_NoDup.
      + intros [k v]. rewrite !get_Some_elem_of by apply authorCounts_NoDup.
        rewrite Hnum. reflexivity. }
  split; [apply authorCounts_object_NoDup|]. split.
  { intros author Hinh. rewrite get_authorCounts_object.
    unfold Output.inherited in Hinh. apply orb_false_iff in Hinh as [Hp Hf].
    unfold Output.inherited. rewrite Hp, Hf. cbn [negb orb]. rewrite andb_true_r.
    reflexivity. }
  split.
  { intros author Hws. rewrite get_authorCounts_object.
    apply trim_nil_iff in Hws. rewrite Hws. reflexivity. }
  split.
  { split.
    - rewrite get_authorCounts_object, strict_eq_refl, andb_false_r. reflexivity.
    - rewrite get_authorCounts, inherited_PROTO, andb_false_r. reflexivity. }
  split.
  { intros author n Hf Hn. destruct (inherits_function_name author Hf) as (Ht & Hp & Hi).
    split.
    - rewrite get_authorCounts_object, Ht, Hp, Hn, Hi. reflexivity.
    - rewrite get_authorCounts, Hi, andb_false_r. reflexivity. }
  apply authorCounts_object_numbers.
Qed.

Lemma general_tally_prototype_names_witness :
  let a := [lit "X"; lit "__proto__"; lit "constructor"] in
  let b := [lit "constructor"; lit "X"; lit "Y"] in
  Cli.general_tally_object [a; b]
  = [(lit "X", Output.Count 2); (lit "constructor", Output.Text 2);
     (lit "Y", Output.Count 1)]
  /\ Cli.general_tally [a; b] = [(lit "X", 2); (lit "Y", 1)]
  /\ Permutation (Cli.general_tally_object [b; a]) (Cli.general_tally_object [a; b])
  /\ Output.get (lit "constructor") (Cli.general_tally_object [a; b])
     = Some (Output.Text 2).
Proof.
  intros a b. split; [vm_compute; reflexivity|]. split; [vm_compute; reflexivity|].
  destruct (general_tally_prototype_names [a; b]) as (Hperm & _ & _ & _ & _ & Hf & _).
  split.
  - apply (Hperm [b; a]). apply perm_swap.
  - apply (Hf (lit "constructor") 1%nat); vm_compute; reflexivity.
Defined.

(** ** The sorted views *)

Section SortFacts.
Import Output.

Lemma sort_insert_Permutation (x : JsString * Z) (l : list (JsString * Z)) :
  Permutation (sort_insert by_count x l) (x :: l).
Proof.
  induction l as [|y r IH]; simpl; [reflexivity|].
  destruct (by_count x y <=? 0); [reflexivity|].
  rewrite IH. apply perm_swap.
Qed.

Lemma Array_sort_Permutation (l : list (JsString * Z)) :
  Permutation (Array_sort by_count l) l.
Proof.
  induction l as [|x r IH]; simpl; [reflexivity|].
  rewrite sort_insert_Permutation, IH. reflexivity.
Qed.





End SortFacts.



(** * Further properties of the code *)

(** ** Remote repositories and the command line *)

Section RemoteFacts.

Lemma startsWith_spec (p s : JsString) :
  startsWith p s = true <-> exists r, s = p ++ r.
Proof.
  revert s; induction p as [|x p IH]; intros s; simpl.
  - split; [intros _; exists s; reflexivity|reflexivity].
  - destruct s as [|y s].
    + split; [discriminate|intros [r Hr]; discriminate Hr].
    + rewrite andb_true_iff, N.eqb_eq, IH. split.
      * intros [-> [r ->]]. exists r. reflexivity.
      * intros [r [= -> ->]]. split; [reflexivity|exists r; reflexivity].
Qed.

Lemma endsWith_spec (p s : JsString) :
  endsWith p s = true <-> exists b, s = b ++ p.
Proof.
  unfold endsWith. rewrite startsWith_spec. split.
  - intros [r Hr]. exists (rev r).
    rewrite <- (rev_involutive s), Hr, rev_app_distr, rev_involutive. reflexivity.
  - intros [b ->]. exists (rev b). apply rev_app_distr.
Qed.

Lemma name_char_sanitize (s : JsString) :
  forallb Remote.name_char (Remote.sanitize s) = true.
Proof.
  induction s as [|c s IH]; [reflexivity|].
  unfold Remote.sanitize in *. cbn [map forallb]. rewrite IH, andb_true_r.
  destruct (Remote.name_char c) eqn:E; [exact E|reflexivity].
Qed.

Lemma name_char_repoName (repoUrl : JsString) :
  forallb Remote.name_char (Remote.repoName repoUrl) = true
  /\ truthy_string (Remote.repoName repoUrl) = true.
Proof.
  unfold Remote.repoName.
  destruct (last (Remote.split_on SLASH repoUrl)) as [piece|]; [|split; reflexivity].
  destruct (truthy_string (Remote.sanitize (Remote.strip_git_suffix piece))) eqn:E.
  - split; [apply name_char_sanitize|exact E].
  - split; reflexivity.
Qed.

Lemma name_char_uint_units (d : Decimal.uint) :
  forallb Remote.name_char (Remote.uint_units d) = true.
Proof. induction d; simpl; try reflexivity; exact IHd. Qed.

End RemoteFacts.

(** X1: which inputs count as remote. [isRemoteUrl] accepts exactly the
    strings that begin with one of [http://], [https://], [git@],
    [ssh://], [git://], and the strings that end in [.git] (so also a
    local path that ends in [.git]). *)
Theorem isRemoteUrl_iff (input : JsString) :
  Remote.isRemoteUrl input = true <->
  (exists scheme rest : JsString,
      scheme ∈ [lit "http://"; lit "https://"; lit "git@"; lit "ssh://"; lit "git://"]
      /\ input = scheme ++ rest)
  \/ (exists base : JsString, input = base ++ lit ".git").
Proof.
  unfold Remote.isRemoteUrl, Remote.remotePatterns. cbn [existsb].
  rewrite !orb_true_iff, !startsWith_spec, endsWith_spec. split.
  - intros [[[r H]|[r H]]|[[r H]|[[r H]|[[r H]|[[b H]|H]]]]];
      try discriminate H;
      try (left; eexists; exists r; split; [|exact H]; rewrite !elem_of_cons; auto 10).
    right. exists b. exact H.
  - intros [(scheme & rest & Hin & ->)|[b ->]].
    + rewrite !elem_of_cons in Hin.
      destruct Hin as [->|[->|[->|[->|[->|Hin]]]]];
        [ left; left | left; right | right; left | right; right; left
        | right; right; right; left | apply elem_of_nil in Hin; contradiction ];
        exists rest; reflexivity.
    + right; right; right; right; left. exists b. reflexivity.
Qed.

Lemma isRemoteUrl_iff_witness :
  Remote.isRemoteUrl (lit "./backup/repo.git") = true.
Proof.
  apply isRemoteUrl_iff. right. exists (lit "./backup/repo"). reflexivity.
Defined.

(** X2: the name of the clone directory. Whatever the repository URL and
    the clock (even one set before 1970, whose time value is negative),
    the last component of the path stands for itself: it is
    made of letters, digits, [-] and [_] only, so it holds no separator
    and no dot, it starts with [gala_], and the repository part is never
    empty. *)
Theorem tempDirName_safe (repoUrl : JsString) (timestamp : Z) :
  forallb Remote.name_char (Remote.tempDirName repoUrl timestamp) = true
  /\ includes SLASH (Remote.tempDirName repoUrl timestamp) = false
  /\ includes 46%N (Remote.tempDirName repoUrl timestamp) = false
  /\ startsWith (lit "gala_") (Remote.tempDirName repoUrl timestamp) = true
  /\ Remote.repoName repoUrl <> [].
Proof.
  assert (Hall : forallb Remote.name_char (Remote.tempDirName repoUrl timestamp) = true).
  { unfold Remote.tempDirName, Remote.number_toString.
    rewrite !forallb_app. destruct (name_char_repoName repoUrl) as [-> _].
    destruct (timestamp <? 0); cbn [forallb]; rewrite name_char_uint_units;
      reflexivity. }
  assert (Hnot : forall c : N, Remote.name_char c = false ->
             includes c (Remote.tempDirName repoUrl timestamp) = false).
  { intros c Hc. unfold includes.
    destruct (existsb (N.eqb c) _) eqn:E; [|reflexivity].
    apply existsb_exists in E as (x & Hx & Hcx). apply N.eqb_eq in Hcx. subst x.
    rewrite forallb_forall in Hall. rewrite (Hall c Hx) in Hc. discriminate. }
  split; [exact Hall|]. split; [apply Hnot; reflexivity|].
  split; [apply Hnot; reflexivity|]. split.
  - apply startsWith_spec. eexists. reflexivity.
  - destruct (name_char_repoName repoUrl) as [_ H].
    destruct (Remote.repoName repoUrl); [discriminate|discriminate].
Qed.

(** Induction on the length of a list, for loops that take one or two
    elements at a time. *)
Ltac length_induction args IH :=
  let n := fresh "n" in
  let Hlen := fresh "Hlen" in
  assert (Hlen : (length args <= length args)%nat) by lia;
  revert Hlen; generalize (length args) at 2; intros n; revert args;
  induction n as [|n IH]; intros args Hlen.

Section ArgsFacts.
Import Args.

Lemma positional_target (arg : JsString) (st : parsing) :
  target st = None -> target (positional arg st) = None.
Proof.
  intros H. unfold positional. rewrite H.
  destruct (negb (startsWith (lit "-") arg)); [|exact H].
  destruct (falsy (user st)); [reflexivity|exact H].
Qed.

Lemma parse_loop_target (args : list JsString) (st : parsing) :
  target st = None -> target (parse_loop args st) = None.
Proof.
  revert st. length_induction args IH; intros st H;
    (destruct args as [|arg rest]; [exact H|]); [simpl in Hlen; lia|].
  cbn [parse_loop]. destruct rest as [|value rest'].
  - apply positional_target, H.
  - destruct (strict_eq arg (lit "--branch")); [apply IH; [simpl in Hlen |- *; lia|exact H]|].
    destruct (strict_eq arg (lit "--tag")); [apply IH; [simpl in Hlen |- *; lia|exact H]|].
    apply IH; [simpl in Hlen |- *; lia|]. apply positional_target, H.
Qed.

(** Once a truthy user is set and no target is, the loop leaves the user
    alone. *)
Lemma parse_loop_user_kept (args : list JsString) (st : parsing) :
  target st = None -> falsy (user st) = false ->
  user (parse_loop args st) = user st.
Proof.
  revert st. length_induction args IH; intros st Ht Hu;
    (destruct args as [|arg rest]; [reflexivity|]); [simpl in Hlen; lia|].
  assert (Hpos : forall a, positional a st = st).
  { intros a. unfold positional. rewrite Ht, Hu.
    destruct (negb (startsWith (lit "-") a)); reflexivity. }
  cbn [parse_loop]. destruct rest as [|value rest'].
  - rewrite Hpos. reflexivity.
  - destruct (strict_eq arg (lit "--branch")); [rewrite IH; [reflexivity|simpl in Hlen |- *; lia|exact Ht|exact Hu]|].
    destruct (strict_eq arg (lit "--tag")); [rewrite IH; [reflexivity|simpl in Hlen |- *; lia|exact Ht|exact Hu]|].
    rewrite Hpos. apply IH; [simpl in Hlen |- *; lia|exact Ht|exact Hu].
Qed.

Lemma parse_loop_user_from (args : list JsString) (st : parsing) (u : JsString) :
  target st = None ->
  user (parse_loop args st) = Some u ->
  user st = Some u \/ (u ∈ args /\ startsWith (lit "-") u = false).
Proof.
  revert st. length_induction args IH; intros st Ht Hu;
    (destruct args as [|arg rest]; [left; exact Hu|]); [simpl in Hlen; lia|].
  assert (Hpos : forall a r,
             user (parse_loop r (positional a st)) = Some u ->
             (forall st', target st' = None -> user (parse_loop r st') = Some u ->
                user st' = Some u \/ (u ∈ r /\ startsWith (lit "-") u = false)) ->
             user st = Some u \/ (u ∈ a :: r /\ startsWith (lit "-") u = false)).
  { intros a r H Hrec.
    destruct (Hrec _ (positional_target a st Ht) H) as [H1|[H1 H2]].
    - unfold positional in H1. rewrite Ht in H1.
      destruct (startsWith (lit "-") a) eqn:Ea; cbn [negb] in H1; [left; exact H1|].
      destruct (falsy (user st)); [|left; exact H1].
      cbn [user] in H1. injection H1 as ->. right. split; [left|exact Ea].
    - right. split; [right; exact H1|exact H2]. }
  cbn [parse_loop] in Hu. destruct rest as [|value rest'].
  - apply (Hpos arg [] Hu). intros st' Ht' H'. left. exact H'.
  - destruct (strict_eq arg (lit "--branch")).
    { apply IH in Hu; [|simpl in Hlen |- *; lia|exact Ht].
      destruct Hu as [H|[H1 H2]]; [left; exact H|].
      right. split; [right; right; exact H1|exact H2]. }
    destruct (strict_eq arg (lit "--tag")).
    { apply IH in Hu; [|simpl in Hlen |- *; lia|exact Ht].
      destruct Hu as [H|[H1 H2]]; [left; exact H|].
      right. split; [right; right; exact H1|exact H2]. }
    apply (Hpos arg (value :: rest') Hu). intros st' Ht' H'.
    apply (IH (value :: rest') ltac:(simpl in Hlen |- *; lia) st' Ht' H').
Qed.

Lemma parse_loop_branch_from (args : list JsString) (st : parsing) (b : JsString) :
  branch (options (parse_loop args st)) = Some b ->
  branch (options st) = Some b
  \/ exists before after, args = before ++ lit "--branch" :: b :: after.
Proof.
  revert st. length_induction args IH; intros st Hb;
    (destruct args as [|arg rest]; [left; exact Hb|]); [simpl in Hlen; lia|].
  assert (Hopt : forall a, options (positional a st) = options st).
  { intros a. unfold positional.
    destruct (negb (startsWith (lit "-") a)); [|reflexivity].
    destruct (target st) as [t|];
      [destruct (strict_eq t (lit ".")); [reflexivity|]|];
      destruct (falsy (user st)); reflexivity. }
  cbn [parse_loop] in Hb. destruct rest as [|value rest'].
  - left. cbn [parse_loop] in Hb. rewrite Hopt in Hb. exact Hb.
  - destruct (strict_eq arg (lit "--branch")) eqn:Ebr.
    { apply strict_eq_spec in Ebr. subst arg.
      destruct (IH rest' ltac:(simpl in Hlen |- *; lia) _ Hb) as [H|(before & after & ->)].
      - cbn [options branch] in H. injection H as ->.
        right. exists [], rest'. reflexivity.
      - right. exists (lit "--branch" :: value :: before), after. reflexivity. }
    destruct (strict_eq arg (lit "--tag")).
    { destruct (IH rest' ltac:(simpl in Hlen |- *; lia) _ Hb) as [H|(before & after & ->)].
      - left. exact H.
      - right. exists (arg :: value :: before), after. reflexivity. }
    destruct (IH (value :: rest') ltac:(simpl in Hlen |- *; lia) _ Hb) as [H|(before & after & Heq)].
    + left. rewrite Hopt in H. exact H.
    + right. exists (arg :: before), after. rewrite Heq. reflexivity.
Qed.

End ArgsFacts.

(** X3: the target of the command line. Whatever the arguments,
    [parseArgs] returns the target ["."]: the loop assigns [target] only
    when it already is ["."], and it starts undefined. The target is
    therefore never taken for a remote repository. *)
Theorem parseArgs_target (args : list JsString) :
  Args.parsed_target (Args.parseArgs args) = lit "."
  /\ Remote.isRemoteUrl (Args.parsed_target (Args.parseArgs args)) = false.
Proof.
  assert (E : Args.parsed_target (Args.parseArgs args) = lit ".").
  { unfold Args.parseArgs. cbn [Args.parsed_target].
    rewrite (parse_loop_target args (Args.Parsing None None (Args.Options None None)) eq_refl).
    reflexivity. }
  split; [exact E|]. rewrite E. reflexivity.
Qed.

(** X4: the user and the branch of the command line. The user returned,
    if any, is one of the arguments and does not begin with [-]; the
    branch returned, if any, is the argument that follows a [--branch]. A
    first argument that is not empty and does not begin with [-] becomes
    the user name, whatever follows it. *)
Theorem parseArgs_user_branch (args : list JsString) :
  (forall u : JsString,
      Args.parsed_user (Args.parseArgs args) = Some u ->
      u ∈ args /\ startsWith (lit "-") u = false)
  /\ (forall b : JsString,
         Args.branch (Args.parsed_options (Args.parseArgs args)) = Some b ->
         exists before after, args = before ++ lit "--branch" :: b :: after)
  /\ (forall (first : JsString) (rest : list JsString),
         args = first :: rest ->
         first <> [] -> startsWith (lit "-") first = false ->
         Args.parsed_user (Args.parseArgs args) = Some first).
Proof.
  unfold Args.parseArgs. cbn [Args.parsed_user Args.parsed_options].
  split; [|split].
  - intros u Hu.
    apply parse_loop_user_from in Hu; [|reflexivity].
    destruct Hu as [H|H]; [discriminate H|exact H].
  - intros b Hb.
    apply parse_loop_branch_from in Hb.
    destruct Hb as [H|H]; [discriminate H|exact H].
  - intros first rest -> Hne Hdash.
    assert (Hopt : forall name : JsString,
               startsWith (lit "-") name = true -> strict_eq first name = false).
    { intros name Hname. destruct (strict_eq first name) eqn:E; [|reflexivity].
      apply strict_eq_spec in E. subst name. congruence. }
    assert (Hpos : Args.positional first (Args.Parsing None None (Args.Options None None))
                   = Args.Parsing None (Some first) (Args.Options None None)).
    { unfold Args.positional. rewrite Hdash. reflexivity. }
    assert (Hkept : forall l, Args.user (Args.parse_loop l
                        (Args.Parsing None (Some first) (Args.Options None None)))
                      = Some first).
    { intros l. rewrite parse_loop_user_kept; [reflexivity|reflexivity|].
      cbn [Args.user Args.falsy]. destruct first; [contradiction|reflexivity]. }
    cbn [Args.parse_loop]. destruct rest as [|value rest'].
    + rewrite Hpos. reflexivity.
    + rewrite (Hopt (lit "--branch") eq_refl), (Hopt (lit "--tag") eq_refl), Hpos.
      apply Hkept.
Qed.

Lemma parseArgs_user_branch_witness :
  let args := [lit "/path/to/repo"; lit "alice"; lit "--branch"; lit "main"] in
  Args.parsed_user (Args.parseArgs args) = Some (lit "/path/to/repo")
  /\ lit "/path/to/repo" ∈ args
  /\ exists before after, args = before ++ lit "--branch" :: lit "main" :: after.
Proof.
  intros args.
  destruct (parseArgs_user_branch args) as (Huser & Hbranch & Hfirst).
  assert (E : Args.parsed_user (Args.parseArgs args) = Some (lit "/path/to/repo")).
  { apply (Hfirst _ _ eq_refl); [discriminate|reflexivity]. }
  split; [exact E|]. split.
  - exact (proj1 (Huser _ E)).
  - apply Hbranch. reflexivity.
Defined.

(** ** Discovery *)

Section DiscoveryFacts.
Import Discovery.

Variable glob_match : JsString -> JsString -> bool.
Variable join_target : JsString -> JsString.
Variable stat : JsString -> entry_kind.

Lemma shouldExclude_app (P Q : list JsString) (file : JsString) :
  shouldExclude glob_match (P ++ Q) file
  = shouldExclude glob_match P file || shouldExclude glob_match Q file.
Proof. unfold shouldExclude. apply existsb_app. Qed.

Lemma fold_visit (patterns : list JsString) (scan files : list JsString) :
  fold_left (visit glob_match join_target stat patterns) scan files
  = files ++ map join_target
               (List.filter (kept glob_match join_target stat patterns) scan).
Proof.
  revert files; induction scan as [|f scan IH]; intros files.
  - simpl. rewrite app_nil_r. reflexivity.
  - cbn [fold_left List.filter]. rewrite IH. unfold visit, kept.
    destruct (negb (shouldExclude glob_match patterns f)); [|reflexivity].
    destruct (stat (join_target f)); cbn [is_regular andb map];
      rewrite <- ?app_assoc; reflexivity.
Qed.

Lemma findFiles_filter (scan : list JsString) (gitignore : Files.gitignore_file) :
  findFiles glob_match scan join_target stat gitignore
  = map join_target
      (List.filter
         (kept glob_match join_target stat
            (excludePatterns ++ Files.parseGitignore gitignore)) scan).
Proof. unfold findFiles. apply fold_visit. Qed.

Lemma filter_filter_andb {A : Type} (p q : A -> bool) (l : list A) :
  List.filter p (List.filter q l) = List.filter (fun x => q x && p x) l.
Proof.
  induction l as [|x l IH]; [reflexivity|].
  cbn [List.filter]. destruct (q x); cbn [List.filter andb]; rewrite IH; reflexivity.
Qed.

Lemma map_filter_sublist {A B : Type} (g : A -> B) (p q : A -> bool) (l : list A) :
  (forall x, p x = true -> q x = true) ->
  map g (List.filter p l) `sublist_of` map g (List.filter q l).
Proof.
  intros Hpq. induction l as [|x l IH]; [constructor|].
  cbn [List.filter]. destruct (p x) eqn:Ep.
  - rewrite (Hpq x Ep). cbn [map]. apply sublist_skip, IH.
  - destruct (q x); [cbn [map]; apply sublist_cons, IH|exact IH].
Qed.

End DiscoveryFacts.

(** X5: what discovery returns. Whatever the matcher, the scan and the
    file system, [findFiles] returns the full paths of the scanned entries
    that no pattern (built-in or from the ignore file) matches and that
    are regular files, in the order of the scan: an entry that vanished,
    whose [stat] fails or that is not a regular file is skipped. *)
Theorem findFiles_kept (glob_match : JsString -> JsString -> bool)
    (scan : list JsString) (join_target : JsString -> JsString)
    (stat : JsString -> Discovery.entry_kind)
    (gitignore : Files.gitignore_file) :
  let patterns := Discovery.excludePatterns ++ Files.parseGitignore gitignore in
  Discovery.findFiles glob_match scan join_target stat gitignore
  = map join_target
      (List.filter (Discovery.kept glob_match join_target stat patterns) scan)
  /\ forall path : JsString,
       path ∈ Discovery.findFiles glob_match scan join_target stat gitignore <->
       exists file : JsString,
         file ∈ scan /\ path = join_target file
         /\ stat path = Discovery.RegularFile
         /\ forall pattern, pattern ∈ patterns -> glob_match pattern file = false.
Proof.
  intros patterns. split; [apply findFiles_filter|].
  intros path. rewrite findFiles_filter. fold patterns.
  change (map join_target ?l) with (join_target <$> l).
  rewrite list_elem_of_fmap. split.
  - intros (file & -> & Hin). apply list_elem_of_In, filter_In in Hin as [Hin Hk].
    unfold Discovery.kept in Hk. apply andb_true_iff in Hk as [Hex Hreg].
    exists file. split; [apply list_elem_of_In, Hin|]. split; [reflexivity|]. split.
    + destruct (stat (join_target file)); try discriminate Hreg. reflexivity.
    + intros pattern Hp. apply negb_true_iff in Hex.
      unfold Discovery.shouldExclude in Hex.
      destruct (glob_match pattern file) eqn:E; [|reflexivity].
      assert (existsb (fun pattern => glob_match pattern file) patterns = true).
      { apply existsb_exists. exists pattern. split; [apply list_elem_of_In, Hp|exact E]. }
      congruence.
  - intros (file & Hin & -> & Hreg & Hnone). exists file. split; [reflexivity|].
    apply list_elem_of_In, filter_In. split; [apply list_elem_of_In, Hin|].
    unfold Discovery.kept. rewrite Hreg. cbn [Discovery.is_regular]. rewrite andb_true_r.
    apply negb_true_iff. unfold Discovery.shouldExclude.
    destruct (existsb _ patterns) eqn:E; [|reflexivity].
    apply existsb_exists in E as (pattern & Hp & Hm).
    rewrite (Hnone pattern) in Hm; [discriminate|apply list_elem_of_In, Hp].
Qed.

Lemma findFiles_kept_witness :
  let glob_match := fun pattern file : JsString =>
    strict_eq pattern (lit "**/*.png") && endsWith (lit ".png") file in
  lit "/repo/a.txt"
  ∈ Discovery.findFiles glob_match [lit "a.txt"; lit "c.png"]
      (fun file => lit "/repo/" ++ file) (fun _ => Discovery.RegularFile)
      Files.Missing.
Proof.
  intros glob_match.
  apply (proj2 (findFiles_kept glob_match [lit "a.txt"; lit "c.png"]
                  (fun file => lit "/repo/" ++ file)
                  (fun _ => Discovery.RegularFile) Files.Missing)).
  exists (lit "a.txt"). split; [left|]. split; [reflexivity|]. split; [reflexivity|].
  intros pattern _. unfold glob_match. apply andb_false_r.
Defined.

(** X6: the ignore file only narrows. An entry is excluded by two sets of
    patterns together exactly when one of them excludes it. Whatever the
    ignore file holds (negations included), discovery with it returns what
    discovery without it returns on the scan from which the entries
    matching its patterns are removed; so its result is a subsequence of
    the result without an ignore file, and no line of the ignore file
    brings a file back. *)
Theorem findFiles_gitignore_narrows (glob_match : JsString -> JsString -> bool)
    (scan : list JsString) (join_target : JsString -> JsString)
    (stat : JsString -> Discovery.entry_kind)
    (gitignore : Files.gitignore_file) :
  (forall (P Q : list JsString) (file : JsString),
      Discovery.shouldExclude glob_match (P ++ Q) file
      = Discovery.shouldExclude glob_match P file
        || Discovery.shouldExclude glob_match Q file)
  /\ Discovery.findFiles glob_match scan join_target stat gitignore
     = Discovery.findFiles glob_match
         (List.filter
            (fun file => negb (Discovery.shouldExclude glob_match
                                 (Files.parseGitignore gitignore) file)) scan)
         join_target stat Files.Missing
  /\ Discovery.findFiles glob_match scan join_target stat gitignore
       `sublist_of` Discovery.findFiles glob_match scan join_target stat Files.Missing.
Proof.
  split; [apply shouldExclude_app|]. split.
  - rewrite !findFiles_filter. f_equal. rewrite filter_filter_andb.
    apply filter_ext. intros file. unfold Discovery.kept.
    cbn [Files.parseGitignore]. rewrite app_nil_r, shouldExclude_app.
    destruct (Discovery.shouldExclude glob_match Discovery.excludePatterns file);
      destruct (Discovery.shouldExclude glob_match (Files.parseGitignore gitignore) file);
      reflexivity.
  - rewrite !findFiles_filter. apply map_filter_sublist.
    intros file H. unfold Discovery.kept in *.
    cbn [Files.parseGitignore]. rewrite app_nil_r.
    rewrite shouldExclude_app in H. apply andb_true_iff in H as [H1 H2].
    apply negb_true_iff, orb_false_iff in H1 as [Hb _].
    rewrite Hb, H2. reflexivity.
Qed.

(** ** More on the ignore-rule translation *)

Section FilesMore.
Import Files.

Lemma trimStart_app (a b : JsString) :
  trimStart (a ++ b)
  = if forallb is_white_space a then trimStart b else trimStart a ++ b.
Proof.
  induction a as [|c a IH]; [reflexivity|].
  cbn [app trimStart forallb]. destruct (is_white_space c); [exact IH|reflexivity].
Qed.

Lemma trimEnd_snoc (s : JsString) (c : N) :
  is_white_space c = true -> trimEnd (s ++ [c]) = trimEnd s.
Proof.
  intros Hc. unfold trimEnd. rewrite rev_unit. cbn [trimStart]. rewrite Hc.
  reflexivity.
Qed.

Lemma trim_snoc (s : JsString) (c : N) :
  is_white_space c = true -> trim (s ++ [c]) = trim s.
Proof.
  intros Hc. unfold trim at 1. rewrite trimStart_app.
  destruct (forallb is_white_space s) eqn:E.
  - cbn [trimStart]. rewrite Hc. symmetry. apply trim_nil_iff, E.
  - rewrite trimEnd_snoc by exact Hc. reflexivity.
Qed.

(** The lines of a text with Windows line ends are the lines of the text,
    some with a carriage return at the end. *)
Lemma split_lines_to_crlf (content : JsString) :
  Forall2 (fun l' l => l' = l \/ l' = l ++ [13%N])
    (split_lines (Discovery.to_crlf content)) (split_lines content).
Proof.
  induction content as [|c r IH].
  - repeat constructor.
  - unfold Discovery.to_crlf in *. cbn [flat_map split_lines].
    destruct (c =? LF)%N eqn:Ec.
    + cbn [app split_lines]. change (13 =? LF)%N with false.
      cbn [N.eqb]. rewrite N.eqb_refl.
      constructor; [right; reflexivity|exact IH].
    + cbn [app split_lines]. rewrite Ec.
      pose proof (split_lines_nonempty r) as Hne.
      destruct (split_lines r) as [|h t]; [contradiction|].
      destruct (split_lines (flat_map _ r)) as [|h' t']; [inversion IH|].
      apply Forall2_cons in IH as [Hh Ht].
      constructor; [|exact Ht].
      destruct Hh as [->| ->]; [left|right]; reflexivity.
Qed.

Lemma includes_trimStart (c : N) (s : JsString) :
  includes c s = false -> includes c (trimStart s) = false.
Proof.
  unfold includes. induction s as [|x s IH]; [reflexivity|].
  cbn [trimStart existsb]. intros H.
  destruct (is_white_space x); [|exact H].
  apply orb_false_iff in H as [_ H]. exact (IH H).
Qed.

Lemma includes_rev (c : N) (s : JsString) :
  includes c (rev s) = includes c s.
Proof.
  unfold includes. induction s as [|x s IH]; [reflexivity|].
  cbn [rev]. rewrite existsb_app, IH. cbn [existsb].
  rewrite orb_false_r. apply orb_comm.
Qed.

Lemma includes_trim (c : N) (s : JsString) :
  includes c s = false -> includes c (trim s) = false.
Proof.
  intros H. unfold trim, trimEnd. rewrite includes_rev.
  apply includes_trimStart. rewrite includes_rev.
  apply includes_trimStart, H.
Qed.

Lemma split_lines_no_LF (s : JsString) :
  Forall (fun l => includes LF l = false) (split_lines s).
Proof.
  induction s as [|c r IH]; [repeat constructor|].
  cbn [split_lines]. destruct (c =? LF)%N eqn:Ec.
  - constructor; [reflexivity|exact IH].
  - pose proof (split_lines_nonempty r) as Hne.
    destruct (split_lines r) as [|l ls]; [contradiction|].
    apply Forall_cons in IH as [Hl Hls].
    constructor; [|exact Hls].
    unfold includes in *. cbn [existsb]. rewrite N.eqb_sym, Ec. exact Hl.
Qed.

Lemma includes_removelast (c : N) (s : JsString) :
  includes c s = false -> includes c (removelast s) = false.
Proof.
  destruct s as [|y s] using rev_ind; [reflexivity|].
  rewrite removelast_last, includes_app. intros H.
  apply orb_false_iff in H as [H _]. exact H.
Qed.

Lemma translate_rule_pattern (rule p : JsString) :
  translate_rule rule = Some p ->
  includes LF rule = false ->
  p <> [] /\ includes LF p = false.
Proof.
  unfold translate_rule. destruct rule as [|c r] eqn:Er; [discriminate|].
  rewrite <- Er.
  destruct (c =? 35)%N; [discriminate|]. destruct (c =? 33)%N; [discriminate|].
  intros [= <-] HLF.
  assert (Hstrip : forall b : JsString,
             includes LF b = false ->
             (2 <= length b)%nat \/ (exists x t, b = x :: t /\ (x =? SLASH)%N = false) ->
             strip_leading_slash b <> [] /\ includes LF (strip_leading_slash b) = false).
  { intros b Hb Hlen. unfold strip_leading_slash.
    destruct b as [|x t]; [destruct Hlen as [H|(x & t & H & _)]; [simpl in H; lia|discriminate]|].
    destruct (x =? SLASH)%N eqn:Ex.
    - split.
      + destruct Hlen as [H|(x' & t' & [= <- <-] & H)]; [|congruence].
        destruct t; [simpl in H; lia|discriminate].
      + unfold includes in *. cbn [existsb] in Hb.
        apply orb_false_iff in Hb as [_ Hb]. exact Hb.
    - split; [discriminate|exact Hb]. }
  destruct (has_trailing_slash rule) eqn:Ets.
  - apply Hstrip.
    + rewrite includes_app, (includes_removelast _ _ HLF). reflexivity.
    + left. rewrite length_app. simpl. lia.
  - destruct (includes SLASH rule) eqn:Einc.
    + apply Hstrip; [exact HLF|]. subst rule.
      destruct (c =? SLASH)%N eqn:Ec; [|right; eauto].
      left. destruct r as [|y r]; [|simpl; lia].
      unfold has_trailing_slash in Ets. cbn in Ets. cbn in Ec. congruence.
    + apply Hstrip.
      * change (includes LF (lit "**/" ++ rule) = false).
        rewrite includes_app, HLF. reflexivity.
      * left. subst rule. simpl. lia.
Qed.

End FilesMore.

(** X7: patterns that are already translated. A line that is its own
    trimmed form, is not empty, does not begin with [#], [!] or [/], does
    not end with [/] and holds a [/] is translated to itself; every
    built-in pattern is such a line. *)
Theorem parseGitignore_fixed_point :
  (forall p : JsString,
      includes LF p = false -> trim p = p -> p <> [] ->
      startsWith (lit "#") p = false -> startsWith (lit "!") p = false ->
      startsWith (lit "/") p = false -> endsWith (lit "/") p = false ->
      includes SLASH p = true ->
      Files.parseGitignore (Files.Text p) = [p])
  /\ Forall (fun p => Files.parseGitignore (Files.Text p) = [p])
       Discovery.excludePatterns.
Proof.
  split.
  - intros p HLF Htrim Hne Hhash Hbang Hslash Hend Hinc.
    unfold Files.parseGitignore. rewrite (split_lines_single p HLF).
    cbn [fold_left]. unfold Files.parse_line. rewrite Htrim.
    assert (Ht : truthy_string p = true) by (destruct p; [contradiction|reflexivity]).
    rewrite Ht, Hhash, Hbang, Hend, Hslash, Hinc. cbn [negb orb andb].
    rewrite Hslash. reflexivity.
  - unfold Discovery.excludePatterns.
    repeat (apply Forall_cons_2; [vm_compute; reflexivity|]). apply Forall_nil_2.
Qed.

Lemma parseGitignore_fixed_point_witness :
  Files.parseGitignore (Files.Text (lit "src/**/*.ts")) = [lit "src/**/*.ts"].
Proof.
  destruct parseGitignore_fixed_point as [H _].
  apply H; solve [reflexivity | discriminate].
Defined.

(** X8: Windows line ends. An ignore file gives the same patterns whether
    its lines end with a line feed or with a carriage return and a line
    feed. *)
Theorem parseGitignore_crlf (content : JsString) :
  Files.parseGitignore (Files.Text (Discovery.to_crlf content))
  = Files.parseGitignore (Files.Text content).
Proof.
  unfold Files.parseGitignore. rewrite !fold_parse_line. cbn [app].
  pose proof (split_lines_to_crlf content) as H.
  induction H as [|l' l ls' ls Hl _ IH]; [reflexivity|].
  omap_step. omap_step. rewrite IH.
  destruct Hl as [->| ->]; [reflexivity|].
  rewrite trim_snoc by reflexivity. reflexivity.
Qed.

(** X9: the patterns of an ignore file. Every pattern [parseGitignore]
    returns is a non-empty string without a line feed. *)
Theorem parseGitignore_patterns (content p : JsString) :
  p ∈ Files.parseGitignore (Files.Text content) ->
  p <> [] /\ includes LF p = false.
Proof.
  unfold Files.parseGitignore. rewrite fold_parse_line. cbn [app].
  rewrite list_elem_of_omap. intros (line & Hin & Ht).
  apply (translate_rule_pattern _ _ Ht). apply includes_trim.
  pose proof (split_lines_no_LF content) as Hall.
  rewrite Forall_forall in Hall. apply Hall, Hin.
Qed.

Lemma parseGitignore_patterns_witness :
  lit "build/**" <> [] /\ includes LF (lit "build/**") = false.
Proof.
  apply (parseGitignore_patterns (lit "build/" ++ [LF] ++ lit "*.log") (lit "build/**")).
  vm_compute. left.
Defined.

(** ** The scheduler, completion by completion *)

Section TraceFacts.
Import Processor Pipeline.

Context {T : Type}.
Variable items : list T.
Variable concurrencyLimit : Z.
Variable processor : T -> settled.
Variable onProgress : bool.

#[local] Abbreviation run := (run_traced items concurrencyLimit processor onProgress).
#[local] Abbreviation pool_run := (processWithPool items concurrencyLimit processor onProgress).
#[local] Abbreviation N_items := (length items).

Lemma settle_traced_fst (s : pool * list nat) (pick : nat) :
  fst (settle_traced items processor onProgress s pick)
  = settle_pick items processor onProgress (fst s) pick.
Proof.
  unfold settle_traced, settle_pick, settle_at.
  destruct (pending (fst s) !! (pick mod length (pending (fst s)))%nat)
    as [[k o]|]; reflexivity.
Qed.

Lemma run_traced_snoc (picks : list nat) (pick : nat) :
  run (picks ++ [pick]) = settle_traced items processor onProgress (run picks) pick.
Proof. unfold run_traced. apply fold_left_app. Qed.

Lemma run_traced_fst (picks : list nat) : fst (run picks) = pool_run picks.
Proof.
  induction picks as [|pick picks IH] using rev_ind; [reflexivity|].
  rewrite run_traced_snoc, settle_traced_fst, IH, processWithPool_snoc. reflexivity.
Qed.

(** What the handlers of one completion do to the counters, the console
    and the operations in flight. *)
Lemma settle_at_effects (p k0 : nat) (o0 : settled) (st : pool) :
  consistent items processor st -> pending st !! p = Some (k0, o0) ->
  let st' := settle_at items processor onProgress p st in
  (pending st').*1
  = (delete p (pending st)).*1
    ++ (if (nextIndex st <? length items)%nat then [nextIndex st] else [])
  /\ _completed st' = (_completed st + if fulfils items processor k0 then 1 else 0)%nat
  /\ progress st'
     = (progress st + if onProgress && fulfils items processor k0 then 1 else 0)%nat
  /\ console st' = console st ++ option_list (error_line items processor k0).
Proof.
  intros Hc Hp. cbn zeta.
  assert (Hin : (k0, o0) ∈ pending st) by (eapply list_elem_of_lookup_2; eauto).
  destruct (pending_dispatched _ _ _ Hc k0 o0 Hin) as (_ & item0 & Hitem0 & Ho0).
  unfold fulfils, error_line. rewrite Hitem0, <- Ho0.
  unfold settle_at. rewrite Hp. unfold on_finally, processNext.
  destruct o0 as [result|message|];
    cbn [on_fulfilled on_rejected results _completed runningCount nextIndex pending
         resolved progress console];
    (destruct (nextIndex st <? length items)%nat eqn:Enext;
     [ apply Nat.ltb_lt in Enext;
       destruct (length items <=? nextIndex st)%nat eqn:Eguard;
       [apply Nat.leb_le in Eguard; lia|];
       destruct (items !! nextIndex st) as [item|] eqn:Eitem;
       [|apply lookup_ge_None in Eitem; lia]
     | apply Nat.ltb_ge in Enext;
       destruct (length items <=? nextIndex st)%nat eqn:Eguard;
       [|apply Nat.leb_gt in Eguard; lia];
       match goal with
       | |- context [if ?c then resolve ?v ?s else _] =>
           destruct c; [destruct (resolve_fields v s) as (_ & _ & _ & E4 & E5);
                        unfold resolve; destruct (resolved s)|]
       end ]);
    cbn [_completed progress console pending option_list];
    rewrite ?fmap_app, ?app_nil_r, ?andb_true_r, ?andb_false_r;
    (split; [reflexivity|]); (split; [lia|]);
    (split; [destruct onProgress; lia|reflexivity]).
Qed.

Lemma executor_effects (j : nat) :
  (j <= length items)%nat ->
  let st := Nat.iter j (processNext items processor) (initial items) in
  (pending st).*1 = seq 0 j /\ _completed st = 0%nat /\ progress st = 0%nat
  /\ console st = [].
Proof.
  induction j as [|j IH]; intros Hj; cbn zeta; [auto|].
  destruct IH as (Hp & Hcm & Hpr & Hco); [lia|].
  destruct (executor_iter items processor j) as (_ & Hn & _ & _); [lia|].
  change (Nat.iter (S j) ?f ?x) with (f (Nat.iter j f x)).
  revert Hp Hcm Hpr Hco Hn.
  generalize (Nat.iter j (processNext items processor) (initial items)).
  intros st Hp Hcm Hpr Hco Hn. unfold processNext.
  destruct (length items <=? nextIndex st)%nat eqn:Eguard.
  { apply Nat.leb_le in Eguard. lia. }
  destruct (items !! nextIndex st) as [item|] eqn:Eitem.
  - cbn [pending _completed progress console]. rewrite fmap_app, Hp, Hn.
    rewrite seq_S. auto.
  - apply lookup_ge_None in Eitem. apply Nat.leb_gt in Eguard. lia.
Qed.

(** The record of a run: every index dispatched so far is either in the
    trace or in flight, once; the counters count the fulfilled items of
    the trace and the console holds the error lines of the rejected ones,
    in the order of completion. *)
Lemma run_traced_invariant (picks : list nat) :
  let st := fst (run picks) in
  let trace := snd (run picks) in
  trace ++ (pending st).*1 ≡ₚ seq 0 (nextIndex st)
  /\ (length trace <= length picks)%nat
  /\ _completed st = length (List.filter (fulfils items processor) trace)
  /\ progress st
     = (if onProgress then length (List.filter (fulfils items processor) trace) else 0)%nat
  /\ console st = omap (error_line items processor) trace.
Proof.
  induction picks as [|pick picks IH] using rev_ind; cbn zeta.
  - unfold run_traced. cbn [fold_left fst snd]. unfold start.
    destruct (executor_effects (initialBatch items concurrencyLimit)
                (initialBatch_le items concurrencyLimit)) as (Hp & Hcm & Hpr & Hco).
    destruct (executor_iter items processor (initialBatch items concurrencyLimit)
                (initialBatch_le items concurrencyLimit)) as (_ & Hn & _ & _).
    rewrite Hp, Hn, Hcm, Hpr, Hco. cbn [app length List.filter].
    split; [reflexivity|]. split; [lia|]. split; [reflexivity|].
    split; [destruct onProgress; reflexivity|reflexivity].
  - cbn zeta in IH. rewrite run_traced_snoc.
    pose proof (steady_run items concurrencyLimit processor onProgress picks)
      as [Hc _ _ _].
    rewrite <- run_traced_fst in Hc.
    destruct (run picks) as [st trace]. cbn [fst snd] in IH, Hc.
    destruct IH as (Hperm & Hlen & Hcm & Hpr & Hco).
    unfold settle_traced. cbn [fst snd].
    destruct (pending st !! (pick mod length (pending st))%nat) as [[k0 o0]|] eqn:Hp;
      cbn [fst snd].
    + destruct (settle_at_effects _ k0 o0 st Hc Hp) as (Ep & Ecm & Epr & Eco).
      cbn zeta in Ep, Ecm, Epr, Eco.
      pose proof (settle_at_counters items processor onProgress _ k0 o0 st Hc Hp) as Hcnt.
      cbn zeta in Hcnt.
      unfold settle_pick. rewrite Ep, Ecm, Epr, Eco, Hcm, Hpr, Hco.
      rewrite !List.filter_app, !length_app, omap_app. omap_step.
      cbn [length List.filter].
      split.
      { rewrite (fst_delete_Permutation _ _ k0 o0 Hp) in Hperm.
        destruct (nextIndex st <? length items)%nat;
          destruct Hcnt as (-> & _ & _).
        - rewrite seq_S, <- Hperm. cbn [Nat.add].
          rewrite <- !app_assoc. reflexivity.
        - rewrite app_nil_r, <- Hperm, <- app_assoc. reflexivity. }
      split; [lia|]. split.
      { destruct (fulfils items processor k0); cbn [length]; lia. }
      split.
      { destruct onProgress; cbn [andb]; [|lia].
        destruct (fulfils items processor k0); cbn [length]; lia. }
      destruct (error_line items processor k0); reflexivity.
    + rewrite length_app. cbn [length]. repeat split; try assumption. lia.
Qed.

Lemma filter_seq_lookup {A : Type} (P : A -> bool) (l : list A) :
  length (List.filter (fun k => match l !! k with Some x => P x | None => false end)
            (seq 0 (length l)))
  = length (List.filter P l).
Proof.
  induction l as [|x l IH] using rev_ind; [reflexivity|].
  rewrite length_app. cbn [length]. rewrite Nat.add_1_r, seq_S.
  rewrite !List.filter_app, !length_app, <- IH. cbn [Nat.add List.filter].
  rewrite list_lookup_middle by reflexivity. f_equal.
  - f_equal. apply filter_ext_in. intros k Hk. apply in_seq in Hk.
    rewrite lookup_app_l by lia. reflexivity.
  - destruct (P x); reflexivity.
Qed.

End TraceFacts.

Section TraceEnd.
Import Processor Pipeline.

Context {T : Type}.
Variable items : list T.
Variable concurrencyLimit : Z.
Variable processor : T -> settled.
Variable onProgress : bool.

Lemma filter_Permutation_length {A : Type} (P : A -> bool) (l1 l2 : list A) :
  Permutation l1 l2 -> length (List.filter P l1) = length (List.filter P l2).
Proof.
  induction 1 as [|x l l' _ IH|x y l|l l' l'' _ IH1 _ IH2]; cbn [List.filter].
  - reflexivity.
  - destruct (P x); cbn [length]; rewrite IH; reflexivity.
  - destruct (P x), (P y); reflexivity.
  - rewrite IH1. exact IH2.
Qed.

(** At the end of a run the trace holds every index once. *)
Lemma run_traced_end (picks : list nat) :
  (0 < initialBatch items concurrencyLimit)%nat ->
  (length items <= length picks)%nat ->
  snd (run_traced items concurrencyLimit processor onProgress picks)
    ≡ₚ seq 0 (length items).
Proof.
  intros Hb Hlen.
  destruct (run_traced_invariant items concurrencyLimit processor onProgress picks)
    as (Hperm & _).
  destruct (run_to_end items concurrencyLimit processor onProgress picks Hb Hlen)
    as (Hidle & HN & _).
  rewrite run_traced_fst, Hidle, HN in Hperm. cbn [fmap list_fmap] in Hperm.
  rewrite app_nil_r in Hperm. exact Hperm.
Qed.


End TraceEnd.







(** X13: a limit of zero or less. Whatever the items and the worker, with a
    limit that is not positive the executor starts nothing: no worker is
    ever called and the promise stays pending, also for a list that is not
    empty. *)
Theorem processWithPool_nonpositive_limit {T : Type} (items : list T)
    (concurrencyLimit : Z) (processor : T -> Processor.settled)
    (onProgress : bool) (picks : list nat) :
  concurrencyLimit <= 0 ->
  let st := Processor.processWithPool items concurrencyLimit processor onProgress picks in
  st = Processor.initial items
  /\ Processor.nextIndex st = 0%nat
  /\ Processor.pending st = []
  /\ Processor.resolved st = None.
Proof.
  intros Hlim st. unfold st.
  rewrite (processWithPool_no_batch items concurrencyLimit processor onProgress picks Hlim).
  repeat split.
Qed.

Lemma processWithPool_nonpositive_limit_witness :
  Processor.resolved
    (Processor.processWithPool Processor.sample_files 0 Processor.sample_worker
       true [0; 0; 0]%nat) = None.
Proof.
  destruct (processWithPool_nonpositive_limit Processor.sample_files 0
              Processor.sample_worker true [0; 0; 0]%nat) as (_ & _ & _ & H).
  - lia.
  - exact H.
Defined.

(** ** The two modes of cli.ts *)

Section ModeFacts.
Import Processor Pipeline.

Lemma flat_map_Permutation {A B : Type} (g : A -> list B) (l1 l2 : list A) :
  Permutation l1 l2 -> Permutation (flat_map g l1) (flat_map g l2).
Proof.
  induction 1 as [|x l l' _ IH|x y l|l l' l'' _ IH1 _ IH2]; cbn [flat_map].
  - reflexivity.
  - apply Permutation_app_head, IH.
  - rewrite !app_assoc. apply Permutation_app_tail, Permutation_app_comm.
  - etransitivity; eassumption.
Qed.

Lemma flat_map_ext_In {A B : Type} (f g : A -> list B) (l : list A) :
  (forall x, In x l -> f x = g x) -> flat_map f l = flat_map g l.
Proof.
  induction l as [|x l IH]; intros H; [reflexivity|].
  cbn [flat_map]. rewrite (H x (or_introl eq_refl)), IH; [reflexivity|].
  intros y Hy. apply H. right. exact Hy.
Qed.

Lemma flat_map_seq_lookup {A B : Type} (g : A -> list B) (l : list A) :
  flat_map (fun k => match l !! k with Some x => g x | None => [] end)
    (seq 0 (length l))
  = flat_map g l.
Proof.
  induction l as [|x l IH] using rev_ind; [reflexivity|].
  rewrite length_app. cbn [length]. rewrite Nat.add_1_r, seq_S.
  rewrite !flat_map_app, <- IH. cbn [Nat.add flat_map].
  rewrite list_lookup_middle by reflexivity. f_equal.
  apply flat_map_ext_In. intros k Hk. apply in_seq in Hk.
  rewrite lookup_app_l by lia. reflexivity.
Qed.

(** A worker that always fulfils with a truthy value has all its results
    kept. *)
Lemma expected_collection_all {T : Type} (items : list T) (value : T -> JsValue) :
  (forall item, Boolean (value item) = true) ->
  expected_collection items (fun item => Fulfilled (value item)) = map value items.
Proof.
  intros Htrue. unfold expected_collection.
  induction items as [|item l IH]; [reflexivity|].
  omap_step. rewrite IH. cbn [kept_of map]. rewrite Htrue. reflexivity.
Qed.

End ModeFacts.

(** X14: the general mode from end to end. For a non-empty list of files, a
    limit of at least one (the program passes 50) and whatever the oracle
    does for each file and the order in which the files complete: the
    scheduler returns one array per file, in the order of the files (a
    file whose blame failed has the empty array); [allAuthors] holds the
    lines of all the files, each once; and the tally built from it has,
    under every identity, the count of the tally built from the files in
    their own order. The numbers shown do not depend on the completion
    order. *)
Theorem general_mode_tally (blame : JsString -> Git.blame_run)
    (files : list JsString) (concurrencyLimit : Z) (onProgress : bool)
    (picks : list nat) :
  files <> [] -> 1 <= concurrencyLimit ->
  (length files <= length picks)%nat ->
  let run := Pipeline.run_traced files concurrencyLimit
               (Pipeline.general_processor blame) onProgress picks in
  let allAuthors := Pipeline.allAuthors blame files (snd run) in
  let records := map (Pipeline.authors_of blame) files in
  Processor.resolved (fst run)
  = Some (map (fun file => JArr (map JStr (Pipeline.authors_of blame file))) files)
  /\ Permutation allAuthors (concat records)
  /\ length allAuthors = length (concat records)
  /\ (forall author : JsString,
        Output.get author (Output.authorCounts allAuthors)
        = Output.get author (Cli.general_tally records))
  /\ Permutation (Output.authorCounts allAuthors) (Cli.general_tally records).
Proof.
  intros Hne Hlim Hlen run allAuthors records.
  pose proof (initialBatch_pos files concurrencyLimit Hlim Hne) as Hb.
  assert (Hres : Processor.resolved (fst run)
                 = Some (map (fun file => JArr (map JStr (Pipeline.authors_of blame file)))
                           files)).
  { unfold run. rewrite run_traced_fst.
    destruct (run_to_end files concurrencyLimit (Pipeline.general_processor blame)
                onProgress picks Hb Hlen) as (_ & _ & _ & ->).
    unfold Pipeline.general_processor.
    rewrite (expected_collection_all files
               (fun file => JArr (map JStr (Pipeline.authors_of blame file))));
      reflexivity. }
  assert (Hperm : Permutation allAuthors (concat records)).
  { unfold allAuthors, Pipeline.allAuthors, records, run.
    rewrite (flat_map_Permutation _ _ _
               (run_traced_end files concurrencyLimit _ onProgress picks Hb Hlen)).
    rewrite (flat_map_seq_lookup (Pipeline.authors_of blame) files).
    rewrite flat_map_concat_map. reflexivity. }
  assert (Hget : forall author : JsString,
             Output.get author (Output.authorCounts allAuthors)
             = Output.get author (Cli.general_tally records)).
  { intros author. unfold Cli.general_tally. rewrite !get_authorCounts.
    rewrite (proj1 (Permutation_count_occ JsString_eq_dec _ _) Hperm author).
    reflexivity. }
  split; [exact Hres|]. split; [exact Hperm|].
  split; [apply Permutation_length, Hperm|]. split; [exact Hget|].
  apply NoDup_Permutation.
  - eapply NoDup_fmap_1, authorCounts_NoDup.
  - eapply NoDup_fmap_1, authorCounts_NoDup.
  - intros [k v]. unfold Cli.general_tally.
    rewrite !get_Some_elem_of by apply authorCounts_NoDup.
    rewrite Hget. reflexivity.
Qed.

Lemma general_mode_tally_witness :
  let run := Pipeline.run_traced Processor.sample_files 2
               (Pipeline.general_processor Pipeline.sample_blame) true [1; 0; 0]%nat in
  let allAuthors := Pipeline.allAuthors Pipeline.sample_blame Processor.sample_files
                      (snd run) in
  Output.get (lit "Y") (Output.authorCounts allAuthors) = Some 3
  /\ Output.get (lit "X") (Output.authorCounts allAuthors) = Some 2
  /\ length allAuthors = 5%nat.
Proof.
  intros run allAuthors.
  destruct (general_mode_tally Pipeline.sample_blame Processor.sample_files 2 true
              [1; 0; 0]%nat) as (_ & _ & Hlen & Hget & _).
  - discriminate.
  - lia.
  - vm_compute. lia.
  - fold run in Hlen, Hget. fold allAuthors in Hlen, Hget.
    rewrite !Hget, Hlen. vm_compute. auto.
Defined.

Section UserModeFacts.
Import Processor Pipeline.

Variable blame : JsString -> Git.blame_run.
Variable relative : JsString -> JsString.
Variable targetUser : JsString.
Variable files : list JsString.

#[local] Abbreviation store := (store_count blame relative targetUser files).
#[local] Abbreviation count := (count_of blame targetUser).

Lemma count_of_nonneg (file : JsString) : 0 <= count file.
Proof.
  unfold count_of. destruct (Git.getAuthorsFromFile _ _); lia.
Qed.

Lemma NoDup_relative_lookup (i k : nat) (fi fk : JsString) :
  NoDup (map relative files) ->
  files !! i = Some fi -> files !! k = Some fk ->
  relative fi = relative fk -> i = k.
Proof.
  intros Hnd Hi Hk Heq.
  change (map relative files) with (relative <$> files) in Hnd.
  apply (NoDup_lookup _ i k (relative fi) Hnd).
  - rewrite list_lookup_fmap, Hi. reflexivity.
  - rewrite list_lookup_fmap, Hk, Heq. reflexivity.
Qed.

(** What the record holds for the file at index [i], after the files of
    the trace have been stored. *)
Lemma get_fold_store (trace : list nat) (i : nat) (file : JsString) :
  NoDup (map relative files) ->
  files !! i = Some file ->
  Output.get (relative file) (fold_left store trace [])
  = if bool_decide (i ∈ trace) && (0 <? count file)
       && negb (strict_eq (relative file) Output.PROTO)
    then Some (count file) else None.
Proof.
  intros Hnd Hi. induction trace as [|k trace IH] using rev_ind; [reflexivity|].
  rewrite fold_left_app. cbn [fold_left]. unfold store_count at 1.
  destruct (files !! k) as [fk|] eqn:Hk.
  - destruct (decide (i = k)) as [->|Hne].
    + assert (fk = file) by congruence. subst fk.
      rewrite (bool_decide_eq_true_2 (k ∈ trace ++ [k]))
        by (apply elem_of_app; right; left).
      cbn [andb]. destruct (0 <? count file) eqn:Ec.
      * destruct (strict_eq (relative file) Output.PROTO) eqn:Ep; cbn [andb negb].
        -- unfold Output.set. rewrite Ep, IH, andb_false_r. reflexivity.
        -- apply get_set_eq. intros E. rewrite E, strict_eq_refl in Ep. discriminate.
      * rewrite IH, ?Ec, andb_false_r. reflexivity.
    + assert (Hkey : relative fk <> relative file).
      { intros Heq. apply Hne. symmetry.
        eapply NoDup_relative_lookup; eauto. }
      assert (Hmem : bool_decide (i ∈ trace ++ [k]) = bool_decide (i ∈ trace)).
      { apply bool_decide_ext. rewrite elem_of_app, list_elem_of_singleton. tauto. }
      rewrite Hmem. destruct (0 <? count fk); [|exact IH].
      rewrite get_set_ne by exact Hkey. exact IH.
  - assert (Hmem : bool_decide (i ∈ trace ++ [k]) = bool_decide (i ∈ trace)).
    { apply bool_decide_ext. rewrite elem_of_app, list_elem_of_singleton.
      split; [intros [H| ->]; [exact H|congruence]|tauto]. }
    rewrite Hmem. exact IH.
Qed.

(** Every entry of the record is the positive count of a file. *)
Lemma fold_store_entries (trace : list nat) (path : JsString) (c : Z) :
  Output.get path (fold_left store trace []) = Some c ->
  0 < c /\ path <> Output.PROTO
  /\ exists file, file ∈ files /\ path = relative file /\ c = count file.
Proof.
  induction trace as [|k trace IH] using rev_ind; [discriminate|].
  rewrite fold_left_app. cbn [fold_left]. unfold store_count at 1.
  destruct (files !! k) as [fk|] eqn:Hk; [|exact IH].
  destruct (0 <? count fk) eqn:Ec; [|exact IH].
  destruct (decide (relative fk = Output.PROTO)) as [Ep|Ep].
  { rewrite Ep, set_PROTO. exact IH. }
  destruct (decide (relative fk = path)) as [<-|Hne].
  - rewrite get_set_eq by exact Ep. intros [= <-]. apply Z.ltb_lt in Ec.
    split; [exact Ec|]. split; [exact Ep|]. exists fk. split; [|auto].
    eapply list_elem_of_lookup_2; exact Hk.
  - rewrite get_set_ne by exact Hne. exact IH.
Qed.

Lemma fold_store_NoDup (trace : list nat) :
  NoDup (fold_left store trace []).*1.
Proof.
  induction trace as [|k trace IH] using rev_ind; [apply NoDup_nil_2|].
  rewrite fold_left_app. cbn [fold_left]. unfold store_count at 1.
  destruct (files !! k) as [fk|]; [|exact IH].
  destruct (0 <? count fk); [|exact IH].
  unfold Output.set. destruct (strict_eq (relative fk) Output.PROTO); [exact IH|].
  apply keys_NoDup_store, IH.
Qed.

End UserModeFacts.

Section TotalsFacts.
Import Output Pipeline.

Lemma fold_left_add_shift {A : Type} (h : A -> Z) (l : list A) (a : Z) :
  fold_left (fun sum x => sum + h x) l a = a + sum_by h l.
Proof.
  unfold sum_by. revert a. induction l as [|x l IH]; intros a; cbn [fold_left].
  - lia.
  - rewrite (IH (a + h x)), (IH (0 + h x)). lia.
Qed.

Lemma sum_by_app {A : Type} (h : A -> Z) (l1 l2 : list A) :
  sum_by h (l1 ++ l2) = sum_by h l1 + sum_by h l2.
Proof.
  unfold sum_by at 1. rewrite fold_left_app, fold_left_add_shift. reflexivity.
Qed.

Lemma sum_by_cons {A : Type} (h : A -> Z) (x : A) (l : list A) :
  sum_by h (x :: l) = h x + sum_by h l.
Proof. apply (sum_by_app h [x] l). Qed.

Lemma sum_by_Permutation {A : Type} (h : A -> Z) (l1 l2 : list A) :
  Permutation l1 l2 -> sum_by h l1 = sum_by h l2.
Proof.
  induction 1 as [|x l l' _ IH|x y l|l l' l'' _ IH1 _ IH2].
  - reflexivity.
  - rewrite !sum_by_cons, IH. reflexivity.
  - rewrite !sum_by_cons. lia.
  - rewrite IH1. exact IH2.
Qed.

Lemma sum_by_seq_lookup {A : Type} (h : A -> Z) (l : list A) :
  sum_by (fun k => match l !! k with Some x => h x | None => 0 end) (seq 0 (length l))
  = sum_by h l.
Proof.
  induction l as [|x l IH] using rev_ind; [reflexivity|].
  rewrite length_app. cbn [length]. rewrite Nat.add_1_r, seq_S.
  rewrite !sum_by_app, <- IH. cbn [Nat.add].
  unfold sum_by at 2 4. cbn [fold_left].
  rewrite list_lookup_middle by reflexivity. f_equal.
  assert (Hext : forall (f g : nat -> Z) (ks : list nat),
             (forall k, In k ks -> f k = g k) -> sum_by f ks = sum_by g ks).
  { intros f g ks. induction ks as [|k ks IHk]; intros H; [reflexivity|].
    rewrite !sum_by_cons, (H k (or_introl eq_refl)), IHk; [reflexivity|].
    intros y Hy. apply H. right. exact Hy. }
  apply Hext. intros k Hk. apply in_seq in Hk.
  rewrite lookup_app_l by lia. reflexivity.
Qed.

Lemma store_fresh (k : JsString) (v : Z) (o : JsRecord) :
  get k o = None -> store k v o = o ++ [(k, v)].
Proof.
  induction o as [|[k' v'] o IH]; [reflexivity|].
  cbn [get store]. destruct (strict_eq k' k); [discriminate|].
  intros H. rewrite (IH H). reflexivity.
Qed.

Lemma sum_by_filter {A : Type} (h : A -> Z) (p : A -> bool) (l : list A) :
  sum_by (fun x => if p x then h x else 0) l = sum_by h (List.filter p l).
Proof.
  induction l as [|x l IH]; [reflexivity|].
  rewrite sum_by_cons, IH. cbn [List.filter].
  destruct (p x); [rewrite sum_by_cons; reflexivity|lia].
Qed.

Lemma insert_index_Permutation (i : N) (e : JsString * Z)
    (l : list (N * (JsString * Z))) :
  Permutation (insert_index i e l) ((i, e) :: l).
Proof.
  induction l as [|[j e'] l IH]; [reflexivity|].
  cbn [insert_index]. destruct (i <=? j)%N; [reflexivity|].
  rewrite IH. apply perm_swap.
Qed.

(** [Object.entries] lists every property once. *)
Lemma Object_entries_Permutation (o : JsRecord) :
  Permutation (Object_entries o) o.
Proof.
  unfold Object_entries.
  assert (H : Permutation (map snd (index_entries o))
                (List.filter (fun e => is_array_index (fst e)) o)).
  { induction o as [|e o IH]; [reflexivity|].
    cbn [index_entries List.filter]. unfold is_array_index at 1.
    destruct (array_index (fst e)) as [i|]; [|exact IH].
    rewrite insert_index_Permutation. cbn [map snd]. rewrite IH. reflexivity. }
  rewrite H. clear H. induction o as [|e o IH]; [reflexivity|].
  cbn [List.filter]. destruct (is_array_index (fst e)); cbn [negb app].
  - apply perm_skip, IH.
  - rewrite <- Permutation_middle. apply perm_skip, IH.
Qed.

End TotalsFacts.

Section UserTotals.
Import Processor Pipeline.

Variable blame : JsString -> Git.blame_run.
Variable relative : JsString -> JsString.
Variable targetUser : JsString.
Variable files : list JsString.

#[local] Abbreviation store := (store_count blame relative targetUser files).
#[local] Abbreviation count := (count_of blame targetUser).
#[local] Abbreviation storable :=
  (fun file : JsString => negb (strict_eq (relative file) Output.PROTO)).
#[local] Abbreviation count_at :=
  (fun k : nat => match files !! k with
                  | Some file => if storable file then count file else 0
                  | None => 0
                  end).
#[local] Abbreviation positive_at :=
  (fun k : nat => match files !! k with
                  | Some file => (0 <? count file) && storable file
                  | None => false
                  end).

(** The sum and the number of the entries, after the files of a trace
    without repetition have been stored. *)
Lemma fold_store_totals (trace : list nat) :
  NoDup (map relative files) -> NoDup trace ->
  let tally := fold_left store trace [] in
  sum_by snd tally = sum_by count_at trace
  /\ length tally = length (List.filter positive_at trace).
Proof.
  intros Hrel. induction trace as [|k trace IH] using rev_ind; intros Hnd; cbn zeta.
  - split; reflexivity.
  - apply NoDup_app in Hnd as (Hnd & Hfresh & _).
    destruct (IH Hnd) as [IHs IHl]. cbn zeta in IHs, IHl.
    rewrite fold_left_app. cbn [fold_left].
    rewrite sum_by_app, List.filter_app, length_app.
    unfold sum_by at 3. cbn [fold_left List.filter]. unfold store_count at 1 3.
    destruct (files !! k) as [fk|] eqn:Hk.
    + destruct (0 <? count fk) eqn:Ec; cbn [andb].
      * assert (Hnone : Output.get (relative fk) (fold_left store trace []) = None).
        { rewrite (get_fold_store blame relative targetUser files trace k fk Hrel Hk).
          rewrite bool_decide_eq_false_2; [reflexivity|].
          intros Hin. apply (Hfresh k Hin). left. }
        unfold Output.set.
        destruct (strict_eq (relative fk) Output.PROTO); cbn [negb length]; [lia|].
        rewrite (store_fresh _ _ _ Hnone), sum_by_app, length_app.
        unfold sum_by at 2. cbn [fold_left snd length]. lia.
      * pose proof (count_of_nonneg blame targetUser fk). apply Z.ltb_ge in Ec.
        destruct (strict_eq (relative fk) Output.PROTO); cbn [negb length]; lia.
    + cbn [length]. lia.
Qed.

End UserTotals.

(** X15: the single-author mode from end to end. For a non-empty list of
    files with distinct relative paths, a name that is not empty, a limit
    of at least one (the program passes 50) and whatever the order in
    which the files complete: the scheduler returns one [{file, count}]
    per file in the order of the files; the record of contributions holds,
    under the relative path of a file, its count when that is positive and
    the path is not [__proto__], and nothing otherwise, and holds nothing
    else: the assignment to [__proto__] stores nothing, so a file of that
    name is never in the record. The total shown is the sum of the counts
    of the files whose relative path is not [__proto__], and the number of
    files contributed to is the number of those with a positive count. The
    count of a file is the number of its lines whose author is exactly the
    name, and zero when the oracle fails. *)
Theorem user_mode_tally (blame : JsString -> Git.blame_run)
    (relative : JsString -> JsString) (targetUser : JsString)
    (files : list JsString) (concurrencyLimit : Z) (onProgress : bool)
    (picks : list nat) :
  files <> [] -> 1 <= concurrencyLimit ->
  (length files <= length picks)%nat ->
  NoDup (map relative files) ->
  targetUser <> [] ->
  let count := Pipeline.count_of blame targetUser in
  let storable := fun file => negb (strict_eq (relative file) Output.PROTO) in
  let run := Pipeline.run_traced files concurrencyLimit
               (Pipeline.user_processor blame targetUser) onProgress picks in
  let tally := Pipeline.userFileContributions blame relative targetUser files (snd run) in
  let view := Output.displayUserContributions tally (length files) in
  Processor.resolved (fst run)
  = Some (map (fun file => JObj [(lit "file", JStr file);
                                 (lit "count", JNum (count file))]) files)
  /\ (forall file : JsString,
        file ∈ files ->
        Output.get (relative file) tally
        = if (0 <? count file) && storable file then Some (count file) else None)
  /\ (forall (path : JsString) (c : Z),
        Output.get path tally = Some c ->
        0 < c /\ path <> Output.PROTO
        /\ exists file, file ∈ files /\ path = relative file /\ c = count file)
  /\ NoDup tally.*1
  /\ Output.totalUserLines view
     = Pipeline.sum_by count (List.filter storable files)
  /\ Output.filesContributed view
     = length (List.filter (fun file => (0 <? count file) && storable file) files)
  /\ (forall (file stdout : JsString) (exitCode : Z),
        blame file = Git.Exited stdout exitCode ->
        count file
        = Z.of_nat (count_occ JsString_eq_dec (Git.line_identities stdout) targetUser))
  /\ (forall file : JsString, blame file = Git.Throws -> count file = 0).
Proof.
  intros Hne Hlim Hlen Hrel Huser count storable run tally view.
  pose proof (initialBatch_pos files concurrencyLimit Hlim Hne) as Hb.
  pose proof (run_traced_end files concurrencyLimit
                (Pipeline.user_processor blame targetUser) onProgress picks Hb Hlen)
    as Hend.
  fold run in Hend.
  assert (Hnd : NoDup (snd run)) by (rewrite Hend; apply NoDup_seq).
  destruct (fold_store_totals blame relative targetUser files (snd run) Hrel Hnd)
    as [Hsum Hcnt].
  cbn zeta in Hsum, Hcnt.
  change (fold_left _ (snd run) []) with tally in Hsum, Hcnt.
  split.
  { unfold run. rewrite run_traced_fst.
    destruct (run_to_end files concurrencyLimit (Pipeline.user_processor blame targetUser)
                onProgress picks Hb Hlen) as (_ & _ & _ & ->).
    unfold Pipeline.user_processor.
    rewrite (expected_collection_all files
               (fun file => JObj [(lit "file", JStr file);
                                  (lit "count", JNum (Pipeline.count_of blame targetUser file))]));
      reflexivity. }
  split.
  { intros file Hin. apply list_elem_of_lookup_1 in Hin as [i Hi].
    unfold tally, Pipeline.userFileContributions.
    rewrite (get_fold_store blame relative targetUser files (snd run) i file Hrel Hi).
    rewrite bool_decide_eq_true_2; [reflexivity|].
    rewrite Hend. apply elem_of_seq. apply lookup_lt_Some in Hi. lia. }
  split; [intros path c; apply fold_store_entries|].
  split; [apply fold_store_NoDup|].
  split.
  { unfold view, Output.displayUserContributions. cbn [Output.totalUserLines].
    change (fold_left _ (Output.Object_entries tally) 0)
      with (Pipeline.sum_by snd (Output.Object_entries tally)).
    rewrite (sum_by_Permutation _ _ _ (Object_entries_Permutation tally)), Hsum.
    rewrite (sum_by_Permutation _ _ _ Hend).
    transitivity (Pipeline.sum_by (fun file => if storable file then count file else 0)
                    files).
    - exact (sum_by_seq_lookup (fun file => if storable file then count file else 0)
               files).
    - apply sum_by_filter. }
  split.
  { unfold view, Output.displayUserContributions. cbn [Output.filesContributed].
    unfold Output.sortedFiles.
    rewrite (Permutation_length (Array_sort_Permutation _)).
    rewrite (Permutation_length (Object_entries_Permutation tally)), Hcnt.
    rewrite (filter_Permutation_length _ _ _ Hend).
    apply (filter_seq_lookup (fun file => (0 <? count file) && storable file) files). }
  split.
  - intros file stdout exitCode Hrun. unfold count, Pipeline.count_of.
    rewrite Hrun. unfold Git.getAuthorsFromFile, Git.try_body.
    destruct targetUser as [|c f]; [contradiction|]. cbn [truthy_string].
    rewrite collect_authors_identities, filter_strict_eq_count. reflexivity.
  - intros file Hrun. unfold count, Pipeline.count_of. rewrite Hrun.
    destruct targetUser as [|c f]; [contradiction|]. reflexivity.
Qed.

Lemma user_mode_tally_witness :
  let relative := fun file : JsString =>
    if strict_eq file (lit "b.txt") then Output.PROTO else file in
  let run := Pipeline.run_traced Processor.sample_files 2
               (Pipeline.user_processor Pipeline.sample_blame (lit "Y")) true
               [1; 0; 0]%nat in
  let tally := Pipeline.userFileContributions Pipeline.sample_blame relative
                 (lit "Y") Processor.sample_files (snd run) in
  Output.get (lit "a.txt") tally = Some 1
  /\ Output.get Output.PROTO tally = None
  /\ Output.get (lit "c.txt") tally = None
  /\ Output.totalUserLines
       (Output.displayUserContributions tally (length Processor.sample_files)) = 1.
Proof.
  intros relative run tally.
  destruct (user_mode_tally Pipeline.sample_blame relative (lit "Y")
              Processor.sample_files 2 true [1; 0; 0]%nat)
    as (_ & Hget & _ & _ & Htotal & _).
  - discriminate.
  - lia.
  - vm_compute. lia.
  - vm_compute. repeat constructor; rewrite ?elem_of_cons, ?elem_of_nil;
      intuition discriminate.
  - discriminate.
  - fold run in Hget, Htotal. fold tally in Hget, Htotal.
    split; [|split; [|split]].
    + etransitivity; [exact (Hget (lit "a.txt") ltac:(left))|].
      vm_compute. reflexivity.
    + etransitivity; [exact (Hget (lit "b.txt") ltac:(right; left))|].
      vm_compute. reflexivity.
    + etransitivity; [exact (Hget (lit "c.txt") ltac:(right; right; left))|].
      vm_compute. reflexivity.
    + rewrite Htotal. vm_compute. reflexivity.
Defined.

(** ** The summaries *)

Section SummaryFacts.
Import Output Pipeline.

Lemma sum_store_incr (k : JsString) (o : JsRecord) :
  sum_by snd (store k (default 0 (get k o) + 1) o) = sum_by snd o + 1.
Proof.
  induction o as [|[k' v'] o IH].
  - reflexivity.
  - cbn [get store]. destruct (strict_eq k' k).
    + rewrite !sum_by_cons. cbn [snd default]. unfold id. lia.
    + rewrite !sum_by_cons, IH. lia.
Qed.

Lemma sum_count_number (l : list JsString) (acc : JsRecord) :
  sum_by snd (fold_left count_number l acc)
  = sum_by snd acc
    + Z.of_nat (length (List.filter
                          (fun a => truthy_string (trim a) && negb (inherited a)) l)).
Proof.
  revert acc; induction l as [|a l IH]; intros acc.
  - cbn [fold_left List.filter length]. lia.
  - cbn [fold_left List.filter]. rewrite IH. unfold count_number.
    destruct (truthy_string (trim a) && negb (inherited a)).
    + rewrite sum_store_incr. cbn [length]. lia.
    + lia.
Qed.



End SummaryFacts.

(** X16: the totals of the general summary. The numbers in the tally add
    up to the number of lines whose author is neither blank nor a name
    that an object inherits ([__proto__] and the functions of
    [Object.prototype]); "Total lines analyzed" is the number of all the
    lines, so it is at least that sum and equal to it when every line is
    so counted. When no author is named after an inherited function, the
    object holds numbers only, the sum is the number of lines whose author
    is neither blank nor [__proto__], and "Unique authors" is the number
    of properties of the object. *)
Theorem general_summary_totals (allAuthors : list JsString) (filesCount : nat) :
  let view := Output.displayGeneralContributions allAuthors filesCount in
  let counted :=
    List.filter (fun a => truthy_string (trim a) && negb (Output.inherited a))
      allAuthors in
  Pipeline.sum_by snd (Output.authorCounts allAuthors) = Z.of_nat (length counted)
  /\ Output.totalLines view = length allAuthors
  /\ (length counted <= Output.totalLines view)%nat
  /\ (counted = allAuthors ->
      Pipeline.sum_by snd (Output.authorCounts allAuthors)
      = Z.of_nat (Output.totalLines view))
  /\ (Forall (fun a => Output.inherits_function a = false) allAuthors ->
      Output.authorCounts_object allAuthors
      = (fun e : JsString * Z => (fst e, Output.Count (snd e)))
          <$> Output.authorCounts allAuthors
      /\ Output.uniqueAuthors view = length (Output.authorCounts_object allAuthors)
      /\ Pipeline.sum_by snd (Output.authorCounts allAuthors)
         = Z.of_nat
             (length (List.filter
                        (fun a => truthy_string (trim a)
                                  && negb (strict_eq a Output.PROTO)) allAuthors)))
  /\ Output.filesProcessed view = filesCount.
Proof.
  intros view counted.
  assert (Hsum : Pipeline.sum_by snd (Output.authorCounts allAuthors)
                 = Z.of_nat (length counted)).
  { rewrite authorCounts_fold, sum_count_number. reflexivity. }
  assert (Hunique : Output.uniqueAuthors view = length (Output.authorCounts allAuthors)).
  { cbn [view Output.displayGeneralContributions Output.uniqueAuthors].
    unfold Output.sortedAuthors.
    rewrite (Permutation_length (Array_sort_Permutation _)).
    apply Permutation_length, Object_entries_Permutation. }
  split; [exact Hsum|]. split; [reflexivity|]. split.
  { cbn [view Output.displayGeneralContributions Output.totalLines].
    unfold counted. apply filter_length_le. }
  split.
  { intros E. rewrite Hsum, E. reflexivity. }
  split; [|reflexivity].
  intros Hplain.
  pose proof (authorCounts_object_numbers allAuthors Hplain) as Hobj.
  split; [exact Hobj|]. split.
  { rewrite Hunique, Hobj, length_fmap. reflexivity. }
  rewrite Hsum. unfold counted. do 2 f_equal.
  apply filter_ext_in. intros a Ha. f_equal. unfold Output.inherited.
  rewrite Forall_forall in Hplain.
  rewrite (Hplain a (proj2 (list_elem_of_In _ _) Ha)), orb_false_r. reflexivity.
Qed.

Lemma general_summary_totals_witness :
  let allAuthors := [lit "X"; lit "__proto__"; lit "X"; lit "Y"; lit " "] in
  Pipeline.sum_by snd (Output.authorCounts allAuthors) = 3
  /\ Output.uniqueAuthors (Output.displayGeneralContributions allAuthors 2) = 2%nat
  /\ Output.totalLines (Output.displayGeneralContributions allAuthors 2) = 5%nat.
Proof.
  intros allAuthors.
  destruct (general_summary_totals allAuthors 2) as (_ & Htotal & _ & _ & H & _).
  destruct H as (_ & Hunique & Hsum).
  - unfold allAuthors. repeat constructor.
  - split; [rewrite Hsum; vm_compute; reflexivity|].
    split; [rewrite Hunique; vm_compute; reflexivity|].
    rewrite Htotal. reflexivity.
Defined.


